(** * swri_profiler_tools: the partition widget

    A shallow embedding of [src/swri_profiler_tools/src/partition_widget.cpp]:
    the breadth-first layout builder [layoutProfile], the active-region
    locator [dataRect], the window-from-data transform [getTransform] and the
    widget's handlers [setDatabase], [updateData] and [setActiveNode], and
    the painting of [paintEvent], [renderLayout] and [colorFromString] as the
    list of what they ask of the painter, over the functions of Qt and of
    [util.h] that the source calls and does not hold.

    The C++ code computes in [double].  The functions below are written
    over an interface [Arith] of the arithmetic the source uses, whose
    instance [binary64] is IEEE-754 double precision as the kernel's
    primitive floats compute it.  What depends on the control flow only is
    proved for any arithmetic.  Values, bounds and sums are proved of
    [binary64]: a finite double is read as the real number it stands for
    ([value]), and each operation returns the double nearest to the exact
    result ([rounded]), which is derived from the specification of the
    kernel's floats.

    The [while] loop of [layoutProfile] takes fuel, and [back()] of an empty
    vector is undefined: a call returns [Ok], [Undefined] or [OutOfFuel].  On
    a profile that is a tree of sampled nodes the layout is returned as soon
    as the fuel reaches the height of the root ([layoutProfile_returns]). *)

From Stdlib Require Import String.
From Stdlib Require Import ZArith NArith List Bool Lia.
From Stdlib Require Import Reals Lra.
From Stdlib Require Import Floats.
Import ListNotations.

Set Implicit Arguments.
Set Warnings "-inexact-float".

(** ** Arithmetic of the source *)

(** What [partition_widget.cpp] asks of [double]: the literals [0.0], [1.0],
    [0.2] and [0.05], the four operations, the comparison [<] behind
    [std::max] and [std::min], and the conversions from [size_t] and from a
    nanosecond count. *)
Class Arith (num : Type) : Type := {
  lit_0 : num;
  lit_1 : num;
  lit_0_2 : num;
  lit_0_05 : num;
  add : num -> num -> num;
  sub : num -> num -> num;
  mul : num -> num -> num;
  div : num -> num -> num;
  ltb : num -> num -> bool;
  of_count : N -> num
}.

Declare Scope arith_scope.
Delimit Scope arith_scope with ar.
Infix "+" := add : arith_scope.
Infix "-" := sub : arith_scope.
Infix "*" := mul : arith_scope.
Infix "/" := div : arith_scope.

(** [double], round to nearest even.  An integer is converted by rounding
    the pair (mantissa, exponent 0) to 53 bits. *)
Definition double_of_N (n : N) : float :=
  SF2Prim (binary_normalize 53 1024 (Z.of_N n) 0 false).

#[export] Instance binary64 : Arith float := {
  lit_0 := 0%float;
  lit_1 := 1%float;
  lit_0_2 := 0.2%float;
  lit_0_05 := 0.05%float;
  add := PrimFloat.add;
  sub := PrimFloat.sub;
  mul := PrimFloat.mul;
  div := PrimFloat.div;
  ltb := PrimFloat.ltb;
  of_count := double_of_N
}.

(** ** Doubles as real numbers *)

(** Powers of two. *)
Definition bpow (e : Z) : R := powerRZ 2 e.

Arguments bpow : simpl never.

(** The real number that a float of the specification stands for: an
    infinity and NaN stand for none and are given 0. *)
Definition SF2R (f : spec_float) : R :=
  match f with
  | S754_finite s m e => (IZR (cond_Zopp s (Z.pos m)) * bpow e)%R
  | _ => 0%R
  end.

Definition SF_finite (f : spec_float) : bool :=
  match f with
  | S754_finite _ _ _ | S754_zero _ => true
  | _ => false
  end.

(** Where a real stands with respect to an integer: on it, or between it
    and the next one, below, at or above the middle. *)
Definition located (m : Z) (l : location) (x : R) : Prop :=
  match l with
  | loc_Exact => x = IZR m
  | loc_Inexact Lt => (IZR m < x < IZR m + / 2)%R
  | loc_Inexact Eq => x = (IZR m + / 2)%R
  | loc_Inexact Gt => (IZR m + / 2 < x < IZR m + 1)%R
  end.

(** [m] is an integer nearest to [x]. *)
Definition nearest (m : Z) (x : R) : Prop :=
  forall k : Z, (Rabs (IZR m - x) <= Rabs (IZR k - x))%R.

(** [f] is a double nearest to the real [x]: its value is [m1 * 2^e1], with
    [m1] an integer nearest to [x / 2^e1], where [e1] is the exponent of the
    doubles around [x]: [2^(e1+52) <= |x| < 2^(e1+53)], or [e1] is the least
    exponent, -1074, and [|x| < 2^-1021]. *)
Definition rounding (x : R) (f : spec_float) : Prop :=
  valid_binary f = true
  /\ SF_finite f = true
  /\ exists m1 e1 : Z,
       (-1074 <= e1 <= 971)%Z
       /\ SF2R f = (IZR m1 * bpow e1)%R
       /\ nearest m1 (x * bpow (- e1))
       /\ (e1 = (-1074)%Z \/ (bpow (e1 + 52) <= Rabs x)%R)
       /\ (Rabs x < bpow (e1 + 53))%R.

(** The real number that a double stands for, the doubles that stand for
    one, and the double [r] being the real [x] rounded to nearest. *)
Definition value (x : float) : R := SF2R (Prim2SF x).

Definition finite (x : float) : bool := SF_finite (Prim2SF x).

Definition rounded (x : R) (r : float) : Prop := rounding x (Prim2SF r).

(** ** Results and warnings *)

(** A call either returns, or runs into behaviour C++ leaves undefined
    ([back()] of an empty vector, a null [db_]), or is still looping when the
    fuel given to the [while] loop is spent. *)
Inductive result (T : Type) : Type :=
| Ok (value : T)
| Undefined
| OutOfFuel.

Arguments Ok {T} value.
Arguments Undefined {T}.
Arguments OutOfFuel {T}.

Definition bind {T U : Type} (r : result T) (k : T -> result U) : result U :=
  match r with
  | Ok v => k v
  | Undefined => Undefined
  | OutOfFuel => OutOfFuel
  end.

Notation "x <- r ;; k" := (bind r (fun x => k))
  (at level 61, r at next level, right associativity).

(** [for (x : xs) body], the body threading the loop's variables. *)
Fixpoint for_each {St X : Type} (body : St -> X -> result St) (xs : list X) (st : St)
  : result St :=
  match xs with
  | [] => Ok st
  | x :: rest => st' <- body st x ;; for_each body rest st'
  end.

(** [std::vector::back()]: undefined on an empty vector. *)
Fixpoint back {T : Type} (v : list T) : result T :=
  match v with
  | [] => Undefined
  | [x] => Ok x
  | _ :: rest => back rest
  end.

Definition is_empty {T : Type} (v : list T) : bool :=
  match v with [] => true | _ :: _ => false end.

(** The text of the three [qWarning] calls. *)
Definition warn_invalid_root : string := "Profile returned invalid root node.".
Definition warn_not_found : string := "Active node key was not found in layout".
Definition warn_rebind : string := "PartitionWidget: Cannot change the profile database.".

(** ** The profile, as the widget reads it *)

(** Modelled from the spec: the [ProfileEntry] of [profile.h], which is not
    among the sources.  One sample of a node: the cumulative inclusive and
    exclusive durations, in nanoseconds. *)
Record ProfileEntry : Type := {
  cumulative_inclusive_duration_ns : N;
  cumulative_exclusive_duration_ns : N
}.

(** Modelled from the spec: the [ProfileNode] of [profile.h].  A validity
    flag, the key, the name, the child keys in order and the samples in time
    order. *)
Record ProfileNode : Type := {
  isValid : bool;
  nodeKey : Z;
  name : string;
  childKeys : list Z;
  data : list ProfileEntry
}.

(** Modelled from the spec: [hasChildren()] of [profile.h], true when the
    node has a child key. *)
Definition hasChildren (n : ProfileNode) : bool := negb (is_empty (childKeys n)).

(** Modelled from the spec: the [Profile] of [profile.h], through the two
    methods the widget calls, [rootNode()] and [node(key)]. *)
Record Profile : Type := {
  rootNode : ProfileNode;
  node : Z -> ProfileNode
}.

(** Modelled from the spec: the [DatabaseKey] of [database_key.h].  A pair of
    a profile key and a node key, or the invalid key a default-constructed
    [DatabaseKey] is; the accessors of the invalid key give [-1]. *)
Inductive DatabaseKey : Type :=
| InvalidKey
| ValidKey (profile_key node_key : Z).

Definition key_isValid (k : DatabaseKey) : bool :=
  match k with InvalidKey => false | ValidKey _ _ => true end.

Definition key_profileKey (k : DatabaseKey) : Z :=
  match k with InvalidKey => (-1)%Z | ValidKey p _ => p end.

Definition key_nodeKey (k : DatabaseKey) : Z :=
  match k with InvalidKey => (-1)%Z | ValidKey _ n => n end.

Definition key_eqb (a b : DatabaseKey) : bool :=
  match a, b with
  | InvalidKey, InvalidKey => true
  | ValidKey p n, ValidKey p' n' => (p =? p')%Z && (n =? n')%Z
  | _, _ => false
  end.

(** ** Qt's geometry *)

Record QPointF (num : Type) : Type := { px : num; py : num }.

(** [QRectF] keeps a corner and a size. *)
Record QRectF (num : Type) : Type := { xp : num; yp : num; w : num; h : num }.

(** A 3x3 matrix, as [QTransform]'s constructor takes it. *)
Record QTransform (num : Type) : Type := {
  m11 : num; m12 : num; m13 : num;
  m21 : num; m22 : num; m23 : num;
  m31 : num; m32 : num; m33 : num
}.

(** ** The layout *)

Record LayoutItem (num : Type) : Type := {
  node_key : Z;
  exclusive : bool;
  span_start : num;
  span_end : num
}.

Definition Layout (num : Type) : Type := list (list (LayoutItem num)).

(** The variables of [layoutProfile]'s loop over the parents: [span_start],
    the column [children] being filled, and [keep_going]. *)
Record LoopState (num : Type) : Type := {
  cur_span_start : num;
  cur_children : list (LayoutItem num);
  cur_keep_going : bool
}.

Section Widget.

Context {num : Type} {arith : Arith num}.

Local Open Scope arith_scope.

(** [std::max(a, b)] is [(a < b) ? b : a] and [std::min(a, b)] is
    [(b < a) ? b : a]. *)
Definition std_max (a b : num) : num := if ltb a b then b else a.
Definition std_min (a b : num) : num := if ltb b a then b else a.

(** [QRectF(topLeft, bottomRight)]. *)
Definition QRectF_of_points (tl br : QPointF num) : QRectF num :=
  {| xp := px tl; yp := py tl; w := px br - px tl; h := py br - py tl |}.

Definition left (r : QRectF num) : num := xp r.
Definition top (r : QRectF num) : num := yp r.
Definition right (r : QRectF num) : num := xp r + w r.
Definition bottom (r : QRectF num) : num := yp r + h r.
Definition width (r : QRectF num) : num := w r.
Definition height (r : QRectF num) : num := h r.
Definition topLeft (r : QRectF num) : QPointF num := {| px := xp r; py := yp r |}.
Definition topRight (r : QRectF num) : QPointF num := {| px := xp r + w r; py := yp r |}.
Definition bottomLeft (r : QRectF num) : QPointF num := {| px := xp r; py := yp r + h r |}.
Definition bottomRight (r : QRectF num) : QPointF num :=
  {| px := xp r + w r; py := yp r + h r |}.

(** [QTransform::map(QPointF)] of an affine matrix. *)
Definition map_point (t : QTransform num) (p : QPointF num) : QPointF num :=
  {| px := m11 t * px p + m21 t * py p + m31 t;
     py := m12 t * px p + m22 t * py p + m32 t |}.

(** *** [PartitionWidget::layoutProfile], lines 179-250 *)

(** The body of the loop over [parent_node.childKeys()], lines 233-245. *)
Definition add_child (profile : Profile) (time_scale : num)
    (st : LoopState num) (child_key : Z) : result (LoopState num) :=
  let child_node := node profile child_key in
  entry <- back (data child_node) ;;
  let item :=
    {| node_key := child_key;
       exclusive := false;
       span_start := cur_span_start st;
       span_end := cur_span_start st
                   + of_count (cumulative_inclusive_duration_ns entry) / time_scale |} in
  Ok {| cur_span_start := span_end item;
        cur_children := cur_children st ++ [item];
        cur_keep_going := cur_keep_going st || hasChildren child_node |}.

(** The body of the loop over [parents], lines 214-246: the carry-over
    exclusive item, then the children unless the parent item is exclusive. *)
Definition add_parent (profile : Profile) (time_scale : num)
    (st : LoopState num) (parent_item : LayoutItem num) : result (LoopState num) :=
  let parent_node := node profile (node_key parent_item) in
  entry <- back (data parent_node) ;;
  let item :=
    {| node_key := node_key parent_item;
       exclusive := true;
       span_start := cur_span_start st;
       span_end := cur_span_start st
                   + of_count (cumulative_exclusive_duration_ns entry) / time_scale |} in
  let st1 :=
    {| cur_span_start := span_end item;
       cur_children := cur_children st ++ [item];
       cur_keep_going := cur_keep_going st |} in
  if exclusive parent_item then Ok st1
  else for_each (add_child profile time_scale) (childKeys parent_node) st1.

(** One pass of the [while] loop, lines 207-246: a column is appended,
    [parents] is the column before it, and the new column is filled. *)
Definition layout_column (profile : Profile) (time_scale : num) (layout : Layout num)
  : result (LoopState num) :=
  let layout1 := layout ++ [[]] in
  let parents := nth (length layout1 - 2) layout1 [] in
  for_each (add_parent profile time_scale) parents
    {| cur_span_start := lit_0; cur_children := []; cur_keep_going := false |}.

(** The [while (keep_going)] loop, lines 205-247.  [children] refers to the
    column appended by the pass: once filled, it is the last column. *)
Fixpoint layout_loop (fuel : nat) (profile : Profile) (time_scale : num)
    (layout : Layout num) (keep_going : bool) : result (Layout num) :=
  if keep_going then
    match fuel with
    | O => OutOfFuel
    | S fuel' =>
        st <- layout_column profile time_scale layout ;;
        layout_loop fuel' profile time_scale
          (layout ++ [cur_children st]) (cur_keep_going st)
    end
  else Ok layout.

(** The layout and the warnings printed on the way. *)
Definition layoutProfile (fuel : nat) (profile : Profile)
  : result (Layout num * list string) :=
  let root_node := rootNode profile in
  if negb (isValid root_node) then Ok ([], [warn_invalid_root])
  else if is_empty (data root_node) then Ok ([], [])
  else
    entry <- back (data root_node) ;;
    let time_scale := of_count (cumulative_inclusive_duration_ns entry) in
    let root_item :=
      {| node_key := nodeKey root_node;
         exclusive := false;
         span_start := lit_0;
         span_end := lit_1 |} in
    layout <- layout_loop fuel profile time_scale [[root_item]] (hasChildren root_node) ;;
    Ok (layout, []).

(** *** [PartitionWidget::dataRect], lines 119-145 *)

(** The rectangle returned at a match, lines 130-138. *)
Definition focus_rect (size col : nat) (item : LayoutItem num) : QRectF num :=
  let rect_col := std_max lit_0 (of_count (N.of_nat col) - lit_0_2) in
  let margin := lit_0_05 in
  let span_size := span_end item - span_start item in
  let span_start' := std_max (span_start item - margin * span_size) lit_0 in
  let span_end' := std_min (span_end item + margin * span_size) lit_1 in
  QRectF_of_points {| px := rect_col; py := span_start' |}
                   {| px := of_count (N.of_nat size); py := span_end' |}.

(** The loop over the rows of column [col], lines 127-140. *)
Fixpoint search_rows (active_node : Z) (size col : nat) (rows : list (LayoutItem num))
  : option (QRectF num) :=
  match rows with
  | [] => None
  | item :: rest =>
      if (active_node =? node_key item)%Z then Some (focus_rect size col item)
      else search_rows active_node size col rest
  end.

(** The loop over the columns from [col] on, lines 126-141. *)
Fixpoint search_columns (active_node : Z) (size col : nat) (columns : Layout num)
  : option (QRectF num) :=
  match columns with
  | [] => None
  | rows :: rest =>
      match search_rows active_node size col rows with
      | Some rect => Some rect
      | None => search_columns active_node size (S col) rest
      end
  end.

Definition full_rect (size : nat) : QRectF num :=
  QRectF_of_points {| px := lit_0; py := lit_0 |}
                   {| px := of_count (N.of_nat size); py := lit_1 |}.

(** [dataRect] reads the member [active_key_]; it is an argument here. *)
Definition dataRect (active_key : DatabaseKey) (layout : Layout num)
  : QRectF num * list string :=
  match search_columns (key_nodeKey active_key) (length layout) 0 layout with
  | Some rect => (rect, [])
  | None => (full_rect (length layout), [warn_not_found])
  end.

(** *** [PartitionWidget::getTransform], lines 286-298 *)

Definition getTransform (win_rect data_rect : QRectF num) : QTransform num :=
  let sx := width win_rect / width data_rect in
  let sy := height win_rect / height data_rect in
  let tx := px (topLeft win_rect) - sx * px (topLeft data_rect) in
  let ty := py (topLeft win_rect) - sy * py (topLeft data_rect) in
  {| m11 := sx;    m12 := lit_0; m13 := lit_0;
     m21 := lit_0; m22 := sy;    m23 := lit_0;
     m31 := tx;    m32 := ty;    m33 := lit_1 |}.

End Widget.

(** ** Durations *)

(** The durations of a node's most recent sample. *)
Definition inclusive_ns (n : ProfileNode) : N :=
  match back (data n) with
  | Ok entry => cumulative_inclusive_duration_ns entry
  | _ => 0%N
  end.

Definition exclusive_ns (n : ProfileNode) : N :=
  match back (data n) with
  | Ok entry => cumulative_exclusive_duration_ns entry
  | _ => 0%N
  end.

(** The inclusive durations of the nodes of some keys, added up. *)
Definition keys_inclusive_ns (profile : Profile) (keys : list Z) : N :=
  fold_right (fun k total => (inclusive_ns (node profile k) + total)%N) 0%N keys.

(** The inclusive durations of the children of a node, added up. *)
Definition children_inclusive_ns (profile : Profile) (n : ProfileNode) : N :=
  keys_inclusive_ns profile (childKeys n).

(** A node's time is accounted for: exclusive time and the children's
    inclusive times add up to its inclusive time. *)
Definition conserving_at (profile : Profile) (k : Z) : Prop :=
  (exclusive_ns (node profile k) + children_inclusive_ns profile (node profile k)
   = inclusive_ns (node profile k))%N.

(** They do not exceed it. *)
Definition bounded_at (profile : Profile) (k : Z) : Prop :=
  (exclusive_ns (node profile k) + children_inclusive_ns profile (node profile k)
   <= inclusive_ns (node profile k))%N.

(** ** What a column is made of *)

Section Structure.

Context {num : Type} {arith : Arith num}.

Local Open Scope arith_scope.

Variable profile : Profile.
Variable time_scale : num.

(** The duration an item stands for: its node's exclusive duration for an
    exclusive item, the inclusive one otherwise. *)
Definition item_ns (item : LayoutItem num) : N :=
  if exclusive item then exclusive_ns (node profile (node_key item))
  else inclusive_ns (node profile (node_key item)).

(** An item ends where it starts plus its duration over the time scale. *)
Definition measured (item : LayoutItem num) : Prop :=
  span_end item = span_start item + of_count (item_ns item) / time_scale.

(** Items laid end to start from [from] to [to]: the first starts at [from],
    each ends where the next starts, the last ends at [to]. *)
Fixpoint linked (from : num) (items : list (LayoutItem num)) (to : num) : Prop :=
  match items with
  | [] => from = to
  | item :: rest => span_start item = from /\ linked (span_end item) rest to
  end.

(** The keys whose children an item brings into the next column. *)
Definition expanded_keys (parent_item : LayoutItem num) : list Z :=
  if exclusive parent_item then []
  else childKeys (node profile (node_key parent_item)).

(** The items that one parent item puts into the next column, from the
    cursor [from] to the cursor [to]: its exclusive item, then one
    non-exclusive item per child key, in order. *)
Definition generated (parent_item : LayoutItem num) (from : num)
    (group : list (LayoutItem num)) (to : num) : Prop :=
  linked from group to
  /\ Forall measured group
  /\ map (@node_key num) group = node_key parent_item :: expanded_keys parent_item
  /\ map (@exclusive num) group = true :: map (fun _ => false) (expanded_keys parent_item).

(** A column cut into the groups of the parents, the cursor running through. *)
Inductive expansions : num -> list (LayoutItem num) -> list (list (LayoutItem num))
                       -> num -> Prop :=
| expansions_nil : forall from, expansions from [] [] from
| expansions_cons : forall from parent_item group mid parents groups to,
    generated parent_item from group mid ->
    expansions mid parents groups to ->
    expansions from (parent_item :: parents) (group :: groups) to.

(** [children] is the column that [layoutProfile] derives from [parents]. *)
Definition expands (parents children : list (LayoutItem num)) : Prop :=
  exists groups to, children = concat groups /\ expansions lit_0 parents groups to.

(** Every column after the first derives from the one before it. *)
Fixpoint layered (layout : Layout num) : Prop :=
  match layout with
  | parents :: ((children :: _) as rest) => expands parents children /\ layered rest
  | _ => True
  end.

(** Each item ends where the next one starts. *)
Fixpoint contiguous (items : list (LayoutItem num)) : Prop :=
  match items with
  | item :: ((next :: _) as rest) => span_end item = span_start next /\ contiguous rest
  | _ => True
  end.

End Structure.

(** ** The view animator and the widget *)

(** The two states of an animation. *)
Inductive AnimationState : Type := Stopped | Running.

(** Modelled from the spec: the [VariantAnimation] of [variant_animation.h],
    a [QVariantAnimation] whose engine is outside the sources.  It keeps a
    start and an end value ([QVariant]s, invalid until set), a duration in
    milliseconds, the eased progress of the transition and its state. *)
Record VariantAnimation (num : Type) : Type := {
  startValue : option (QRectF num);
  endValue : option (QRectF num);
  duration : Z;
  progress : num;
  state : AnimationState
}.

(** The signals of [ProfileDatabase] that [setDatabase] connects, and the
    slot they are connected to. *)
Inductive Signal : Type := dataAdded | profileAdded | nodesAdded.

Inductive Slot : Type := slot_updateData.

Record Connection : Type := {
  sender : N;
  signal : Signal;
  receiver_slot : Slot
}.

(** Modelled from the spec: the [ProfileDatabase] of [profile_database.h],
    through [profile(key)], the one method the widget calls.  The databases
    of the host are found by address; their content changes between calls. *)
Definition ProfileDatabase : Type := Z -> Profile.
Definition Databases : Type := N -> ProfileDatabase.

(** The members of the widget, the warnings printed so far and the number of
    repaints asked of [QWidget::update()]. *)
Record PartitionWidget (num : Type) : Type := {
  db_ : option N;
  active_key_ : DatabaseKey;
  current_layout_ : Layout num;
  view_animator_ : VariantAnimation num;
  connections_ : list Connection;
  warnings_ : list string;
  updates_ : nat
}.

Definition Signal_eqb (a b : Signal) : bool :=
  match a, b with
  | dataAdded, dataAdded | profileAdded, profileAdded | nodesAdded, nodesAdded => true
  | _, _ => false
  end.

Section Handlers.

Context {num : Type} {arith : Arith num}.

Local Open Scope arith_scope.

(** Modelled from the spec: the current value of a transition is
    [lerp(start, end, progress)], componentwise on the corners of the
    rectangle; it is invalid while a value is missing. *)
Definition lerp (a b t : num) : num := a + (b - a) * t.

Definition lerp_rect (a b : QRectF num) (t : num) : QRectF num :=
  QRectF_of_points
    {| px := lerp (px (topLeft a)) (px (topLeft b)) t;
       py := lerp (py (topLeft a)) (py (topLeft b)) t |}
    {| px := lerp (px (bottomRight a)) (px (bottomRight b)) t;
       py := lerp (py (bottomRight a)) (py (bottomRight b)) t |}.

Definition currentValue (a : VariantAnimation num) : option (QRectF num) :=
  match startValue a, endValue a with
  | Some from, Some to => Some (lerp_rect from to (progress a))
  | _, _ => None
  end.

Definition setStartValue (v : option (QRectF num)) (a : VariantAnimation num)
  : VariantAnimation num :=
  {| startValue := v; endValue := endValue a; duration := duration a;
     progress := progress a; state := state a |}.

Definition setEndValue (v : option (QRectF num)) (a : VariantAnimation num)
  : VariantAnimation num :=
  {| startValue := startValue a; endValue := v; duration := duration a;
     progress := progress a; state := state a |}.

Definition setDuration (msecs : Z) (a : VariantAnimation num) : VariantAnimation num :=
  {| startValue := startValue a; endValue := endValue a; duration := msecs;
     progress := progress a; state := state a |}.

Definition stop (a : VariantAnimation num) : VariantAnimation num :=
  {| startValue := startValue a; endValue := endValue a; duration := duration a;
     progress := progress a; state := Stopped |}.

(** [start()] runs the transition from its beginning. *)
Definition start (a : VariantAnimation num) : VariantAnimation num :=
  {| startValue := startValue a; endValue := endValue a; duration := duration a;
     progress := lit_0; state := Running |}.

(** Modelled from the spec: a step of the engine while the transition
    runs; the eased progress moves to [t]. *)
Definition tick (t : num) (a : VariantAnimation num) : VariantAnimation num :=
  {| startValue := startValue a; endValue := endValue a; duration := duration a;
     progress := t; state := state a |}.

(** The constructor, lines 52-61: no database, the invalid key, an empty
    layout and an animator with no values (250ms is Qt's default). *)
Definition new_PartitionWidget : PartitionWidget num :=
  {| db_ := None;
     active_key_ := InvalidKey;
     current_layout_ := [];
     view_animator_ :=
       {| startValue := None; endValue := None; duration := 250;
          progress := lit_0; state := Stopped |};
     connections_ := [];
     warnings_ := [];
     updates_ := 0 |}.

(** The connections that [setDatabase] makes for the database at [db],
    lines 80-82. *)
Definition connected_to (db : N) : list Connection :=
  [ {| sender := db; signal := dataAdded; receiver_slot := slot_updateData |};
    {| sender := db; signal := profileAdded; receiver_slot := slot_updateData |};
    {| sender := db; signal := nodesAdded; receiver_slot := slot_updateData |} ].

(** [PartitionWidget::setDatabase], lines 67-83.  [db] is the pointer the
    host passes: the address of a database, or [None] for a null pointer.
    The guard of line 69 tests the member, so a null pointer, stored at
    line 76 as it is given, leaves the widget free for a later call; and
    [QObject::connect] makes no connection for a null sender (what Qt prints
    then is not one of the [qWarning]s of this file and is not recorded). *)
Definition setDatabase (db : option N) (widget : PartitionWidget num)
  : PartitionWidget num :=
  match db_ widget with
  | Some _ =>
      {| db_ := db_ widget;
         active_key_ := active_key_ widget;
         current_layout_ := current_layout_ widget;
         view_animator_ := view_animator_ widget;
         connections_ := connections_ widget;
         warnings_ := warnings_ widget ++ [warn_rebind];
         updates_ := updates_ widget |}
  | None =>
      {| db_ := db;
         active_key_ := active_key_ widget;
         current_layout_ := current_layout_ widget;
         view_animator_ := view_animator_ widget;
         connections_ :=
           connections_ widget
           ++ match db with
              | Some sender => connected_to sender
              | None => []
              end;
         warnings_ := warnings_ widget;
         updates_ := S (updates_ widget) |}
  end.

(** [PartitionWidget::updateData], lines 85-98. *)
Definition updateData (heap : Databases) (fuel : nat) (widget : PartitionWidget num)
  : result (PartitionWidget num) :=
  if negb (key_isValid (active_key_ widget)) then Ok widget
  else
    match db_ widget with
    | None => Undefined
    | Some db =>
        let profile := heap db (key_profileKey (active_key_ widget)) in
        built <- layoutProfile fuel profile ;;
        let layout := fst built in
        let located := dataRect (active_key_ widget) layout in
        let data_rect := fst located in
        Ok {| db_ := db_ widget;
              active_key_ := active_key_ widget;
              current_layout_ := layout;
              view_animator_ := setEndValue (Some data_rect) (view_animator_ widget);
              connections_ := connections_ widget;
              warnings_ := warnings_ widget ++ snd built ++ snd located;
              updates_ := S (updates_ widget) |}
    end.

(** [PartitionWidget::setActiveNode], lines 147-177. *)
Definition setActiveNode (heap : Databases) (fuel : nat) (profile_key node_key : Z)
    (widget : PartitionWidget num) : result (PartitionWidget num) :=
  let new_key := ValidKey profile_key node_key in
  if key_eqb new_key (active_key_ widget) then Ok widget
  else
    let first := negb (key_isValid (active_key_ widget)) in
    match db_ widget with
    | None => Undefined
    | Some db =>
        let profile := heap db (key_profileKey new_key) in
        built <- layoutProfile fuel profile ;;
        let layout := fst built in
        let located := dataRect new_key layout in
        let data_rect := fst located in
        let animator :=
          if negb first then
            let a1 := stop (view_animator_ widget) in
            let a2 := setStartValue (endValue a1) a1 in
            let a3 := setEndValue (Some data_rect) a2 in
            let a4 := setDuration 500 a3 in
            start a4
          else
            let a1 := setStartValue (Some data_rect) (view_animator_ widget) in
            setEndValue (Some data_rect) a1 in
        Ok {| db_ := db_ widget;
              active_key_ := new_key;
              current_layout_ := layout;
              view_animator_ := animator;
              connections_ := connections_ widget;
              warnings_ := warnings_ widget ++ snd built ++ snd located;
              updates_ := updates_ widget |}
    end.

Definition run_slot (heap : Databases) (fuel : nat) (slot : Slot)
    (widget : PartitionWidget num) : result (PartitionWidget num) :=
  match slot with
  | slot_updateData => updateData heap fuel widget
  end.

(** The database at [from] emits [sig]: every slot connected to it runs, in
    the order of connection.  The integer the signal carries is dropped, the
    slot taking no argument. *)
Definition emit (heap : Databases) (fuel : nat) (from : N) (sig : Signal)
    (widget : PartitionWidget num) : result (PartitionWidget num) :=
  for_each
    (fun (w : PartitionWidget num) (c : Connection) =>
       if (sender c =? from)%N && Signal_eqb (signal c) sig
       then run_slot heap fuel (receiver_slot c) w
       else Ok w)
    (connections_ widget) widget.

(** The engine reports a step: the animator moves, and the signal
    [valueChanged], connected to [update()] at lines 59-60, asks for a
    repaint. *)
Definition animate (t : num) (widget : PartitionWidget num)
  : PartitionWidget num :=
  {| db_ := db_ widget;
     active_key_ := active_key_ widget;
     current_layout_ := current_layout_ widget;
     view_animator_ := tick t (view_animator_ widget);
     connections_ := connections_ widget;
     warnings_ := warnings_ widget;
     updates_ := S (updates_ widget) |}.

End Handlers.

(** ** The scenario of the spec: a root and one child *)

Module Scenario.

Definition rootKey : Z := 0.
Definition childKey : Z := 1.

(** A node with one sample. *)
Definition sampled (key : Z) (label : string) (children : list Z) (inclusive exclusive : N)
  : ProfileNode :=
  {| isValid := true; nodeKey := key; name := label; childKeys := children;
     data := [ {| cumulative_inclusive_duration_ns := inclusive;
                  cumulative_exclusive_duration_ns := exclusive |} ] |}.

(** What [node] returns for a key the profile does not have. *)
Definition invalid_node : ProfileNode :=
  {| isValid := false; nodeKey := -1; name := ""; childKeys := []; data := [] |}.

(** Root: inclusive 100ns, exclusive 20ns; its only child: inclusive
    [child_inclusive], no children. *)
Definition two_nodes (child_inclusive : N) : Profile :=
  let root := sampled rootKey "root" [childKey] 100 20 in
  let child := sampled childKey "child" [] child_inclusive child_inclusive in
  {| rootNode := root;
     node := fun key =>
       if (key =? rootKey)%Z then root
       else if (key =? childKey)%Z then child
       else invalid_node |}.

Definition profile : Profile := two_nodes 80.

(** A root and a child that have not run yet: every duration is zero. *)
Definition idle_profile : Profile :=
  let root := sampled rootKey "root" [childKey] 0 0 in
  let child := sampled childKey "child" [] 0 0 in
  {| rootNode := root;
     node := fun key =>
       if (key =? rootKey)%Z then root
       else if (key =? childKey)%Z then child
       else invalid_node |}.

(** The root stands one level above its child. *)
Definition height (key : Z) : nat := if (key =? rootKey)%Z then 1 else 0.

(** The columns that the widget derives from [two_nodes], with the ends of
    the two items of the second column left open. *)
Definition two_columns {num : Type} {arith : Arith num} (exclusive_end child_end : num)
  : Layout num :=
  [ [ {| node_key := rootKey; exclusive := false;
         span_start := lit_0; span_end := lit_1 |} ];
    [ {| node_key := rootKey; exclusive := true;
         span_start := lit_0; span_end := exclusive_end |};
      {| node_key := childKey; exclusive := false;
         span_start := exclusive_end; span_end := child_end |} ] ].

(** The layout of [profile] in double precision. *)
Definition layout : Layout float := two_columns 0.2%float 1%float.

(** A profile whose root does not resolve, and one whose root has no sample
    yet. *)
Definition invalid_profile : Profile :=
  {| rootNode := invalid_node; node := fun _ => invalid_node |}.

Definition unsampled_node : ProfileNode :=
  {| isValid := true; nodeKey := rootKey; name := "root"; childKeys := []; data := [] |}.

Definition unsampled_profile : Profile :=
  {| rootNode := unsampled_node;
     node := fun key => if (key =? rootKey)%Z then unsampled_node else invalid_node |}.

(** A host with one database, at address 0, holding [profile] under every
    profile key, and a widget bound to it. *)
Definition heap : Databases := fun _ _ => profile.

Definition bound_widget : PartitionWidget float :=
  setDatabase (Some 0%N) new_PartitionWidget.

(** The host asks for a node of profile 0; a call that does not return
    leaves the widget as it was. *)
Definition focus (node_key : Z) (widget : PartitionWidget float) : PartitionWidget float :=
  match setActiveNode heap 1 0 node_key widget with
  | Ok widget' => widget'
  | _ => widget
  end.

(** The root is focused first; then the child is asked for, and the engine
    has moved the transition half way. *)
Definition root_focused : PartitionWidget float := focus rootKey bound_widget.

Definition half_way : PartitionWidget float :=
  animate 0.5%float (focus childKey root_focused).

(** The rectangles that focus on the root and on the child. *)
Definition root_rect : QRectF float :=
  {| xp := 0%float; yp := 0%float; w := 2%float; h := 1%float |}.

Definition child_rect : QRectF float :=
  {| xp := 0.8%float; yp := 0.16%float; w := 1.2%float; h := 0.83999999999999997%float |}.

End Scenario.

(** ** Profiles that are trees *)

(** The profile is a tree of sampled nodes: the root is valid, has a sample
    and is the node of its own key; every child key names a node with a
    sample; and [height] decreases from a node to its children, so that no
    node is its own descendant. *)
Record tree_shaped (profile : Profile) (height : Z -> nat) : Prop := {
  root_valid : isValid (rootNode profile) = true;
  root_sampled : data (rootNode profile) <> [];
  root_known : node profile (nodeKey (rootNode profile)) = rootNode profile;
  child_sampled :
    forall k c, In c (childKeys (node profile k)) -> data (node profile c) <> [];
  child_lower :
    forall k c, In c (childKeys (node profile k)) -> (height c < height k)%nat
}.

(** The items of a column have samples, and the non-exclusive ones stand at
    height [bound] at most. *)
Definition ready {num : Type} (profile : Profile) (height : Z -> nat) (bound : nat)
    (column : list (LayoutItem num)) : Prop :=
  Forall (fun item =>
            data (node profile (node_key item)) <> []
            /\ (exclusive item = false -> (height (node_key item) <= bound)%nat))
         column.

(** The durations that the items of a group stand for, added up. *)
Definition group_ns {num : Type} (profile : Profile) (items : list (LayoutItem num)) : N :=
  fold_right (fun item total => (item_ns profile item + total)%N) 0%N items.

(** ** Columns in double precision *)

(** The cursor [c] of a column stands, after [j] items, for [n] of the [T]
    nanoseconds of the root: it is a finite double, not negative, and
    [n / T] with an error of [(4 n / T + 2 j) 2^-53] at most. *)
Definition within (T : N) (j : N) (n : N) (c : float) : Prop :=
  finite c = true
  /\ (0 <= value c)%R
  /\ (Rabs (value c - IZR (Z.of_N n) / IZR (Z.of_N T))
      <= (4 * (IZR (Z.of_N n) / IZR (Z.of_N T)) + 2 * IZR (Z.of_N j)) * bpow (-53))%R.

(** The items of a column stay with the durations they stand for: item
    number [j], after [n] nanoseconds, starts and ends [within] the error
    of its place, and does not end before it starts. *)
Fixpoint tracks (profile : Profile) (T : N) (j n : N) (items : list (LayoutItem float))
  : Prop :=
  match items with
  | [] => True
  | item :: rest =>
      within T j n (span_start item)
      /\ within T (j + 1) (n + item_ns profile item) (span_end item)
      /\ (value (span_start item) <= value (span_end item))%R
      /\ tracks profile T (j + 1) (n + item_ns profile item) rest
  end.

(** The span lengths of some items, added up as real numbers. *)
Fixpoint span_total (items : list (LayoutItem float)) : R :=
  match items with
  | [] => 0%R
  | item :: rest => (value (span_end item) - value (span_start item) + span_total rest)%R
  end.

(** The group of one parent item: its keys and its flags, and that it is
    contiguous. *)
Definition group_shape (profile : Profile) (parent_item : LayoutItem float)
    (group : list (LayoutItem float)) : Prop :=
  map (@node_key float) group = node_key parent_item :: expanded_keys profile parent_item
  /\ map (@exclusive float) group
     = true :: map (fun _ => false) (expanded_keys profile parent_item)
  /\ contiguous group.

(** The spans of a parent item and of its group are finite doubles, and the
    span lengths of the group add up to the span length of the parent item,
    within [1e-9]. *)
Definition group_length (parent_item : LayoutItem float) (group : list (LayoutItem float))
  : Prop :=
  Forall (fun item => finite (span_start item) = true /\ finite (span_end item) = true)
         (parent_item :: group)
  /\ (Rabs (span_total group - (value (span_end parent_item) - value (span_start parent_item)))
      <= / 1000000000)%R.

(** A column that runs from 0 to some cursor, whose durations fit in the
    [T] nanoseconds of the root and whose items, when there are ten million
    of them at most, stay with their durations. *)
Definition column_ok (profile : Profile) (T : N) (column : list (LayoutItem float)) : Prop :=
  (group_ns profile column <= T)%N
  /\ exists to,
       linked 0%float column to
       /\ ((N.of_nat (length column) <= 10000000)%N ->
           tracks profile T 0 0 column
           /\ within T (N.of_nat (length column)) (group_ns profile column) to).

(** ** Rectangles that the transform is accurate on *)

(** A coordinate of moderate size: a finite double of at most [2^64] in
    absolute value. *)
Definition moderate (x : float) : Prop :=
  finite x = true /\ (Rabs (value x) <= bpow 64)%R.

(** A size that is not tiny: at least [2^-64] in absolute value. *)
Definition sizeable (x : float) : Prop := (bpow (-64) <= Rabs (value x))%R.

(** How far the image of an end of the data may be from the end of the
    window, along one axis: the window starts at [a] and is [l] long, the
    data start at [d] and are [w] long. *)
Definition axis_tolerance (a l d w : float) : R :=
  (bpow (-50) * (Rabs (value a) + Rabs (value l) + Rabs (value l / value w * value d))
   + bpow (-1000))%R.

(** A corner of the data is mapped to a point of finite coordinates, close
    to the same corner of the window, which has finite coordinates too. *)
Definition corner_close (win_rect data_rect : QRectF float)
    (corner : QRectF float -> QPointF float) : Prop :=
  let image := map_point (getTransform win_rect data_rect) (corner data_rect) in
  finite (px image) = true
  /\ finite (py image) = true
  /\ finite (px (corner win_rect)) = true
  /\ finite (py (corner win_rect)) = true
  /\ (Rabs (value (px image) - value (px (corner win_rect)))
      <= axis_tolerance (xp win_rect) (w win_rect) (xp data_rect) (w data_rect))%R
  /\ (Rabs (value (py image) - value (py (corner win_rect)))
      <= axis_tolerance (yp win_rect) (h win_rect) (yp data_rect) (h data_rect))%R.

(** ** Painting *)

(** Qt's colours, as the widget makes them: [QColor(r, g, b)], and
    [QColor::fromHsv(h, s, v)], which gives the invalid colour when the hue
    is outside [[0, 359]] (and not [-1]) or the saturation or the value is
    outside [[0, 255]]. *)
Inductive QColor : Type :=
| InvalidColor
| Rgb (red green blue : Z)
| Hsv (hue saturation value : Z).

Definition fromHsv (h s v : Z) : QColor :=
  if ((((h <? 0) || (360 <=? h)) && negb (h =? -1))
      || (s <? 0) || (255 <? s) || (v <? 0) || (255 <? v))%Z
  then InvalidColor
  else Hsv h s v.

(** [colorFromString], lines 42-50.  [std::hash<std::string>] belongs to the
    C++ library: it is the argument [std_hash]. *)
Definition colorFromString (std_hash : string -> N) (name : string) : QColor :=
  let name_hash := std_hash name in
  let h := (N.shiftr name_hash 0 mod 255)%N in
  let s := (N.shiftr name_hash 8 mod 200 + 55)%N in
  let v := (N.shiftr name_hash 16 mod 200 + 55)%N in
  fromHsv (Z.of_N h) (Z.of_N s) (Z.of_N v).

(** The pens the widget sets, and what it asks of the [QPainter]; [QRect]
    is Qt's rectangle of integers. *)
Inductive Pen : Type := NoPen | BlackPen.

Inductive PaintCommand (QRect : Type) : Type :=
| setPen (pen : Pen)
| fillRect (x y w h : N) (color : QColor)
| setBrush (color : QColor)
| drawRect (rect : QRect).

Arguments setPen {QRect} pen.
Arguments fillRect {QRect} x y w h color.
Arguments setBrush {QRect} color.
Arguments drawRect {QRect} rect.

Section Painting.

Context {num : Type} {arith : Arith num}.

(** What the painting code calls and the sources do not hold: the hash of
    the C++ library, [QTransform::mapRect], [QRect::adjusted], and
    [roundRectF] of [util.h]. *)
Variable std_hash : string -> N.
Variable QRect : Type.
Variable mapRect : QTransform num -> QRectF num -> QRectF num.
Variable roundRectF : QRectF num -> QRect.
Variable adjusted : Z -> Z -> Z -> Z -> QRect -> QRect.

(** The rectangle drawn for an item of column [col], lines 272-281. *)
Definition cell (win_from_data : QTransform num) (size col : nat)
    (layout_item : LayoutItem num) : QRect :=
  let tl := {| px := of_count (N.of_nat col); py := span_start layout_item |} in
  let br := {| px := of_count (N.of_nat size); py := span_end layout_item |} in
  let data_rect := QRectF_of_points tl br in
  let win_rect := mapRect win_from_data data_rect in
  let int_rect2 := roundRectF win_rect in
  adjusted 0 0 (-1) (-1) int_rect2.

(** The body of the loop over the rows, lines 263-281: an exclusive item is
    skipped, another one sets the brush and draws its rectangle. *)
Definition render_item (win_from_data : QTransform num) (profile : Profile)
    (size col : nat) (painted : list (PaintCommand QRect))
    (layout_item : LayoutItem num) : list (PaintCommand QRect) :=
  if exclusive layout_item then painted
  else
    let color := colorFromString std_hash (name (node profile (node_key layout_item))) in
    painted ++ [setBrush color; drawRect (cell win_from_data size col layout_item)].

(** The loop over the columns from [col] on, lines 261-283. *)
Fixpoint render_columns (win_from_data : QTransform num) (profile : Profile)
    (size col : nat) (columns : Layout num) (painted : list (PaintCommand QRect))
  : list (PaintCommand QRect) :=
  match columns with
  | [] => painted
  | rows :: rest =>
      render_columns win_from_data profile size (S col) rest
        (fold_left (render_item win_from_data profile size col) rows painted)
  end.

(** [PartitionWidget::renderLayout], lines 253-284: what it asks of the
    painter, in order. *)
Definition renderLayout (win_from_data : QTransform num) (layout : Layout num)
    (profile : Profile) : list (PaintCommand QRect) :=
  render_columns win_from_data profile (length layout) 0 layout [setPen BlackPen].

(** [QVariant::toRectF()]: the null rectangle for an invalid variant. *)
Definition toRectF (v : option (QRectF num)) : QRectF num :=
  match v with
  | Some rect => rect
  | None => {| xp := lit_0; yp := lit_0; w := lit_0; h := lit_0 |}
  end.

(** [PartitionWidget::paintEvent], lines 100-117, for a widget [width] by
    [height] pixels: what it asks of the painter. *)
Definition paintEvent (heap : Databases) (width height : N) (widget : PartitionWidget num)
  : result (list (PaintCommand QRect)) :=
  let background := [setPen NoPen; fillRect 0 0 width height (Rgb 255 255 255)] in
  if is_empty (current_layout_ widget) then Ok background
  else
    match db_ widget with
    | None => Undefined
    | Some db =>
        let profile := heap db (key_profileKey (active_key_ widget)) in
        let data_rect := toRectF (currentValue (view_animator_ widget)) in
        let win_rect :=
          QRectF_of_points {| px := lit_0; py := lit_0 |}
                           {| px := of_count width; py := of_count height |} in
        let win_from_data := getTransform win_rect data_rect in
        Ok (background ++ renderLayout win_from_data (current_layout_ widget) profile)
    end.

(** The items that [renderLayout] draws, each with its column: the
    non-exclusive ones, columns in order and rows in order. *)
Fixpoint drawn_items (col : nat) (columns : Layout num) : list (nat * LayoutItem num) :=
  match columns with
  | [] => []
  | rows :: rest =>
      map (pair col) (filter (fun item => negb (exclusive item)) rows)
      ++ drawn_items (S col) rest
  end.

(** The two commands of an item that is drawn. *)
Definition draw_commands (win_from_data : QTransform num) (profile : Profile)
    (size : nat) (entry : nat * LayoutItem num) : list (PaintCommand QRect) :=
  [ setBrush (colorFromString std_hash (name (node profile (node_key (snd entry)))));
    drawRect (cell win_from_data size (fst entry) (snd entry)) ].

End Painting.

(** ** The life of a widget *)

(** What happens to a widget: the host binds a database or asks for a node,
    a database emits a signal, the engine moves the transition. *)
Inductive Event (num : Type) : Type :=
| host_setDatabase (db : option N)
| host_setActiveNode (profile_key node_key : Z)
| database_signal (from : N) (sig : Signal)
| engine_tick (t : num).

Arguments host_setDatabase {num} db.
Arguments host_setActiveNode {num} profile_key node_key.
Arguments database_signal {num} from sig.

(** One event, with the databases as they are when it happens and the fuel
    of the call. *)
Definition handle {num : Type} {arith : Arith num} (heap : Databases) (fuel : nat)
    (event : Event num) (widget : PartitionWidget num) : result (PartitionWidget num) :=
  match event with
  | host_setDatabase db => Ok (setDatabase db widget)
  | host_setActiveNode profile_key node_key =>
      setActiveNode heap fuel profile_key node_key widget
  | database_signal from sig => emit heap fuel from sig widget
  | engine_tick t => Ok (animate t widget)
  end.

(** A widget from its construction on, through a list of events. *)
Definition run {num : Type} {arith : Arith num}
    (events : list (Databases * nat * Event num)) : result (PartitionWidget num) :=
  for_each (fun widget '(heap, fuel, event) => handle heap fuel event widget)
           events new_PartitionWidget.

(** What holds of a widget all its life: with no database there is no
    connection, with one there are its three connections and no other; a
    valid active key comes with a database and with a start and an end value
    of the animator; a layout with columns comes with a valid active key. *)
Record consistent {num : Type} (widget : PartitionWidget num) : Prop := {
  connections_of_db :
    connections_ widget
    = match db_ widget with None => [] | Some db => connected_to db end;
  active_is_bound :
    key_isValid (active_key_ widget) = true ->
    db_ widget <> None
    /\ startValue (view_animator_ widget) <> None
    /\ endValue (view_animator_ widget) <> None;
  layout_is_active :
    current_layout_ widget <> [] -> key_isValid (active_key_ widget) = true
}.

(** An item that brings children into the next column: it is not exclusive
    and its node has children. *)
Definition expandable {num : Type} (profile : Profile) (item : LayoutItem num) : bool :=
  negb (exclusive item) && hasChildren (node profile (node_key item)).

(** More profiles and layouts to run the code on. *)
Module Cases.

(** The root of the scenario with a child key that the profile does not
    have. *)
Definition dangling_profile : Profile :=
  let root := Scenario.sampled Scenario.rootKey "root" [Scenario.childKey] 100 20 in
  {| rootNode := root;
     node := fun key =>
       if (key =? Scenario.rootKey)%Z then root else Scenario.invalid_node |}.

(** The scenario with other keys and with a history: the root and the child
    were sampled once before their most recent sample. *)
Definition history_profile : Profile :=
  let root :=
    {| isValid := true; nodeKey := 7; name := "main"; childKeys := [9%Z];
       data := [ {| cumulative_inclusive_duration_ns := 40;
                    cumulative_exclusive_duration_ns := 10 |};
                 {| cumulative_inclusive_duration_ns := 100;
                    cumulative_exclusive_duration_ns := 20 |} ] |} in
  let child :=
    {| isValid := true; nodeKey := 9; name := "work"; childKeys := [];
       data := [ {| cumulative_inclusive_duration_ns := 30;
                    cumulative_exclusive_duration_ns := 30 |};
                 {| cumulative_inclusive_duration_ns := 80;
                    cumulative_exclusive_duration_ns := 80 |} ] |} in
  {| rootNode := root;
     node := fun key =>
       if (key =? 7)%Z then root
       else if (key =? 9)%Z then child
       else Scenario.invalid_node |}.

(** A root of inclusive duration [count] ns and no time of its own, with
    [count] children of 1ns each, under the keys 1 to [count]. *)
Definition equal_children (count : nat) : Profile :=
  let root :=
    Scenario.sampled 0 "root" (map Z.of_nat (seq 1 count)) (N.of_nat count) 0 in
  {| rootNode := root;
     node := fun key =>
       if (key =? 0)%Z then root
       else if ((1 <=? key)%Z && (key <=? Z.of_nat count)%Z)%bool
            then Scenario.sampled key "child" [] 1 1
            else Scenario.invalid_node |}.

(** A name hashed to the sum of its character codes. *)
Fixpoint code_sum (name : string) : N :=
  match name with
  | EmptyString => 0%N
  | String c rest => (Ascii.N_of_ascii c + code_sum rest)%N
  end.

(** A life: the widget is bound, the root is asked for, data arrives, the
    child is asked for, and the engine moves the transition half way. *)
Definition story : list (Databases * nat * Event float) :=
  [ (Scenario.heap, 1%nat, host_setDatabase (Some 0%N));
    (Scenario.heap, 1%nat, host_setActiveNode 0 Scenario.rootKey);
    (Scenario.heap, 1%nat, database_signal 0 dataAdded);
    (Scenario.heap, 1%nat, host_setActiveNode 0 Scenario.childKey);
    (Scenario.heap, 1%nat, engine_tick 0.5%float) ].

Definition after_story : PartitionWidget float :=
  match run story with
  | Ok widget => widget
  | _ => new_PartitionWidget
  end.

(** Stand-ins for [mapRect], [roundRectF] and [adjusted], to run the
    painting on: rectangles stay as they are. *)
Definition same_mapRect (t : QTransform float) (rect : QRectF float) : QRectF float := rect.
Definition same_roundRectF (rect : QRectF float) : QRectF float := rect.
Definition same_adjusted (dx1 dy1 dx2 dy2 : Z) (rect : QRectF float) : QRectF float := rect.

End Cases.

(** * Properties *)

(** ** Double precision

    The operations of [binary64] against the real numbers: each one returns
    the double nearest to the exact result, from the specification of the
    kernel's floats ([SpecFloat] and [FloatAxioms]). *)

Section Doubles.

Unset Implicit Arguments.

Local Open Scope R_scope.

Lemma bpow_pos (e : Z) : 0 < bpow e.
Proof. apply powerRZ_lt. lra. Qed.

Lemma bpow_add (a b : Z) : bpow (a + b) = bpow a * bpow b.
Proof. apply powerRZ_add. lra. Qed.

Lemma bpow_0 : bpow 0 = 1.
Proof. reflexivity. Qed.

Lemma bpow_1 : bpow 1 = 2.
Proof. unfold bpow. simpl. lra. Qed.

Lemma bpow_m1 : bpow (-1) = / 2.
Proof. unfold bpow. simpl. rewrite Rmult_1_r. reflexivity. Qed.

Lemma bpow_opp (e : Z) : bpow (- e) = / bpow e.
Proof. apply powerRZ_neg'. Qed.

Lemma bpow_succ (e : Z) : bpow (e + 1) = 2 * bpow e.
Proof. rewrite bpow_add, bpow_1. ring. Qed.

Lemma bpow_pred (e : Z) : bpow (e - 1) = bpow e / 2.
Proof.
  replace e with ((e - 1) + 1)%Z at 2 by ring. rewrite bpow_succ. field.
Qed.

Lemma bpow_ge_1 (k : Z) : (0 <= k)%Z -> 1 <= bpow k.
Proof.
  intros H. pattern k. apply natlike_ind; [rewrite bpow_0; lra | | exact H].
  intros n Hn IH. unfold Z.succ. rewrite bpow_succ. lra.
Qed.

Lemma bpow_le (a b : Z) : (a <= b)%Z -> bpow a <= bpow b.
Proof.
  intros H. replace b with (a + (b - a))%Z by ring. rewrite bpow_add.
  pose proof (bpow_ge_1 (b - a) ltac:(lia)). pose proof (bpow_pos a). nra.
Qed.

Lemma bpow_lt (a b : Z) : (a < b)%Z -> bpow a < bpow b.
Proof.
  intros H. assert (H1 : bpow (a + 1) <= bpow b) by (apply bpow_le; lia).
  rewrite bpow_succ in H1. pose proof (bpow_pos a). lra.
Qed.

Lemma bpow_lt_inv (a b : Z) : bpow a < bpow b -> (a < b)%Z.
Proof.
  intros H. destruct (Z_lt_le_dec a b) as [Hl | Hl]; [exact Hl |].
  pose proof (bpow_le _ _ Hl). lra.
Qed.

Lemma bpow_IZR (n : Z) : (0 <= n)%Z -> bpow n = IZR (2 ^ n).
Proof.
  intros H. pattern n. apply natlike_ind; [reflexivity | | exact H].
  intros k Hk IH. unfold Z.succ. rewrite bpow_succ, IH, Z.pow_add_r by lia.
  rewrite mult_IZR. change (2 ^ 1)%Z with 2%Z. simpl. ring.
Qed.

#[global] Opaque bpow.

Lemma bpow_inv_l (e : Z) : bpow (- e) * bpow e = 1.
Proof. rewrite <- bpow_add. replace (- e + e)%Z with 0%Z by ring. apply bpow_0. Qed.

Lemma bpow_inv_r (e : Z) : bpow e * bpow (- e) = 1.
Proof. rewrite Rmult_comm. apply bpow_inv_l. Qed.

(** The number of binary digits. *)
Lemma digits2_size (p : positive) : digits2_pos p = Pos.size p.
Proof. induction p; simpl; congruence. Qed.

Lemma digits_bounds (p : positive) :
  (2 ^ (Z.pos (digits2_pos p) - 1) <= Z.pos p < 2 ^ Z.pos (digits2_pos p))%Z.
Proof.
  rewrite digits2_size. split.
  - pose proof (Pos.size_le p) as H.
    assert (H' : (2 ^ Z.pos (Pos.size p) <= 2 * Z.pos p)%Z).
    { change (2 * Z.pos p)%Z with (Z.pos p~0). rewrite <- Pos2Z.inj_pow. apply Pos2Z.pos_le_pos. exact H. }
    replace (Z.pos (Pos.size p)) with ((Z.pos (Pos.size p) - 1) + 1)%Z in H' by ring.
    rewrite Z.pow_add_r in H' by lia. lia.
  - pose proof (Pos.size_gt p) as H.
    change 2%Z with (Z.pos 2). rewrite <- Pos2Z.inj_pow. apply Pos2Z.pos_lt_pos. exact H.
Qed.

Lemma Zdigits2_nonneg (m : Z) : (0 <= Zdigits2 m)%Z.
Proof. destruct m; simpl; lia. Qed.

Lemma Zdigits2_bounds (m : Z) :
  (0 < m)%Z -> (2 ^ (Zdigits2 m - 1) <= m < 2 ^ Zdigits2 m)%Z.
Proof. destruct m as [| p | p]; try lia. intros _. apply digits_bounds. Qed.

Lemma Zdigits2_le (m k : Z) : (0 < m)%Z -> (0 <= k)%Z -> (m < 2 ^ k)%Z -> (Zdigits2 m <= k)%Z.
Proof.
  intros Hm Hk H. pose proof (Zdigits2_bounds m Hm) as [Hl _].
  destruct (Z_le_gt_dec (Zdigits2 m) k) as [Hle | Hgt]; [exact Hle |].
  assert (2 ^ k <= 2 ^ (Zdigits2 m - 1))%Z by (apply Z.pow_le_mono_r; lia). lia.
Qed.

Lemma Zdigits2_ge (m k : Z) : (0 <= k)%Z -> (2 ^ k <= m)%Z -> (k + 1 <= Zdigits2 m)%Z.
Proof.
  intros Hk H. assert (Hm : (0 < m)%Z) by (pose proof (Z.pow_pos_nonneg 2 k); lia).
  pose proof (Zdigits2_bounds m Hm) as [_ Hu].
  pose proof (Zdigits2_nonneg m).
  destruct (Z_le_gt_dec (k + 1) (Zdigits2 m)) as [Hle | Hgt]; [exact Hle |].
  assert (2 ^ Zdigits2 m <= 2 ^ k)%Z by (apply Z.pow_le_mono_r; lia). lia.
Qed.

Lemma fexp_eq (e : Z) : fexp prec emax e = Z.max (e - 53) (-1074).
Proof. reflexivity. Qed.

Lemma located_bounds (m : Z) (l : location) (x : R) :
  located m l x -> IZR m <= x < IZR m + 1.
Proof. destruct l as [| []]; simpl; lra. Qed.

Lemma IZR_xO (p : positive) : IZR (Z.pos p~0) = 2 * IZR (Z.pos p).
Proof. rewrite Pos2Z.inj_xO, mult_IZR. reflexivity. Qed.

Lemma IZR_xI (p : positive) : IZR (Z.pos p~1) = 2 * IZR (Z.pos p) + 1.
Proof. rewrite Pos2Z.inj_xI, plus_IZR, mult_IZR. reflexivity. Qed.

Lemma shr_1_located (mrs : shr_record) (x : R) :
  (0 <= shr_m mrs)%Z ->
  located (shr_m mrs) (loc_of_shr_record mrs) x ->
  (0 <= shr_m (shr_1 mrs))%Z
  /\ located (shr_m (shr_1 mrs)) (loc_of_shr_record (shr_1 mrs)) (x * / 2).
Proof.
  destruct mrs as [m r s]. simpl shr_m at 1 2. intros Hm H.
  destruct m as [| p | p]; [| | lia].
  - destruct r, s; simpl in *; split; try lia; lra.
  - destruct p as [p | p |]; destruct r, s; simpl shr_1; simpl shr_m; simpl loc_of_shr_record;
      simpl in H; try rewrite IZR_xI in H; try rewrite IZR_xO in H;
      (split; [lia |]); simpl; lra.
Qed.

Lemma shr_iter_located (p : positive) :
  forall (mrs : shr_record) (x : R),
    (0 <= shr_m mrs)%Z ->
    located (shr_m mrs) (loc_of_shr_record mrs) x ->
    (0 <= shr_m (iter_pos shr_1 p mrs))%Z
    /\ located (shr_m (iter_pos shr_1 p mrs)) (loc_of_shr_record (iter_pos shr_1 p mrs))
               (x * bpow (- Z.pos p)).
Proof.
  induction p as [p IH | p IH |]; intros mrs x Hm H; simpl iter_pos.
  - destruct (shr_1_located mrs x Hm H) as [Hm1 H1].
    destruct (IH _ _ Hm1 H1) as [Hm2 H2]. destruct (IH _ _ Hm2 H2) as [Hm3 H3].
    split; [exact Hm3 |].
    replace (x * bpow (- Z.pos p~1)) with (x * / 2 * bpow (- Z.pos p) * bpow (- Z.pos p));
      [exact H3 |].
    rewrite Pos2Z.inj_xI. replace (- (2 * Z.pos p + 1))%Z with (-1 + (- Z.pos p + - Z.pos p))%Z by ring.
    rewrite !bpow_add, bpow_m1. ring.
  - destruct (IH _ _ Hm H) as [Hm2 H2]. destruct (IH _ _ Hm2 H2) as [Hm3 H3].
    split; [exact Hm3 |].
    replace (x * bpow (- Z.pos p~0)) with (x * bpow (- Z.pos p) * bpow (- Z.pos p));
      [exact H3 |].
    rewrite Pos2Z.inj_xO. replace (- (2 * Z.pos p))%Z with (- Z.pos p + - Z.pos p)%Z by ring.
    rewrite !bpow_add. ring.
  - destruct (shr_1_located mrs x Hm H) as [Hm1 H1]. split; [exact Hm1 |].
    simpl Z.opp. rewrite bpow_m1. exact H1.
Qed.

Lemma loc_of_shr_record_of_loc (m : Z) (l : location) :
  loc_of_shr_record (shr_record_of_loc m l) = l /\ shr_m (shr_record_of_loc m l) = m.
Proof. destruct l as [| []]; split; reflexivity. Qed.

(** One step of [binary_round_aux]: the mantissa is cut to the exponent of
    the format. *)
Lemma shr_fexp_located (m e : Z) (l : location) (x : R) :
  (0 <= m)%Z ->
  located m l (x * bpow (- e)) ->
  exists mrs' e',
    shr_fexp prec emax m e l = (mrs', e')
    /\ e' = Z.max e (fexp prec emax (Zdigits2 m + e))
    /\ (0 <= shr_m mrs')%Z
    /\ located (shr_m mrs') (loc_of_shr_record mrs') (x * bpow (- e')).
Proof.
  intros Hm H. unfold shr_fexp, shr.
  destruct (loc_of_shr_record_of_loc m l) as [Hl Hs].
  destruct (fexp prec emax (Zdigits2 m + e) - e)%Z as [| p | p] eqn:E.
  - eexists _, _. split; [reflexivity |]. rewrite Hl, Hs.
    split; [lia |]. split; [exact Hm | exact H].
  - eexists _, _. split; [reflexivity |]. split; [lia |].
    destruct (shr_iter_located p (shr_record_of_loc m l) (x * bpow (- e))) as [H1 H2];
      [rewrite Hs; exact Hm | rewrite Hl, Hs; exact H |].
    split; [exact H1 |].
    replace (x * bpow (- (e + Z.pos p))) with (x * bpow (- e) * bpow (- Z.pos p)); [exact H2 |].
    replace (- (e + Z.pos p))%Z with (- e + - Z.pos p)%Z by ring. rewrite bpow_add. ring.
  - eexists _, _. split; [reflexivity |]. rewrite Hl, Hs.
    split; [lia |]. split; [exact Hm | exact H].
Qed.

Lemma round_nearest_even_nearest (m : Z) (l : location) (x : R) :
  located m l x ->
  (m <= round_nearest_even m l <= m + 1)%Z
  /\ nearest (round_nearest_even m l) x.
Proof.
  intros H.
  assert (Hk : forall k : Z, IZR k <= IZR m \/ IZR m + 1 <= IZR k).
  { intros k. destruct (Z_le_gt_dec k m) as [Hle | Hgt].
    - left. apply IZR_le. exact Hle.
    - right. rewrite <- plus_IZR. apply IZR_le. lia. }
  destruct l as [| []]; simpl in *.
  - split; [lia |]. intros k. subst x. rewrite Rminus_diag, Rabs_R0. apply Rabs_pos.
  - destruct (Z.even m); (split; [lia |]); intros k; destruct (Hk k);
      try rewrite plus_IZR; unfold Rabs; repeat destruct Rcase_abs; lra.
  - split; [lia |]. intros k. destruct (Hk k);
      unfold Rabs; repeat destruct Rcase_abs; lra.
  - split; [lia |]. intros k. destruct (Hk k);
      rewrite plus_IZR; unfold Rabs; repeat destruct Rcase_abs; lra.
Qed.

Lemma IZR_lt_bpow (m k : Z) : (0 <= k)%Z -> IZR m < bpow k -> (m < 2 ^ k)%Z.
Proof. intros Hk H. rewrite bpow_IZR in H by exact Hk. apply lt_IZR. exact H. Qed.

Lemma bpow_le_IZR (m k : Z) : (0 <= k)%Z -> bpow k <= IZR m -> (2 ^ k <= m)%Z.
Proof. intros Hk H. rewrite bpow_IZR in H by exact Hk. apply le_IZR. exact H. Qed.

(** The second step of [binary_round_aux]: a mantissa of 54 bits, which
    is [2^53], loses its last bit. *)
Lemma renormalize (m1 e1 : Z) :
  (0 <= m1 <= 2 ^ 53)%Z ->
  (-1074 <= e1)%Z ->
  exists m2 e2 r s,
    shr_fexp prec emax m1 e1 loc_Exact = (Build_shr_record m2 r s, e2)
    /\ IZR m2 * bpow e2 = IZR m1 * bpow e1
    /\ (0 <= m2 < 2 ^ 53)%Z
    /\ (e1 <= e2 <= e1 + 1)%Z
    /\ (m1 = 0%Z -> m2 = 0%Z)
    /\ (0 < m1 -> 0 < m2)%Z
    /\ ((2 ^ 52 <= m1)%Z \/ e1 = (-1074)%Z -> (0 < m1)%Z ->
        fexp prec emax (Zdigits2 m2 + e2) = e2).
Proof.
  intros Hm He.
  destruct (Z.eq_dec m1 (2 ^ 53)) as [-> | Hne].
  - exists (2 ^ 52)%Z, (e1 + 1)%Z, false, false.
    unfold shr_fexp, shr. rewrite fexp_eq.
    change (Zdigits2 (2 ^ 53)) with 54%Z.
    replace (Z.max (54 + e1 - 53) (-1074) - e1)%Z with 1%Z by lia.
    split; [reflexivity |].
    split. { rewrite bpow_succ. change (2 ^ 53)%Z with (2 * 2 ^ 52)%Z.
             rewrite (mult_IZR 2). ring. }
    split; [lia |]. split; [lia |]. split; [lia |]. split; [lia |].
    intros _ _. rewrite fexp_eq. change (Zdigits2 (2 ^ 52)) with 53%Z. lia.
  - exists m1, e1, false, false.
    assert (Hd : (m1 = 0 \/ (0 < m1 /\ Zdigits2 m1 <= 53))%Z).
    { destruct (Z.eq_dec m1 0) as [-> | H0]; [left; reflexivity | right].
      split; [lia |]. apply Zdigits2_le; lia. }
    unfold shr_fexp, shr. rewrite fexp_eq.
    assert (Hn : (Z.max (Zdigits2 m1 + e1 - 53) (-1074) - e1 <= 0)%Z).
    { destruct Hd as [-> | [_ Hd]]; simpl Zdigits2; lia. }
    split.
    { destruct (Z.max (Zdigits2 m1 + e1 - 53) (-1074) - e1)%Z; [reflexivity | lia | reflexivity]. }
    split; [reflexivity |]. split; [lia |]. split; [lia |]. split; [lia |]. split; [lia |].
    intros Hc Hp. destruct Hd as [-> | [_ Hd]]; [lia |].
    destruct Hc as [Hc | Hc]; [| lia].
    pose proof (Zdigits2_ge m1 52 ltac:(lia) Hc). lia.
Qed.

Lemma nearest_opp (m : Z) (x : R) : nearest m x -> nearest (- m) (- x).
Proof.
  intros H k. specialize (H (- k)%Z). rewrite !opp_IZR in *.
  replace (- IZR m - - x) with (- (IZR m - x)) by ring.
  replace (IZR k - - x) with (- (- IZR k - x)) by ring.
  rewrite !Rabs_Ropp. exact H.
Qed.

Lemma Rabs_eq_0 (x : R) : Rabs x = 0 -> x = 0.
Proof. unfold Rabs. destruct (Rcase_abs x); lra. Qed.

Lemma nearest_exact (m k : Z) (x : R) : nearest m x -> x = IZR k -> m = k.
Proof.
  intros H ->. specialize (H k). rewrite Rminus_diag, Rabs_R0 in H.
  pose proof (Rabs_pos (IZR m - IZR k)).
  assert (E : IZR m - IZR k = 0) by (apply Rabs_eq_0; lra).
  apply eq_IZR. lra.
Qed.

Lemma nearest_half (m : Z) (x : R) : nearest m x -> Rabs (IZR m - x) <= / 2.
Proof.
  intros H.
  destruct (euclidian_division x 1 ltac:(lra)) as [k [r [Hx Hr]]].
  rewrite Rabs_R1 in Hr.
  destruct (Rle_dec r (/ 2)) as [Hle | Hgt].
  - eapply Rle_trans; [apply (H k) |]. unfold Rabs. destruct Rcase_abs; lra.
  - eapply Rle_trans; [apply (H (k + 1)%Z) |]. rewrite plus_IZR.
    unfold Rabs. destruct Rcase_abs; lra.
Qed.

Lemma nearest_nonneg (m : Z) (x : R) : nearest m x -> 0 <= x -> (0 <= m)%Z.
Proof.
  intros H Hx. specialize (H 0%Z).
  destruct (Z_lt_le_dec m 0) as [Hlt | Hle]; [| exact Hle].
  apply IZR_lt in Hlt. unfold Rabs in H. repeat destruct Rcase_abs; lra.
Qed.

(** Monotony: the nearest integer does not pass an integer. *)
Lemma nearest_le (m k : Z) (x : R) : nearest m x -> x <= IZR k -> (m <= k)%Z.
Proof.
  intros H Hx. specialize (H k).
  destruct (Z_le_gt_dec m k) as [Hle | Hgt]; [exact Hle |].
  assert (IZR k + 1 <= IZR m) by (rewrite <- plus_IZR; apply IZR_le; lia).
  unfold Rabs in H. repeat destruct Rcase_abs; lra.
Qed.

Lemma nearest_ge (m k : Z) (x : R) : nearest m x -> IZR k <= x -> (k <= m)%Z.
Proof.
  intros H Hx. specialize (H k).
  destruct (Z_le_gt_dec k m) as [Hle | Hgt]; [exact Hle |].
  assert (IZR m + 1 <= IZR k) by (rewrite <- plus_IZR; apply IZR_le; lia).
  unfold Rabs in H. repeat destruct Rcase_abs; lra.
Qed.

(** [binary_round_aux] rounds to nearest. *)
Lemma binary_round_aux_correct (sx : bool) (mx ex : Z) (lx : location) (x : R) :
  (0 <= mx)%Z ->
  located mx lx (x * bpow (- ex)) ->
  (ex <= fexp prec emax (Zdigits2 mx + ex))%Z ->
  exists (m1 e1 : Z),
    e1 = fexp prec emax (Zdigits2 mx + ex)
    /\ (0 <= m1)%Z
    /\ nearest m1 (x * bpow (- e1))
    /\ (e1 = (-1074)%Z \/ bpow (e1 + 52) <= x)
    /\ x < bpow (e1 + 53)
    /\ ((e1 <= 970)%Z ->
        valid_binary (binary_round_aux prec emax sx mx ex lx) = true
        /\ SF_finite (binary_round_aux prec emax sx mx ex lx) = true
        /\ SF2R (binary_round_aux prec emax sx mx ex lx) = IZR (cond_Zopp sx m1) * bpow e1).
Proof.
  intros Hm Hloc Hex.
  set (d := Zdigits2 mx) in *.
  set (e1 := fexp prec emax (d + ex)) in *.
  assert (Hd : (0 <= d)%Z) by apply Zdigits2_nonneg.
  assert (He1 : (e1 = Z.max (d + ex - 53) (-1074))%Z) by (unfold e1; apply fexp_eq).
  destruct (shr_fexp_located mx ex lx x Hm Hloc) as [mrs' [e' [E1 [Ee' [Hm' Hloc']]]]].
  fold d e1 in Ee'. assert (He' : e' = e1) by lia. clear Ee'. subst e'.
  set (x' := x * bpow (- e1)) in *.
  destruct (round_nearest_even_nearest _ _ _ Hloc') as [Hm1 Hnear].
  set (m1 := round_nearest_even (shr_m mrs') (loc_of_shr_record mrs')) in *.
  pose proof (located_bounds _ _ _ Hloc) as Hb.
  pose proof (located_bounds _ _ _ Hloc') as Hb'.
  (* the bounds of x *)
  assert (Hxd : x * bpow (- ex) < bpow d).
  { destruct (Z.eq_dec mx 0) as [E0 | N0].
    - subst mx. change d with 0%Z. rewrite bpow_0. simpl in Hb. lra.
    - pose proof (Zdigits2_bounds mx ltac:(lia)) as [_ Hu]. fold d in Hu.
      rewrite (bpow_IZR d) by exact Hd.
      assert (IZR mx + 1 <= IZR (2 ^ d)) by (rewrite <- plus_IZR; apply IZR_le; lia). lra. }
  assert (Hx : x = x * bpow (- ex) * bpow ex).
  { rewrite Rmult_assoc, bpow_inv_l. ring. }
  assert (Hx' : x' = x * bpow (- ex) * bpow (ex - e1)).
  { unfold x'. unfold Z.sub. rewrite bpow_add. rewrite Rmult_assoc, <- (Rmult_assoc (bpow (- ex))).
    rewrite bpow_inv_l. ring. }
  assert (Hxup : x < bpow (e1 + 53)).
  { rewrite Hx. apply Rlt_le_trans with (bpow d * bpow ex).
    - apply Rmult_lt_compat_r; [apply bpow_pos | exact Hxd].
    - rewrite <- bpow_add. apply bpow_le. lia. }
  assert (Hx'up : x' < bpow 53).
  { unfold x'. apply Rlt_le_trans with (bpow (e1 + 53) * bpow (- e1)).
    - apply Rmult_lt_compat_r; [apply bpow_pos | exact Hxup].
    - rewrite <- bpow_add. apply bpow_le. lia. }
  assert (Hnorm : e1 = (-1074)%Z \/ (bpow (e1 + 52) <= x /\ bpow 52 <= x')).
  { destruct (Z.eq_dec e1 (-1074)) as [E | N]; [left; exact E | right].
    assert (E : (e1 = d + ex - 53)%Z) by lia.
    assert (N0 : mx <> 0%Z).
    { intros ->. change d with 0%Z in *. lia. }
    pose proof (Zdigits2_bounds mx ltac:(lia)) as [Hl _]. fold d in Hl.
    assert (Hd1 : (1 <= d)%Z).
    { destruct mx; try lia; unfold d; simpl; lia. }
    assert (Hmx : bpow (d - 1) <= x * bpow (- ex)).
    { rewrite (bpow_IZR (d - 1)) by lia. apply Rle_trans with (IZR mx); [apply IZR_le; exact Hl | lra]. }
    split.
    - rewrite Hx. replace (e1 + 52)%Z with ((d - 1) + ex)%Z by lia. rewrite bpow_add.
      apply Rmult_le_compat_r; [left; apply bpow_pos | exact Hmx].
    - rewrite Hx'. replace 52%Z with ((d - 1) + (ex - e1))%Z by lia. rewrite bpow_add.
      apply Rmult_le_compat_r; [left; apply bpow_pos | exact Hmx]. }
  assert (Hm'up : (shr_m mrs' < 2 ^ 53)%Z).
  { apply IZR_lt_bpow; [lia | lra]. }
  assert (Hm1up : (0 <= m1 <= 2 ^ 53)%Z) by lia.
  exists m1, e1. split; [reflexivity |]. split; [lia |]. split; [exact Hnear |].
  split; [destruct Hnorm as [E | [H1 _]]; [left; exact E | right; exact H1] |].
  split; [exact Hxup |].
  intros Hfin.
  destruct (renormalize m1 e1 Hm1up ltac:(lia))
    as [m2 [e2 [r [s [E2 [Hval [Hm2 [He2 [Hz [Hp Hcan]]]]]]]]]].
  unfold binary_round_aux. rewrite E1. fold m1. rewrite E2. simpl shr_m.
  destruct m2 as [| p | p]; [| | lia].
  - assert (m1 = 0%Z) by lia.
    repeat split. rewrite H. destruct sx; simpl; ring.
  - assert (Hle : (e2 <=? emax - prec)%Z = true)
      by (apply Z.leb_le; change (emax - prec)%Z with 971%Z; lia).
    rewrite Hle.
    assert (Hm1p : (0 < m1)%Z) by (destruct (Z.eq_dec m1 0); [specialize (Hz e); lia | lia]).
    split; [| split; [reflexivity |]].
    + unfold valid_binary, bounded, canonical_mantissa. rewrite Hle, andb_true_r.
      apply Z.eqb_eq. apply (Hcan); [| exact Hm1p].
      destruct Hnorm as [E | [_ H52]]; [right; exact E | left].
      assert (H52' : (2 ^ 52 <= shr_m mrs')%Z).
      { assert (bpow 52 < IZR (shr_m mrs') + 1) by lra.
        rewrite (bpow_IZR 52), <- plus_IZR in H by lia. apply lt_IZR in H. lia. }
      lia.
    + unfold SF2R. destruct sx; unfold cond_Zopp; rewrite ?opp_IZR; lra.
Qed.

Lemma Rabs_le_iff (x y : R) : Rabs x <= y <-> - y <= x <= y.
Proof. unfold Rabs. destruct (Rcase_abs x); split; intros; lra. Qed.

Lemma scale_abs (a x : R) (e : Z) :
  Rabs (a * bpow e - x) = Rabs (a - x * bpow (- e)) * bpow e.
Proof.
  replace (a * bpow e - x) with ((a - x * bpow (- e)) * bpow e).
  - rewrite Rabs_mult, (Rabs_pos_eq (bpow e)); [reflexivity | left; apply bpow_pos].
  - rewrite Rmult_minus_distr_r, Rmult_assoc, bpow_inv_l. ring.
Qed.

(** What a valid double is made of. *)
Lemma valid_finite (s : bool) (m : positive) (e : Z) :
  valid_binary (S754_finite s m e) = true ->
  (-1074 <= e <= 971)%Z
  /\ (Z.pos m < 2 ^ 53)%Z
  /\ (e = (-1074)%Z \/ (2 ^ 52 <= Z.pos m)%Z).
Proof.
  unfold valid_binary, bounded, canonical_mantissa. intros H.
  apply andb_true_iff in H. destruct H as [H1 H2].
  apply Z.eqb_eq in H1. apply Z.leb_le in H2. change (emax - prec)%Z with 971%Z in H2.
  rewrite fexp_eq in H1.
  pose proof (digits_bounds m) as [Hl Hu].
  split; [lia |]. split.
  - assert (Hd : (Z.pos (digits2_pos m) <= 53)%Z) by lia.
    assert (2 ^ Z.pos (digits2_pos m) <= 2 ^ 53)%Z by (apply Z.pow_le_mono_r; lia). lia.
  - destruct (Z.eq_dec e (-1074)) as [E | N]; [left; exact E | right].
    assert (Hd : Z.pos (digits2_pos m) = 53%Z) by lia. rewrite Hd in Hl. exact Hl.
Qed.

Lemma abs_cond_Zopp (s : bool) (m : positive) : Rabs (IZR (cond_Zopp s (Z.pos m))) = IZR (Z.pos m).
Proof.
  assert (0 < IZR (Z.pos m)) by (apply IZR_lt; lia).
  destruct s; simpl cond_Zopp.
  - change (Z.neg m) with (- Z.pos m)%Z. rewrite opp_IZR, Rabs_Ropp. apply Rabs_pos_eq. lra.
  - apply Rabs_pos_eq. lra.
Qed.

Lemma SF2R_abs_bounds (s : bool) (m : positive) (e : Z) :
  valid_binary (S754_finite s m e) = true ->
  Rabs (SF2R (S754_finite s m e)) < bpow (e + 53)
  /\ (e = (-1074)%Z \/ bpow (e + 52) <= Rabs (SF2R (S754_finite s m e))).
Proof.
  intros Hv. destruct (valid_finite s m e Hv) as [He [Hu Hl]].
  unfold SF2R. rewrite Rabs_mult, abs_cond_Zopp, (Rabs_pos_eq (bpow e)) by (left; apply bpow_pos).
  pose proof (bpow_pos e). split.
  - rewrite Z.add_comm, bpow_add, (bpow_IZR 53) by lia.
    apply Rmult_lt_compat_r; [assumption | apply IZR_lt; exact Hu].
  - destruct Hl as [Hl | Hl]; [left; exact Hl | right].
    rewrite Z.add_comm, bpow_add, (bpow_IZR 52) by lia.
    apply Rmult_le_compat_r; [lra | apply IZR_le; exact Hl].
Qed.

(** A double is nearest to its own value. *)
Lemma rounding_exact (f : spec_float) :
  valid_binary f = true -> SF_finite f = true -> rounding (SF2R f) f.
Proof.
  intros Hv Hf. split; [exact Hv |]. split; [exact Hf |].
  destruct f as [s | s | | s m e]; try discriminate Hf.
  - exists 0%Z, (-1074)%Z. simpl. rewrite Rabs_R0.
    split; [lia |]. split; [ring |]. split.
    + intros k. rewrite Rmult_0_l, Rminus_diag, Rabs_R0. apply Rabs_pos.
    + split; [left; reflexivity | apply bpow_pos].
  - destruct (valid_finite s m e Hv) as [He _].
    destruct (SF2R_abs_bounds s m e Hv) as [Hu Hl].
    exists (cond_Zopp s (Z.pos m)), e.
    split; [exact He |]. split; [reflexivity |]. split.
    + intros k. unfold SF2R. rewrite Rmult_assoc, bpow_inv_r, Rmult_1_r, Rminus_diag, Rabs_R0.
      apply Rabs_pos.
    + split; assumption.
Qed.

Section Rounding.

Variable x : R.
Variable f : spec_float.
Hypothesis Hr : rounding x f.

(** Half a unit in the last place, at most. *)
Lemma rounding_error :
  Rabs (SF2R f - x) <= Rabs x * bpow (-53) + bpow (-1075).
Proof.
  destruct Hr as [_ [_ [m1 [e1 [He [Hv [Hn [Hl Hu]]]]]]]].
  rewrite Hv, scale_abs.
  pose proof (nearest_half _ _ Hn) as Hh.
  pose proof (bpow_pos e1). pose proof (bpow_pos (-1075)). pose proof (Rabs_pos x).
  pose proof (bpow_pos (-53)).
  assert (Hhalf : Rabs (IZR m1 - x * bpow (- e1)) * bpow e1 <= bpow (e1 - 1)).
  { rewrite bpow_pred. nra. }
  destruct Hl as [-> | Hl].
  - change (-1074 - 1)%Z with (-1075)%Z in Hhalf. nra.
  - apply Rle_trans with (bpow (e1 - 1)); [exact Hhalf |].
    replace (e1 - 1)%Z with ((e1 + 52) + -53)%Z by ring. rewrite bpow_add. nra.
Qed.

(** No double is nearer to [x]. *)
Lemma rounding_nearest (g : spec_float) :
  valid_binary g = true -> SF_finite g = true ->
  Rabs (SF2R f - x) <= Rabs (SF2R g - x).
Proof.
  intros Hgv Hgf.
  destruct Hr as [_ [_ [m1 [e1 [He [Hv [Hn [Hl Hu]]]]]]]].
  rewrite Hv, scale_abs.
  assert (Hint : forall k : Z, Rabs (IZR m1 - x * bpow (- e1)) * bpow e1
                               <= Rabs (IZR k * bpow e1 - x)).
  { intros k. rewrite scale_abs. apply Rmult_le_compat_r; [left; apply bpow_pos | apply Hn]. }
  destruct g as [s | s | | s m e]; try discriminate Hgf.
  - specialize (Hint 0%Z). rewrite Rmult_0_l in Hint. exact Hint.
  - destruct (valid_finite s m e Hgv) as [Hge _].
    destruct (SF2R_abs_bounds s m e Hgv) as [Hgu _].
    destruct (Z_le_gt_dec e1 e) as [Hle | Hgt].
    + (* the value of g is a multiple of 2^e1 *)
      specialize (Hint (cond_Zopp s (Z.pos m) * 2 ^ (e - e1))%Z).
      rewrite mult_IZR, <- bpow_IZR, Rmult_assoc, <- bpow_add in Hint by lia.
      replace (e - e1 + e1)%Z with e in Hint by ring. exact Hint.
    + (* g is below the doubles around x *)
      destruct Hl as [Hl | Hl]; [lia |].
      assert (Hg : Rabs (SF2R (S754_finite s m e)) < bpow (e1 + 52)).
      { apply Rlt_le_trans with (bpow (e + 53)); [exact Hgu | apply bpow_le; lia]. }
      set (G := SF2R (S754_finite s m e)) in *.
      destruct (Rle_dec 0 x) as [Hx | Hx].
      * rewrite (Rabs_pos_eq x Hx) in Hl.
        specialize (Hint (2 ^ 52)%Z). rewrite <- bpow_IZR, <- bpow_add in Hint by lia.
        replace (52 + e1)%Z with (e1 + 52)%Z in Hint by ring.
        apply Rle_trans with (1 := Hint).
        unfold Rabs in *. repeat destruct Rcase_abs; lra.
      * assert (Hx' : x < 0) by lra. rewrite (Rabs_left x Hx') in Hl.
        specialize (Hint (- 2 ^ 52)%Z). rewrite opp_IZR, <- bpow_IZR in Hint by lia.
        replace (- bpow 52 * bpow e1) with (- bpow (e1 + 52)) in Hint
          by (rewrite Z.add_comm, bpow_add; ring).
        apply Rle_trans with (1 := Hint).
        unfold Rabs in *. repeat destruct Rcase_abs; lra.
Qed.

(** Rounding does not pass a double. *)
Lemma rounding_le (g : spec_float) :
  valid_binary g = true -> SF_finite g = true -> x <= SF2R g -> SF2R f <= SF2R g.
Proof.
  intros Hgv Hgf Hx. pose proof (rounding_nearest g Hgv Hgf) as H.
  unfold Rabs in H. repeat destruct Rcase_abs; lra.
Qed.

Lemma rounding_ge (g : spec_float) :
  valid_binary g = true -> SF_finite g = true -> SF2R g <= x -> SF2R g <= SF2R f.
Proof.
  intros Hgv Hgf Hx. pose proof (rounding_nearest g Hgv Hgf) as H.
  unfold Rabs in H. repeat destruct Rcase_abs; lra.
Qed.

Lemma rounding_nonneg : 0 <= x -> 0 <= SF2R f.
Proof. intros Hx. apply (rounding_ge (S754_zero false)); [reflexivity | reflexivity | exact Hx]. Qed.

Lemma rounding_nonpos : x <= 0 -> SF2R f <= 0.
Proof. intros Hx. apply (rounding_le (S754_zero false)); [reflexivity | reflexivity | exact Hx]. Qed.

End Rounding.

(** A real that is the value of a double is rounded to itself. *)
Lemma rounding_of_value (g f : spec_float) :
  valid_binary g = true -> SF_finite g = true -> rounding (SF2R g) f -> SF2R f = SF2R g.
Proof.
  intros Hgv Hgf H. pose proof (rounding_nearest _ _ H g Hgv Hgf) as Hn.
  rewrite Rminus_diag, Rabs_R0 in Hn.
  pose proof (Rabs_pos (SF2R f - SF2R g)).
  assert (SF2R f - SF2R g = 0) by (apply Rabs_eq_0; lra). lra.
Qed.

(** The relative error, when [x] is not below the normal doubles. *)
Lemma rounding_relative (x : R) (f : spec_float) :
  rounding x f -> bpow (-1022) <= Rabs x ->
  Rabs (SF2R f - x) <= Rabs x * bpow (-53).
Proof.
  intros [_ [_ [m1 [e1 [He [Hv [Hn [Hl Hu]]]]]]]] Hx.
  rewrite Hv, scale_abs.
  pose proof (nearest_half _ _ Hn) as Hh.
  pose proof (bpow_pos e1). pose proof (bpow_pos (-53)).
  assert (Hhalf : Rabs (IZR m1 - x * bpow (- e1)) * bpow e1 <= bpow (e1 - 1)).
  { rewrite bpow_pred. nra. }
  assert (Hl' : bpow (e1 + 52) <= Rabs x).
  { destruct Hl as [-> | Hl]; [exact Hx | exact Hl]. }
  apply Rle_trans with (bpow (e1 - 1)); [exact Hhalf |].
  replace (e1 - 1)%Z with ((e1 + 52) + -53)%Z by ring. rewrite bpow_add. nra.
Qed.

Lemma rounding_zero (s : bool) : rounding 0 (S754_zero s).
Proof. exact (rounding_exact (S754_zero s) eq_refl eq_refl). Qed.

Lemma rounding_ext (x y : R) (f : spec_float) : x = y -> rounding x f -> rounding y f.
Proof. intros ->. exact (fun H => H). Qed.

(** [binary_round_aux] with the sign. *)
Lemma round_aux_rounding (sx : bool) (mx ex : Z) (lx : location) (xa : R) :
  (0 <= mx)%Z ->
  located mx lx (xa * bpow (- ex)) ->
  (ex <= fexp prec emax (Zdigits2 mx + ex))%Z ->
  xa < bpow 1023 ->
  rounding (if sx then - xa else xa) (binary_round_aux prec emax sx mx ex lx).
Proof.
  intros Hm Hloc Hex Hup.
  assert (Hxa : 0 <= xa).
  { pose proof (located_bounds _ _ _ Hloc) as [Hb _].
    assert (0 <= IZR mx) by (apply IZR_le; exact Hm).
    pose proof (bpow_pos (- ex)). pose proof (bpow_pos ex).
    replace xa with (xa * bpow (- ex) * bpow ex)
      by (rewrite Rmult_assoc, bpow_inv_l; ring). nra. }
  destruct (binary_round_aux_correct sx mx ex lx xa Hm Hloc Hex)
    as [m1 [e1 [Ee [Hm1 [Hn [Hl [Hu Hres]]]]]]].
  assert (He : (-1074 <= e1 <= 970)%Z).
  { rewrite fexp_eq in Ee. split; [lia |].
    destruct Hl as [Hl | Hl]; [lia |].
    assert (bpow (e1 + 52) < bpow 1023) by lra. apply bpow_lt_inv in H. lia. }
  destruct (Hres ltac:(lia)) as [Hv [Hf Hval]].
  split; [exact Hv |]. split; [exact Hf |].
  exists (cond_Zopp sx m1), e1.
  assert (Habs : Rabs (if sx then - xa else xa) = xa).
  { destruct sx; [rewrite Rabs_Ropp |]; apply Rabs_pos_eq; exact Hxa. }
  rewrite Habs.
  split; [lia |]. split; [exact Hval |]. split; [| split; assumption].
  destruct sx; simpl cond_Zopp; [| exact Hn].
  replace (- xa * bpow (- e1)) with (- (xa * bpow (- e1))) by ring.
  apply nearest_opp. exact Hn.
Qed.

(** Shifting a mantissa to the left. *)
Lemma iter_xO (d mx : positive) : Z.pos (Pos.iter xO mx d) = (Z.pos mx * 2 ^ Z.pos d)%Z.
Proof.
  induction d as [| d IH] using Pos.peano_ind.
  - simpl. lia.
  - rewrite Pos.iter_succ, Pos2Z.inj_xO, IH, Pos2Z.inj_succ, Z.pow_succ_r by lia. ring.
Qed.

Lemma Zdigits2_unique (m d : Z) :
  (0 < m)%Z -> (2 ^ (d - 1) <= m < 2 ^ d)%Z -> (1 <= d)%Z -> Zdigits2 m = d.
Proof.
  intros Hm [Hl Hu] Hd.
  pose proof (Zdigits2_le m d Hm ltac:(lia) Hu).
  pose proof (Zdigits2_ge m (d - 1) ltac:(lia) Hl). lia.
Qed.

Lemma Zdigits2_shift (m k : Z) :
  (0 < m)%Z -> (0 <= k)%Z -> Zdigits2 (m * 2 ^ k) = (Zdigits2 m + k)%Z.
Proof.
  intros Hm Hk. pose proof (Zdigits2_bounds m Hm) as [Hl Hu].
  assert (Hd : (1 <= Zdigits2 m)%Z) by (destruct m; simpl; lia).
  pose proof (Z.pow_pos_nonneg 2 k ltac:(lia) Hk) as Hp.
  apply Zdigits2_unique; [nia | | lia].
  replace (Zdigits2 m + k - 1)%Z with ((Zdigits2 m - 1) + k)%Z by ring.
  rewrite !Z.pow_add_r by lia. nia.
Qed.

Lemma shl_align_correct (mx : positive) (ex e' : Z) :
  exists mz ez,
    shl_align mx ex e' = (mz, ez)
    /\ ez = Z.min ex e'
    /\ Z.pos mz = (Z.pos mx * 2 ^ (ex - ez))%Z
    /\ (Zdigits2 (Z.pos mz) + ez = Zdigits2 (Z.pos mx) + ex)%Z.
Proof.
  unfold shl_align. destruct (e' - ex)%Z as [| d | d] eqn:E.
  - exists mx, ex. split; [reflexivity |]. split; [lia |].
    replace (ex - ex)%Z with 0%Z by ring. split; lia.
  - exists mx, ex. split; [reflexivity |]. split; [lia |].
    replace (ex - ex)%Z with 0%Z by ring. split; lia.
  - exists (Pos.iter xO mx d), e'. split; [reflexivity |]. split; [lia |].
    assert (Hd : (ex - e' = Z.pos d)%Z) by lia.
    rewrite Hd, iter_xO. split; [reflexivity |].
    rewrite Zdigits2_shift by lia. lia.
Qed.

(** [binary_round] rounds [mx * 2^ex] to nearest. *)
Lemma binary_round_rounding (sx : bool) (mx : positive) (ex : Z) :
  IZR (Z.pos mx) * bpow ex < bpow 1023 ->
  rounding (IZR (cond_Zopp sx (Z.pos mx)) * bpow ex) (binary_round prec emax sx mx ex).
Proof.
  intros Hup. unfold binary_round.
  destruct (shl_align_correct mx ex (fexp prec emax (Z.pos (digits2_pos mx) + ex)))
    as [mz [ez [E [Hez [Hmz Hd]]]]].
  rewrite E.
  assert (Hx : IZR (Z.pos mx) * bpow ex * bpow (- ez) = IZR (Z.pos mz)).
  { rewrite Hmz, mult_IZR, <- bpow_IZR by lia.
    unfold Z.sub. rewrite bpow_add. ring. }
  eapply rounding_ext; [| apply (round_aux_rounding sx (Z.pos mz) ez loc_Exact
                                   (IZR (Z.pos mx) * bpow ex))].
  - destruct sx; simpl cond_Zopp; [| reflexivity].
    change (Z.neg mx) with (- Z.pos mx)%Z. rewrite opp_IZR. ring.
  - lia.
  - simpl. exact Hx.
  - rewrite Hd. change (Zdigits2 (Z.pos mx)) with (Z.pos (digits2_pos mx)). lia.
  - exact Hup.
Qed.

Lemma binary_normalize_rounding (m e : Z) (szero : bool) :
  Rabs (IZR m * bpow e) < bpow 1023 ->
  rounding (IZR m * bpow e) (binary_normalize prec emax m e szero).
Proof.
  intros Hup. destruct m as [| p | p]; simpl binary_normalize.
  - rewrite Rmult_0_l. apply rounding_zero.
  - apply (binary_round_rounding false p e).
    rewrite Rabs_pos_eq in Hup; [exact Hup |].
    apply Rmult_le_pos; [apply IZR_le; lia | left; apply bpow_pos].
  - apply (binary_round_rounding true p e).
    change (Z.neg p) with (- Z.pos p)%Z in Hup.
    rewrite opp_IZR, Ropp_mult_distr_l_reverse, Rabs_Ropp, Rabs_pos_eq in Hup; [exact Hup |].
    apply Rmult_le_pos; [apply IZR_le; lia | left; apply bpow_pos].
Qed.

(** The value of an aligned mantissa. *)
Lemma aligned_value (s : bool) (m : positive) (e ez : Z) :
  (ez <= e)%Z ->
  IZR (cond_Zopp s (Z.pos (fst (shl_align m e ez)))) * bpow ez
  = SF2R (S754_finite s m e).
Proof.
  intros Hle. destruct (shl_align_correct m e ez) as [mz [ez' [E [Hez [Hmz _]]]]].
  rewrite E. simpl fst. assert (He' : ez' = ez) by lia. clear Hez. subst ez'.
  unfold SF2R.
  assert (H : IZR (Z.pos mz) * bpow ez = IZR (Z.pos m) * bpow e).
  { rewrite Hmz, mult_IZR, <- bpow_IZR, Rmult_assoc, <- bpow_add by lia.
    replace (e - ez + ez)%Z with e by ring. reflexivity. }
  destruct s; simpl cond_Zopp; [| exact H].
  change (Z.neg mz) with (- Z.pos mz)%Z. change (Z.neg m) with (- Z.pos m)%Z.
  rewrite !opp_IZR. lra.
Qed.

Lemma valid_opp (s : bool) (m : positive) (e : Z) :
  valid_binary (S754_finite s m e) = true -> valid_binary (S754_finite (negb s) m e) = true.
Proof. exact (fun H => H). Qed.

Lemma SF2R_opp (s : bool) (m : positive) (e : Z) :
  SF2R (S754_finite (negb s) m e) = - SF2R (S754_finite s m e).
Proof.
  unfold SF2R. destruct s; simpl; change (Z.neg m) with (- Z.pos m)%Z; rewrite opp_IZR; ring.
Qed.

Section Operations.

Variables x y : spec_float.
Hypothesis Hvx : valid_binary x = true.
Hypothesis Hvy : valid_binary y = true.
Hypothesis Hfx : SF_finite x = true.
Hypothesis Hfy : SF_finite y = true.

Lemma SFadd_rounding :
  Rabs (SF2R x + SF2R y) < bpow 1023 ->
  rounding (SF2R x + SF2R y) (SFadd prec emax x y).
Proof.
  intros Hup.
  destruct x as [sx | sx | | sx mx ex]; try discriminate Hfx;
    destruct y as [sy | sy | | sy my ey]; try discriminate Hfy.
  - simpl SF2R. rewrite Rplus_0_l.
    destruct sx, sy; simpl; apply rounding_zero.
  - simpl SFadd. eapply rounding_ext; [| apply rounding_exact; assumption].
    simpl SF2R. ring.
  - simpl SFadd. eapply rounding_ext; [| apply rounding_exact; assumption].
    simpl SF2R. ring.
  - simpl SFadd.
    assert (E : SF2R (S754_finite sx mx ex) + SF2R (S754_finite sy my ey)
                = IZR (cond_Zopp sx (Z.pos (fst (shl_align mx ex (Z.min ex ey))))
                       + cond_Zopp sy (Z.pos (fst (shl_align my ey (Z.min ex ey)))))
                  * bpow (Z.min ex ey)).
    { rewrite plus_IZR, Rmult_plus_distr_r, !aligned_value by lia. reflexivity. }
    rewrite E in *. apply binary_normalize_rounding. exact Hup.
Qed.

Lemma SFsub_rounding :
  Rabs (SF2R x - SF2R y) < bpow 1023 ->
  rounding (SF2R x - SF2R y) (SFsub prec emax x y).
Proof.
  intros Hup.
  destruct x as [sx | sx | | sx mx ex]; try discriminate Hfx;
    destruct y as [sy | sy | | sy my ey]; try discriminate Hfy.
  - simpl SF2R. rewrite Rminus_diag.
    destruct sx, sy; simpl; apply rounding_zero.
  - simpl SFsub. eapply rounding_ext; [| apply rounding_exact].
    + rewrite SF2R_opp. simpl SF2R. ring.
    + apply valid_opp. exact Hvy.
    + reflexivity.
  - simpl SFsub. eapply rounding_ext; [| apply rounding_exact; assumption].
    simpl SF2R. ring.
  - simpl SFsub.
    assert (E : SF2R (S754_finite sx mx ex) - SF2R (S754_finite sy my ey)
                = IZR (cond_Zopp sx (Z.pos (fst (shl_align mx ex (Z.min ex ey))))
                       - cond_Zopp sy (Z.pos (fst (shl_align my ey (Z.min ex ey)))))
                  * bpow (Z.min ex ey)).
    { rewrite minus_IZR, Rmult_minus_distr_r, !aligned_value by lia. reflexivity. }
    rewrite E in *. apply binary_normalize_rounding. exact Hup.
Qed.

Lemma SFmul_rounding :
  Rabs (SF2R x * SF2R y) < bpow 1023 ->
  rounding (SF2R x * SF2R y) (SFmul prec emax x y).
Proof.
  intros Hup.
  destruct x as [sx | sx | | sx mx ex]; try discriminate Hfx;
    destruct y as [sy | sy | | sy my ey]; try discriminate Hfy;
    try (simpl SFmul; eapply rounding_ext; [| apply rounding_zero]; simpl SF2R; ring).
  simpl SFmul.
  destruct (valid_finite sx mx ex Hvx) as [Hex [Hux Hlx]].
  destruct (valid_finite sy my ey Hvy) as [Hey [Huy Hly]].
  set (xa := IZR (Z.pos mx) * bpow ex * (IZR (Z.pos my) * bpow ey)).
  assert (Hval : SF2R (S754_finite sx mx ex) * SF2R (S754_finite sy my ey)
                 = if xorb sx sy then - xa else xa).
  { unfold SF2R, xa. destruct sx, sy; simpl;
      repeat match goal with |- context [Z.neg ?p] =>
        change (Z.neg p) with (- Z.pos p)%Z end; rewrite ?opp_IZR; ring. }
  assert (Hxa : 0 <= xa).
  { unfold xa. pose proof (bpow_pos ex). pose proof (bpow_pos ey).
    assert (0 < IZR (Z.pos mx)) by (apply IZR_lt; lia).
    assert (0 < IZR (Z.pos my)) by (apply IZR_lt; lia).
    apply Rmult_le_pos; apply Rmult_le_pos; lra. }
  rewrite Hval in *.
  apply round_aux_rounding.
  - lia.
  - simpl. rewrite Pos2Z.inj_mul, mult_IZR. unfold xa.
    replace (- (ex + ey))%Z with (- ex + - ey)%Z by ring. rewrite bpow_add.
    transitivity (IZR (Z.pos mx) * IZR (Z.pos my) * (bpow ex * bpow (- ex)) * (bpow ey * bpow (- ey)));
      [ring | rewrite !bpow_inv_r; ring].
  - rewrite fexp_eq.
    destruct Hlx as [Hlx | Hlx], Hly as [Hly | Hly]; try lia.
    + assert (2 ^ 52 <= Z.pos (mx * my))%Z by (rewrite Pos2Z.inj_mul; nia).
      pose proof (Zdigits2_ge (Z.pos (mx * my)) 52 ltac:(lia) H). lia.
    + assert (2 ^ 52 <= Z.pos (mx * my))%Z by (rewrite Pos2Z.inj_mul; nia).
      pose proof (Zdigits2_ge (Z.pos (mx * my)) 52 ltac:(lia) H). lia.
    + assert (2 ^ 52 <= Z.pos (mx * my))%Z by (rewrite Pos2Z.inj_mul; nia).
      pose proof (Zdigits2_ge (Z.pos (mx * my)) 52 ltac:(lia) H). lia.
  - destruct (xorb sx sy); [rewrite Rabs_Ropp in Hup |]; rewrite Rabs_pos_eq in Hup; assumption.
Qed.

End Operations.

(** Where a quotient stands, from the remainder. *)
Lemma new_location_correct (nb k q : Z) :
  (0 < nb)%Z -> (0 <= k < nb)%Z ->
  located q (new_location nb k) (IZR q + IZR k / IZR nb).
Proof.
  intros Hnb Hk.
  assert (Hn : 0 < IZR nb) by (apply IZR_lt; exact Hnb).
  set (t := IZR k / IZR nb).
  assert (Ht : t * IZR nb = IZR k) by (unfold t; field; lra).
  assert (Hk0 : 0 <= IZR k) by (apply IZR_le; lia).
  assert (Hcmp : forall c : Z, ((2 * k < c)%Z -> 2 * IZR k < IZR c)
                               /\ ((c < 2 * k)%Z -> IZR c < 2 * IZR k)
                               /\ ((2 * k)%Z = c -> 2 * IZR k = IZR c)).
  { intros c. rewrite <- (mult_IZR 2). repeat split; intros H.
    - apply IZR_lt; exact H.
    - apply IZR_lt; exact H.
    - rewrite H. reflexivity. }
  unfold new_location.
  destruct (Z.even nb) eqn:Ev.
  - unfold new_location_even. destruct (Z.eqb_spec k 0) as [-> | Hne].
    + simpl. unfold t. rewrite Rdiv_0_l. ring.
    + assert (0 < IZR k) by (apply IZR_lt; lia).
      destruct (Hcmp nb) as [H1 [H2 H3]].
      destruct (Z.compare_spec (2 * k) nb) as [E | L | G]; simpl.
      * specialize (H3 E). nra.
      * specialize (H1 L). nra.
      * specialize (H2 G). assert (IZR k < IZR nb) by (apply IZR_lt; lia). nra.
  - unfold new_location_odd. destruct (Z.eqb_spec k 0) as [-> | Hne].
    + simpl. unfold t. rewrite Rdiv_0_l. ring.
    + assert (0 < IZR k) by (apply IZR_lt; lia).
      assert (Hodd : (2 * k <> nb)%Z).
      { intros E. assert (Z.even nb = true) by (rewrite <- E; apply Z.even_mul). congruence. }
      destruct (Hcmp nb) as [H1 [H2 H3]].
      destruct (Z.compare_spec (2 * k + 1) nb) as [E | L | G]; simpl.
      * assert (L : (2 * k < nb)%Z) by lia. specialize (H1 L). nra.
      * assert (L' : (2 * k < nb)%Z) by lia. specialize (H1 L'). nra.
      * assert (G' : (nb < 2 * k)%Z) by lia. specialize (H2 G').
        assert (IZR k < IZR nb) by (apply IZR_lt; lia). nra.
Qed.

Lemma SFdiv_core_correct (mx my : positive) (ex ey : Z) :
  valid_binary (S754_finite false mx ex) = true ->
  valid_binary (S754_finite false my ey) = true ->
  exists q e' l,
    SFdiv_core_binary prec emax (Z.pos mx) ex (Z.pos my) ey = (q, e', l)
    /\ (0 <= q)%Z
    /\ located q l (IZR (Z.pos mx) * bpow ex / (IZR (Z.pos my) * bpow ey) * bpow (- e'))
    /\ (e' <= fexp prec emax (Zdigits2 q + e'))%Z.
Proof.
  intros Hvx Hvy.
  destruct (valid_finite _ _ _ Hvx) as [Hex [Hux Hlx]].
  destruct (valid_finite _ _ _ Hvy) as [Hey [Huy Hly]].
  unfold SFdiv_core_binary.
  set (dx := Zdigits2 (Z.pos mx)). set (dy := Zdigits2 (Z.pos my)).
  set (e' := Z.min (fexp prec emax (dx + ex - (dy + ey))) (ex - ey)).
  set (s := (ex - ey - e')%Z).
  assert (Hs : (0 <= s)%Z) by (unfold s, e'; lia).
  set (m' := match s with Z.pos _ => Z.shiftl (Z.pos mx) s | 0%Z => Z.pos mx | Z.neg _ => 0%Z end).
  assert (Hm' : m' = (Z.pos mx * 2 ^ s)%Z).
  { unfold m'. destruct s as [| p | p]; [simpl; lia | | lia].
    rewrite Z.shiftl_mul_pow2 by lia. reflexivity. }
  pose proof (Z_div_mod m' (Z.pos my) ltac:(lia)) as Hdm.
  destruct (Z.div_eucl m' (Z.pos my)) as [q r] eqn:Ed.
  destruct Hdm as [Hq Hr].
  assert (Hq0 : (0 <= q)%Z).
  { assert (0 < 2 ^ s)%Z by (apply Z.pow_pos_nonneg; lia). nia. }
  exists q, e', (new_location (Z.pos my) r).
  split; [reflexivity |]. split; [exact Hq0 |]. split.
  - pose proof (new_location_correct (Z.pos my) r q ltac:(lia) Hr) as Hloc.
    replace (IZR (Z.pos mx) * bpow ex / (IZR (Z.pos my) * bpow ey) * bpow (- e'))
      with (IZR q + IZR r / IZR (Z.pos my)); [exact Hloc |].
    assert (Hmy : 0 < IZR (Z.pos my)) by (apply IZR_lt; lia).
    pose proof (bpow_pos ey).
    assert (Hm'R : IZR m' = IZR (Z.pos my) * IZR q + IZR r).
    { rewrite Hq, plus_IZR, mult_IZR. reflexivity. }
    assert (Hm'R2 : IZR m' = IZR (Z.pos mx) * bpow s).
    { rewrite Hm', mult_IZR, <- bpow_IZR by exact Hs. reflexivity. }
    assert (Hb : bpow ex * bpow (- e') = bpow s * bpow ey).
    { rewrite <- !bpow_add. f_equal. unfold s. ring. }
    transitivity (IZR m' / IZR (Z.pos my)); [rewrite Hm'R; field; lra |].
    rewrite Hm'R2.
    transitivity (IZR (Z.pos mx) * (bpow ex * bpow (- e')) / (IZR (Z.pos my) * bpow ey));
      [rewrite Hb; field; lra | field; lra].
  - rewrite fexp_eq.
    destruct (Z_le_gt_dec e' (-1074)) as [Hle | Hgt]; [lia |].
    assert (He' : (e' <= dx + ex - (dy + ey) - 53)%Z).
    { unfold e' in *. rewrite fexp_eq in *. lia. }
    pose proof (digits_bounds mx) as [Hdx _]. fold (Zdigits2 (Z.pos mx)) in Hdx. fold dx in Hdx.
    pose proof (digits_bounds my) as [_ Hdy]. fold (Zdigits2 (Z.pos my)) in Hdy. fold dy in Hdy.
    assert (Hdy1 : (1 <= dy)%Z) by (unfold dy; simpl; lia).
    assert (Hdx1 : (1 <= dx)%Z) by (unfold dx; simpl; lia).
    assert (Hs' : (53 - dx + dy <= s)%Z) by (unfold s; lia).
    assert (Hbig : (2 ^ 52 * Z.pos my <= m')%Z).
    { rewrite Hm'.
      assert (H1 : (2 ^ (dx - 1) * 2 ^ s <= Z.pos mx * 2 ^ s)%Z).
      { apply Z.mul_le_mono_nonneg_r; [apply Z.pow_nonneg; lia | exact Hdx]. }
      rewrite <- Z.pow_add_r in H1 by lia.
      assert (H2 : (2 ^ (52 + dy) <= 2 ^ (dx - 1 + s))%Z) by (apply Z.pow_le_mono_r; lia).
      rewrite Z.pow_add_r in H2 by lia.
      assert (0 < 2 ^ 52)%Z by lia. nia. }
    assert (Hq52 : (2 ^ 52 <= q)%Z).
    { destruct (Z_le_gt_dec (2 ^ 52) q) as [H | H]; [exact H |]. nia. }
    pose proof (Zdigits2_ge q 52 ltac:(lia) Hq52). lia.
Qed.

Lemma SF2R_sign (s : bool) (m : positive) (e : Z) :
  SF2R (S754_finite s m e) = if s then - (IZR (Z.pos m) * bpow e) else IZR (Z.pos m) * bpow e.
Proof.
  unfold SF2R. destruct s; simpl cond_Zopp; [| reflexivity].
  change (Z.neg m) with (- Z.pos m)%Z. rewrite opp_IZR. ring.
Qed.

Lemma SF2R_finite_pos (m : positive) (e : Z) : 0 < IZR (Z.pos m) * bpow e.
Proof. apply Rmult_lt_0_compat; [apply IZR_lt; lia | apply bpow_pos]. Qed.

Lemma SFdiv_rounding (x y : spec_float) :
  valid_binary x = true -> valid_binary y = true ->
  SF_finite x = true -> SF_finite y = true ->
  SF2R y <> 0 ->
  Rabs (SF2R x / SF2R y) < bpow 1023 ->
  rounding (SF2R x / SF2R y) (SFdiv prec emax x y).
Proof.
  intros Hvx Hvy Hfx Hfy Hy0 Hup.
  destruct y as [sy | sy | | sy my ey]; try discriminate Hfy; [contradiction Hy0; reflexivity |].
  destruct x as [sx | sx | | sx mx ex]; try discriminate Hfx.
  - simpl SFdiv. eapply rounding_ext; [| apply rounding_zero].
    simpl SF2R. unfold Rdiv. ring.
  - simpl SFdiv.
    destruct (SFdiv_core_correct mx my ex ey Hvx Hvy) as [q [e' [l [E [Hq [Hloc Hd]]]]]].
    rewrite E.
    pose proof (SF2R_finite_pos mx ex) as Hpx. pose proof (SF2R_finite_pos my ey) as Hpy.
    rewrite !SF2R_sign in *.
    set (A := IZR (Z.pos mx) * bpow ex) in *. set (B := IZR (Z.pos my) * bpow ey) in *.
    set (xa := A / B) in *.
    assert (Hxa : 0 < xa) by (unfold xa; apply Rdiv_lt_0_compat; assumption).
    assert (Hval : (if sx then - A else A) / (if sy then - B else B)
                   = if xorb sx sy then - xa else xa).
    { unfold xa. destruct sx, sy; simpl; field; lra. }
    rewrite Hval in *.
    apply round_aux_rounding; [exact Hq | exact Hloc | exact Hd |].
    destruct (xorb sx sy); [rewrite Rabs_Ropp in Hup |]; rewrite Rabs_pos_eq in Hup; lra.
Qed.

(** The order of two finite doubles is the order of their values. *)
Lemma canonical_lt (m1 m2 : positive) (e1 e2 : Z) :
  valid_binary (S754_finite false m1 e1) = true ->
  valid_binary (S754_finite false m2 e2) = true ->
  (e1 < e2)%Z ->
  IZR (Z.pos m1) * bpow e1 < IZR (Z.pos m2) * bpow e2.
Proof.
  intros H1 H2 He.
  destruct (valid_finite _ _ _ H1) as [He1 [Hu1 _]].
  destruct (valid_finite _ _ _ H2) as [He2 [_ Hl2]].
  destruct Hl2 as [Hl2 | Hl2]; [lia |].
  pose proof (bpow_pos e1). pose proof (bpow_pos e2).
  apply Rlt_le_trans with (bpow 53 * bpow e1).
  - apply Rmult_lt_compat_r; [assumption |]. rewrite bpow_IZR by lia. apply IZR_lt. exact Hu1.
  - apply Rle_trans with (bpow 52 * bpow e2).
    + rewrite <- !bpow_add. apply bpow_le. lia.
    + apply Rmult_le_compat_r; [lra |]. rewrite bpow_IZR by lia. apply IZR_le. exact Hl2.
Qed.

Lemma compare_magnitudes (m1 m2 : positive) (e1 e2 : Z) :
  valid_binary (S754_finite false m1 e1) = true ->
  valid_binary (S754_finite false m2 e2) = true ->
  let a := IZR (Z.pos m1) * bpow e1 in
  let b := IZR (Z.pos m2) * bpow e2 in
  (a < b /\ ((e1 ?= e2)%Z = Lt
             \/ ((e1 ?= e2)%Z = Eq /\ Pos.compare_cont Eq m1 m2 = Lt)))
  \/ (a = b /\ (e1 ?= e2)%Z = Eq /\ Pos.compare_cont Eq m1 m2 = Eq)
  \/ (b < a /\ ((e1 ?= e2)%Z = Gt
                \/ ((e1 ?= e2)%Z = Eq /\ Pos.compare_cont Eq m1 m2 = Gt))).
Proof.
  intros H1 H2 a b. unfold a, b.
  destruct (Z.compare_spec e1 e2) as [E | L | G].
  - subst e2. fold (Pos.compare m1 m2). pose proof (bpow_pos e1).
    destruct (Pos.compare_spec m1 m2) as [E | L | G].
    + subst m2. right. left. repeat split.
    + left. split; [| right; split; reflexivity].
      apply Rmult_lt_compat_r; [assumption | apply IZR_lt; lia].
    + right. right. split; [| right; split; reflexivity].
      apply Rmult_lt_compat_r; [assumption | apply IZR_lt; lia].
  - left. split; [apply canonical_lt; assumption | left; reflexivity].
  - right. right. split; [apply canonical_lt; [assumption | assumption | lia] | left; reflexivity].
Qed.

Lemma SFcompare_correct (f g : spec_float) :
  valid_binary f = true -> valid_binary g = true ->
  SF_finite f = true -> SF_finite g = true ->
  (SF2R f < SF2R g /\ SFcompare f g = Some Lt)
  \/ (SF2R f = SF2R g /\ SFcompare f g = Some Eq)
  \/ (SF2R g < SF2R f /\ SFcompare f g = Some Gt).
Proof.
  intros Hvf Hvg Hff Hfg.
  destruct f as [sf | sf | | sf mf ef]; try discriminate Hff;
    destruct g as [sg | sg | | sg mg eg]; try discriminate Hfg.
  - right. left. split; reflexivity.
  - rewrite SF2R_sign. pose proof (SF2R_finite_pos mg eg). simpl SF2R. simpl SFcompare.
    destruct sg; [right; right | left]; split; try reflexivity; lra.
  - rewrite SF2R_sign. pose proof (SF2R_finite_pos mf ef). simpl SF2R. simpl SFcompare.
    destruct sf; [left | right; right]; split; try reflexivity; lra.
  - rewrite !SF2R_sign.
    pose proof (SF2R_finite_pos mf ef). pose proof (SF2R_finite_pos mg eg).
    simpl SFcompare.
    destruct sf, sg.
    + destruct (compare_magnitudes mf mg ef eg Hvf Hvg)
        as [[Hc [-> | [-> ->]]] | [[Hc [-> ->]] | [Hc [-> | [-> ->]]]]];
        simpl; [right; right | right; right | right; left | left | left];
        split; try reflexivity; lra.
    + left. split; [lra | reflexivity].
    + right. right. split; [lra | reflexivity].
    + destruct (compare_magnitudes mf mg ef eg Hvf Hvg)
        as [[Hc [-> | [-> ->]]] | [[Hc [-> ->]] | [Hc [-> | [-> ->]]]]];
        simpl; [left | left | right; left | right; right | right; right];
        split; try reflexivity; lra.
Qed.

Lemma rounded_finite (x : R) (r : float) : rounded x r -> finite r = true.
Proof. intros [_ [H _]]. exact H. Qed.

Lemma add_rounded (a b : float) :
  finite a = true -> finite b = true ->
  Rabs (value a + value b) < bpow 1023 ->
  rounded (value a + value b) (a + b)%float.
Proof.
  intros Ha Hb Hup. unfold rounded. rewrite add_spec.
  apply SFadd_rounding; try assumption; apply Prim2SF_valid.
Qed.

Lemma sub_rounded (a b : float) :
  finite a = true -> finite b = true ->
  Rabs (value a - value b) < bpow 1023 ->
  rounded (value a - value b) (a - b)%float.
Proof.
  intros Ha Hb Hup. unfold rounded. rewrite sub_spec.
  apply SFsub_rounding; try assumption; apply Prim2SF_valid.
Qed.

Lemma mul_rounded (a b : float) :
  finite a = true -> finite b = true ->
  Rabs (value a * value b) < bpow 1023 ->
  rounded (value a * value b) (a * b)%float.
Proof.
  intros Ha Hb Hup. unfold rounded. rewrite mul_spec.
  apply SFmul_rounding; try assumption; apply Prim2SF_valid.
Qed.

Lemma div_rounded (a b : float) :
  finite a = true -> finite b = true ->
  value b <> 0 ->
  Rabs (value a / value b) < bpow 1023 ->
  rounded (value a / value b) (a / b)%float.
Proof.
  intros Ha Hb H0 Hup. unfold rounded. rewrite div_spec.
  apply SFdiv_rounding; try assumption; apply Prim2SF_valid.
Qed.

Lemma double_of_N_rounded (n : N) :
  IZR (Z.of_N n) < bpow 1023 -> rounded (IZR (Z.of_N n)) (double_of_N n).
Proof.
  intros Hup.
  assert (H : rounding (IZR (Z.of_N n) * bpow 0)
                       (binary_normalize prec emax (Z.of_N n) 0 false)).
  { apply binary_normalize_rounding. rewrite bpow_0, Rmult_1_r, Rabs_pos_eq; [exact Hup |].
    apply IZR_le. lia. }
  rewrite bpow_0, Rmult_1_r in H.
  unfold rounded, double_of_N. change 53%Z with prec. change 1024%Z with emax.
  rewrite Prim2SF_SF2Prim; [exact H | exact (proj1 H)].
Qed.

(** The comparison of two finite doubles. *)
Lemma ltb_value (a b : float) :
  finite a = true -> finite b = true ->
  (PrimFloat.ltb a b = true <-> value a < value b).
Proof.
  intros Ha Hb. rewrite ltb_spec. unfold SFltb, value.
  destruct (SFcompare_correct (Prim2SF a) (Prim2SF b) (Prim2SF_valid a) (Prim2SF_valid b) Ha Hb)
    as [[H ->] | [[H ->] | [H ->]]]; split; intros; try discriminate; try reflexivity; lra.
Qed.

Lemma ltb_false_value (a b : float) :
  finite a = true -> finite b = true ->
  (PrimFloat.ltb a b = false <-> value b <= value a).
Proof.
  intros Ha Hb. pose proof (ltb_value a b Ha Hb) as H. split.
  - intros E. destruct (Rlt_dec (value a) (value b)) as [Hl | Hl]; [| lra].
    apply H in Hl. congruence.
  - intros Hle. destruct (PrimFloat.ltb a b) eqn:E; [| reflexivity].
    assert (value a < value b) by (apply H; reflexivity). lra.
Qed.

(** What follows from [rounded]. *)
Section Rounded.

Variable x : R.
Variable r : float.
Hypothesis Hr : rounded x r.

Lemma rounded_error : Rabs (value r - x) <= Rabs x * bpow (-53) + bpow (-1075).
Proof. exact (rounding_error x _ Hr). Qed.

Lemma rounded_relative : bpow (-1022) <= Rabs x -> Rabs (value r - x) <= Rabs x * bpow (-53).
Proof. exact (rounding_relative x _ Hr). Qed.

Lemma rounded_le (g : float) : finite g = true -> x <= value g -> value r <= value g.
Proof. intros Hg. exact (rounding_le x _ Hr (Prim2SF g) (Prim2SF_valid g) Hg). Qed.

Lemma rounded_ge (g : float) : finite g = true -> value g <= x -> value g <= value r.
Proof. intros Hg. exact (rounding_ge x _ Hr (Prim2SF g) (Prim2SF_valid g) Hg). Qed.

Lemma rounded_nonneg : 0 <= x -> 0 <= value r.
Proof. exact (rounding_nonneg x _ Hr). Qed.

Lemma rounded_nonpos : x <= 0 -> value r <= 0.
Proof. exact (rounding_nonpos x _ Hr). Qed.

End Rounded.

Lemma rounded_value (g r : float) : finite g = true -> rounded (value g) r -> value r = value g.
Proof.
  intros Hg H. exact (rounding_of_value (Prim2SF g) _ (Prim2SF_valid g) Hg H).
Qed.

(** An integer of at most 53 bits is a double. *)
Lemma rounding_integer (n : Z) (f : spec_float) :
  rounding (IZR n) f -> (Z.abs n < 2 ^ 53)%Z -> SF2R f = IZR n.
Proof.
  intros [_ [_ [m1 [e1 [He [Hv [Hn [Hl Hu]]]]]]]] Hb.
  assert (He0 : (e1 <= 0)%Z).
  { destruct Hl as [Hl | Hl]; [lia |].
    rewrite <- abs_IZR in Hl.
    assert (IZR (Z.abs n) < bpow 53) by (rewrite (bpow_IZR 53) by lia; apply IZR_lt; exact Hb).
    assert (H0 : bpow (e1 + 52) < bpow 53) by lra.
    apply bpow_lt_inv in H0. lia. }
  assert (Hk : IZR n * bpow (- e1) = IZR (n * 2 ^ (- e1))).
  { rewrite mult_IZR, <- bpow_IZR by lia. reflexivity. }
  rewrite Hk in Hn.
  pose proof (nearest_exact _ _ _ Hn eq_refl) as ->.
  rewrite Hv, <- Hk, Rmult_assoc, bpow_inv_l. ring.
Qed.

Lemma double_of_N_exact (n : N) :
  (n < 2 ^ 53)%N -> value (double_of_N n) = IZR (Z.of_N n) /\ finite (double_of_N n) = true.
Proof.
  intros Hn.
  assert (Hz : (Z.of_N n < 2 ^ 53)%Z).
  { change (2 ^ 53)%Z with (Z.of_N (2 ^ 53)). lia. }
  assert (Hup : IZR (Z.of_N n) < bpow 1023).
  { apply Rlt_trans with (bpow 53); [| apply bpow_lt; lia].
    rewrite (bpow_IZR 53) by lia. apply IZR_lt. exact Hz. }
  pose proof (double_of_N_rounded n Hup) as H.
  split; [| exact (rounded_finite _ _ H)].
  apply rounding_integer; [exact H | lia].
Qed.

(** The literals of the source. *)
Lemma value_0 : value 0%float = 0 /\ finite 0%float = true.
Proof. split; reflexivity. Qed.

Lemma Prim2SF_1 : Prim2SF 1%float = S754_finite false 4503599627370496 (-52).
Proof. vm_compute. reflexivity. Qed.

Lemma value_1 : value 1%float = 1 /\ finite 1%float = true.
Proof.
  unfold value, finite. rewrite Prim2SF_1. split; [| reflexivity].
  unfold SF2R. simpl cond_Zopp. change 4503599627370496%Z with (2 ^ 52)%Z.
  rewrite <- bpow_IZR, <- bpow_add by lia. apply bpow_0.
Qed.

End Doubles.

Set Implicit Arguments.

(** ** The result monad and [back] *)

Lemma bind_Ok {T U : Type} (r : result T) (k : T -> result U) (v : U) :
  bind r k = Ok v -> exists x, r = Ok x /\ k x = Ok v.
Proof.
  destruct r as [x | |]; simpl; intros H; try discriminate.
  exists x. split; [reflexivity | exact H].
Qed.

Lemma back_nonempty {T : Type} (v : list T) : v <> [] -> exists x, back v = Ok x.
Proof.
  induction v as [| a v IH]; intros Hne; [contradiction Hne; reflexivity |].
  destruct v as [| b v].
  - exists a. reflexivity.
  - destruct IH as [x Hx]; [discriminate |]. exists x. exact Hx.
Qed.

(** The most recent sample is the last one. *)
Lemma back_last {T : Type} (history : list T) (x : T) : back (history ++ [x]) = Ok x.
Proof.
  induction history as [| a history IH]; [reflexivity |].
  simpl. destruct (history ++ [x]) eqn:E; [destruct history; discriminate E | exact IH].
Qed.

Lemma is_empty_last {T : Type} (history : list T) (x : T) :
  is_empty (history ++ [x]) = false.
Proof. destruct history; reflexivity. Qed.

(** ** Columns, for any arithmetic *)

Section StructureFacts.

Context {num : Type} {arith : Arith num}.

Local Open Scope arith_scope.

Variable profile : Profile.
Variable time_scale : num.

Lemma linked_app (from mid to : num) (l1 l2 : list (LayoutItem num)) :
  linked from l1 mid -> linked mid l2 to -> linked from (l1 ++ l2) to.
Proof.
  revert from. induction l1 as [| i l1 IH]; simpl; intros from H1 H2.
  - subst mid. exact H2.
  - destruct H1 as [H1 H1']. split; [exact H1 | apply IH; assumption].
Qed.

(** The loop over the child keys appends one measured, non-exclusive item
    per key, each starting where the one before ends. *)
Lemma add_children_spec (keys : list Z) :
  forall st st' : LoopState num,
    for_each (add_child profile time_scale) keys st = Ok st' ->
    exists group,
      cur_children st' = cur_children st ++ group
      /\ linked (cur_span_start st) group (cur_span_start st')
      /\ Forall (measured profile time_scale) group
      /\ map (@node_key num) group = keys
      /\ map (@exclusive num) group = map (fun _ => false) keys
      /\ cur_keep_going st'
         = cur_keep_going st || existsb (fun k => hasChildren (node profile k)) keys.
Proof.
  induction keys as [| key keys IH]; simpl; intros st st' H.
  - injection H as <-. exists []. rewrite app_nil_r, orb_false_r.
    repeat split; constructor.
  - apply bind_Ok in H. destruct H as [st1 [H1 H2]].
    unfold add_child in H1. apply bind_Ok in H1. destruct H1 as [entry [Hb H1]].
    injection H1 as <-.
    apply IH in H2. simpl in H2.
    destruct H2 as [group [Hc [Hl [Hm [Hk [He Hg]]]]]].
    eexists (_ :: group). rewrite Hc, <- app_assoc. simpl.
    split; [reflexivity |]. split; [split; [reflexivity | exact Hl] |].
    split.
    { constructor; [| exact Hm].
      unfold measured, item_ns, inclusive_ns. simpl. rewrite Hb. reflexivity. }
    split; [f_equal; exact Hk |]. split; [f_equal; exact He |].
    rewrite Hg, orb_assoc. reflexivity.
Qed.

(** One parent item appends its group. *)
Lemma add_parent_spec (parent_item : LayoutItem num) (st st' : LoopState num) :
  add_parent profile time_scale st parent_item = Ok st' ->
  exists group,
    cur_children st' = cur_children st ++ group
    /\ generated profile time_scale parent_item (cur_span_start st) group (cur_span_start st')
    /\ cur_keep_going st'
       = cur_keep_going st
         || existsb (fun k => hasChildren (node profile k))
                    (expanded_keys profile parent_item).
Proof.
  unfold add_parent, generated, expanded_keys. intros H.
  apply bind_Ok in H. destruct H as [entry [Hb H]].
  assert (Hex : measured profile time_scale
            {| node_key := node_key parent_item; exclusive := true;
               span_start := cur_span_start st;
               span_end := cur_span_start st
                 + of_count (cumulative_exclusive_duration_ns entry) / time_scale |}).
  { unfold measured, item_ns, exclusive_ns. simpl. rewrite Hb. reflexivity. }
  destruct (exclusive parent_item).
  - injection H as <-. simpl. eexists [_]. split; [reflexivity |].
    rewrite orb_false_r. simpl. repeat split. constructor; [exact Hex | constructor].
  - apply add_children_spec in H. simpl in H.
    destruct H as [group [Hc [Hl [Hm [Hk [He Hg]]]]]].
    eexists (_ :: group). rewrite Hc, <- app_assoc. simpl.
    split; [reflexivity |]. split; [| exact Hg].
    split; [split; [reflexivity | exact Hl] |].
    split; [constructor; [exact Hex | exact Hm] |].
    split; f_equal; assumption.
Qed.

(** The loop over the parents appends the groups of the parents in order. *)
Lemma add_parents_spec (parents : list (LayoutItem num)) :
  forall st st' : LoopState num,
    for_each (add_parent profile time_scale) parents st = Ok st' ->
    exists groups,
      cur_children st' = cur_children st ++ concat groups
      /\ expansions profile time_scale (cur_span_start st) parents groups
                    (cur_span_start st')
      /\ cur_keep_going st'
         = cur_keep_going st
           || existsb (fun item => existsb (fun k => hasChildren (node profile k))
                                           (expanded_keys profile item)) parents.
Proof.
  induction parents as [| parent_item parents IH]; simpl; intros st st' H.
  - injection H as <-. exists []. simpl. rewrite app_nil_r, orb_false_r.
    repeat split. constructor.
  - apply bind_Ok in H. destruct H as [st1 [H1 H2]].
    apply add_parent_spec in H1. destruct H1 as [group [Hc [Hgen Hg]]].
    apply IH in H2. destruct H2 as [groups [Hc' [Hexp Hg']]].
    exists (group :: groups). simpl. rewrite Hc', Hc, <- app_assoc.
    split; [reflexivity |]. split.
    + econstructor; eassumption.
    + rewrite Hg', Hg, orb_assoc. reflexivity.
Qed.

(** [parents] is the last column of the layout the pass starts from. *)
Lemma layout_column_last (layout : Layout num) (parents : list (LayoutItem num)) :
  layout_column profile time_scale (layout ++ [parents])
  = for_each (add_parent profile time_scale) parents
      {| cur_span_start := lit_0; cur_children := []; cur_keep_going := false |}.
Proof.
  unfold layout_column. f_equal.
  rewrite <- app_assoc. simpl.
  replace (length (layout ++ [parents; []]) - 2)%nat with (length layout)
    by (rewrite length_app; simpl; lia).
  apply nth_middle.
Qed.

Lemma layered_snoc (layout : Layout num) (parents children : list (LayoutItem num)) :
  layered profile time_scale (layout ++ [parents]) ->
  expands profile time_scale parents children ->
  layered profile time_scale ((layout ++ [parents]) ++ [children]).
Proof.
  induction layout as [| c layout IH]; simpl; intros H He.
  - split; [exact He | exact I].
  - destruct (layout ++ [parents]) as [| c' rest] eqn:E.
    + destruct layout; discriminate E.
    + simpl. destruct H as [H1 H2]. split; [exact H1 | apply IH; assumption].
Qed.

(** The [while] loop keeps the columns it has and appends derived ones. *)
Lemma layout_loop_spec (fuel : nat) :
  forall (layout : Layout num) (parents : list (LayoutItem num)) (keep_going : bool)
         (layout' : Layout num),
    layout_loop fuel profile time_scale (layout ++ [parents]) keep_going = Ok layout' ->
    layered profile time_scale (layout ++ [parents]) ->
    layered profile time_scale layout'
    /\ exists more, layout' = (layout ++ [parents]) ++ more.
Proof.
  induction fuel as [| fuel IH]; intros layout parents keep_going layout' H Hl.
  - simpl in H. destruct keep_going; [discriminate |].
    injection H as <-. split; [exact Hl | exists []; rewrite app_nil_r; reflexivity].
  - simpl in H. destruct keep_going.
    + apply bind_Ok in H. destruct H as [st [Hc H]].
      rewrite layout_column_last in Hc.
      apply add_parents_spec in Hc. simpl in Hc.
      destruct Hc as [groups [Hc [Hexp _]]].
      apply IH in H.
      * destruct H as [H1 [more H2]]. split; [exact H1 |].
        exists (cur_children st :: more). rewrite H2, <- !app_assoc. reflexivity.
      * apply layered_snoc; [exact Hl |].
        exists groups, (cur_span_start st). split; assumption.
    + injection H as <-. split; [exact Hl | exists []; rewrite app_nil_r; reflexivity].
Qed.

Lemma linked_contiguous (items : list (LayoutItem num)) :
  forall from to, linked from items to -> contiguous items.
Proof.
  induction items as [| item items IH]; intros from to H; [exact I |].
  destruct H as [_ H]. destruct items as [| next items]; [exact I |].
  split; [symmetry; exact (proj1 H) | exact (IH _ _ H)].
Qed.

(** The groups of a column, put together, run from cursor to cursor. *)
Lemma expansions_linked (parents : list (LayoutItem num)) :
  forall from groups to,
    expansions profile time_scale from parents groups to ->
    linked from (concat groups) to
    /\ Forall (measured profile time_scale) (concat groups).
Proof.
  induction parents as [| parent_item parents IH]; intros from groups to He;
    inversion He; subst; simpl.
  - split; [reflexivity | constructor].
  - destruct (IH _ _ _ H5) as [Hl Hm]. destruct H2 as [Hl' [Hm' _]].
    split; [eapply linked_app; eassumption | apply Forall_app; split; assumption].
Qed.

Lemma expansions_Forall2 (parents : list (LayoutItem num)) :
  forall from groups to,
    expansions profile time_scale from parents groups to ->
    Forall2 (fun parent_item group =>
               exists a b, generated profile time_scale parent_item a group b)
            parents groups.
Proof.
  induction parents as [| parent_item parents IH]; intros from groups to He;
    inversion He; subst; constructor.
  - exists from, mid. assumption.
  - eapply IH; eassumption.
Qed.

(** Two columns that follow each other in a layout. *)
Lemma layered_nth (layout : Layout num) :
  forall (i : nat) (parents children : list (LayoutItem num)),
    layered profile time_scale layout ->
    nth_error layout i = Some parents ->
    nth_error layout (S i) = Some children ->
    expands profile time_scale parents children.
Proof.
  induction layout as [| c layout IH]; intros i parents children Hl Hp Hc;
    [destruct i; discriminate Hp |].
  destruct layout as [| c' layout]; [destruct i; discriminate Hc |].
  simpl in Hl. destruct Hl as [He Hl].
  destruct i as [| i].
  - simpl in Hp, Hc. injection Hp as <-. injection Hc as <-. exact He.
  - simpl in Hp. eapply IH; [exact Hl | exact Hp | exact Hc].
Qed.

(** A property of columns that the first column has and that passes from a
    column to the one derived from it holds of every column. *)
Lemma layered_Forall (Q : list (LayoutItem num) -> Prop) (layout : Layout num) :
  (forall parents children,
      Q parents -> expands profile time_scale parents children -> Q children) ->
  layered profile time_scale layout ->
  match layout with [] => True | first :: _ => Q first end ->
  Forall Q layout.
Proof.
  intros Hstep. induction layout as [| c layout IH]; intros Hl Hq; [constructor |].
  constructor; [exact Hq |].
  destruct layout as [| c' layout]; [constructor |].
  simpl in Hl. destruct Hl as [He Hl].
  apply IH; [exact Hl | eapply Hstep; eassumption].
Qed.

End StructureFacts.

(** What [layoutProfile] returns: nothing, or the root item over [0, 1]
    followed by the columns derived from it. *)
Lemma layoutProfile_spec {num : Type} {arith : Arith num} (fuel : nat)
    (profile : Profile) (layout : Layout num) (warnings : list string) :
  layoutProfile fuel profile = Ok (layout, warnings) ->
  layout = []
  \/ exists entry more,
       isValid (rootNode profile) = true
       /\ back (data (rootNode profile)) = Ok entry
       /\ warnings = []
       /\ layout = [ {| node_key := nodeKey (rootNode profile); exclusive := false;
                        span_start := lit_0; span_end := lit_1 |} ] :: more
       /\ layered profile (of_count (cumulative_inclusive_duration_ns entry)) layout.
Proof.
  unfold layoutProfile. intros H.
  destruct (isValid (rootNode profile)); simpl in H.
  2: { injection H as <- _. left. reflexivity. }
  destruct (is_empty (data (rootNode profile))).
  { injection H as <- _. left. reflexivity. }
  apply bind_Ok in H. destruct H as [entry [Hb H]].
  apply bind_Ok in H. destruct H as [layout0 [Hloop H]].
  injection H as <- <-.
  apply (layout_loop_spec _ _ _ []) in Hloop; [| exact I].
  destruct Hloop as [Hl [more Hm]]. right. exists entry, more.
  repeat split; try assumption.
Qed.

(** In double precision as in any arithmetic: two columns that follow each
    other in a returned layout are the parents and the groups derived from
    them, and the derived column is contiguous from end to end. *)
Lemma layoutProfile_derived {num : Type} {arith : Arith num} (fuel : nat)
    (profile : Profile) (layout : Layout num) (warnings : list string) (i : nat)
    (parents children : list (LayoutItem num)) :
  layoutProfile fuel profile = Ok (layout, warnings) ->
  nth_error layout i = Some parents ->
  nth_error layout (S i) = Some children ->
  exists time_scale groups,
    children = concat groups
    /\ Forall2 (fun parent_item group =>
                  exists a b, generated profile time_scale parent_item a group b)
               parents groups
    /\ contiguous children.
Proof.
  intros Hrun Hi Hsi. apply layoutProfile_spec in Hrun.
  destruct Hrun as [-> | [entry [more [_ [_ [_ [-> Hl]]]]]]];
    [destruct i; discriminate Hi |].
  assert (Hex : expands profile (of_count (cumulative_inclusive_duration_ns entry))
                        parents children)
    by (eapply layered_nth; eassumption).
  destruct Hex as [groups [to [-> He]]].
  exists (of_count (cumulative_inclusive_duration_ns entry)), groups.
  split; [reflexivity |]. split; [eapply expansions_Forall2; exact He |].
  eapply linked_contiguous. exact (proj1 (expansions_linked He)).
Qed.

(** ** The loop returns on a tree *)

Section Termination.

Context {num : Type} {arith : Arith num}.

Variable profile : Profile.
Variable time_scale : num.
Variable height : Z -> nat.
Hypothesis shaped : tree_shaped profile height.

Lemma add_children_returns (keys : list Z) :
  (forall k, In k keys -> data (node profile k) <> []) ->
  forall st : LoopState num,
    exists st', for_each (add_child profile time_scale) keys st = Ok st'.
Proof.
  induction keys as [| key keys IH]; simpl; intros Hs st.
  - exists st. reflexivity.
  - unfold add_child at 1.
    destruct (back_nonempty (Hs key (or_introl eq_refl))) as [entry ->]. simpl.
    apply IH. intros k Hk. apply Hs. right. exact Hk.
Qed.

Lemma add_parent_returns (parent_item : LayoutItem num) (st : LoopState num) :
  data (node profile (node_key parent_item)) <> [] ->
  exists st', add_parent profile time_scale st parent_item = Ok st'.
Proof.
  intros Hd. unfold add_parent.
  destruct (back_nonempty Hd) as [entry ->]. simpl.
  destruct (exclusive parent_item).
  - eexists. reflexivity.
  - apply add_children_returns. intros k Hk.
    exact (child_sampled shaped _ _ Hk).
Qed.

(** An item of a group is the parent's exclusive item, or the non-exclusive
    item of one of the expanded keys. *)
Lemma generated_item (parent_item : LayoutItem num) (from to : num)
    (group : list (LayoutItem num)) (item : LayoutItem num) :
  generated profile time_scale parent_item from group to ->
  In item group ->
  (exclusive item = true /\ node_key item = node_key parent_item)
  \/ (exclusive item = false /\ In (node_key item) (expanded_keys profile parent_item)).
Proof.
  intros [_ [_ [Hk He]]] Hin.
  destruct group as [| first group]; [discriminate Hk |].
  simpl in Hk, He. injection Hk as Hk0 Hk. injection He as He0 He.
  destruct Hin as [<- | Hin]; [left; split; assumption | right].
  split.
  - assert (H : In (exclusive item) (map (@exclusive num) group))
      by (apply in_map; exact Hin).
    rewrite He in H. apply in_map_iff in H. destruct H as [_ [H _]]. symmetry. exact H.
  - rewrite <- Hk. apply in_map. exact Hin.
Qed.

Lemma expanded_keys_children (parent_item : LayoutItem num) (k : Z) :
  In k (expanded_keys profile parent_item) ->
  exclusive parent_item = false
  /\ In k (childKeys (node profile (node_key parent_item))).
Proof.
  unfold expanded_keys. destruct (exclusive parent_item); simpl; [contradiction |].
  intros H. split; [reflexivity | exact H].
Qed.

(** The column derived from a ready column is ready one level lower. *)
Lemma expansions_ready (bound : nat) (parents : list (LayoutItem num)) :
  forall from groups to,
    expansions profile time_scale from parents groups to ->
    ready profile height bound parents ->
    ready profile height (bound - 1) (concat groups).
Proof.
  induction parents as [| parent_item parents IH]; intros from groups to He Hr;
    inversion He; subst; simpl; [constructor |].
  inversion Hr as [| ? ? [Hd Hh] Hr']; subst.
  apply Forall_app. split; [| eapply IH; eassumption].
  apply Forall_forall. intros item Hin.
  destruct (generated_item _ H2 Hin) as [[Hx Hk] | [Hx Hk]].
  - rewrite Hk. split; [exact Hd | congruence].
  - apply expanded_keys_children in Hk. destruct Hk as [Hpx Hk].
    split; [exact (child_sampled shaped _ _ Hk) |].
    intros _. pose proof (child_lower shaped _ _ Hk). specialize (Hh Hpx). lia.
Qed.

Lemma add_parents_returns (parents : list (LayoutItem num)) :
  Forall (fun item => data (node profile (node_key item)) <> []) parents ->
  forall st : LoopState num,
    exists st', for_each (add_parent profile time_scale) parents st = Ok st'.
Proof.
  induction 1 as [| parent_item parents Hd _ IH]; simpl; intros st.
  - exists st. reflexivity.
  - destruct (add_parent_returns parent_item st Hd) as [st1 ->]. simpl. apply IH.
Qed.

(** The loop goes on only above height one. *)
Lemma keep_going_height (bound : nat) (parents : list (LayoutItem num)) :
  ready profile height bound parents ->
  existsb (fun item => existsb (fun k => hasChildren (node profile k))
                               (expanded_keys profile item)) parents = true ->
  (2 <= bound)%nat.
Proof.
  intros Hr He. apply existsb_exists in He. destruct He as [item [Hin He]].
  apply existsb_exists in He. destruct He as [k [Hk Hc]].
  unfold ready in Hr. rewrite Forall_forall in Hr. destruct (Hr item Hin) as [_ Hh].
  apply expanded_keys_children in Hk. destruct Hk as [Hx Hk].
  specialize (Hh Hx). pose proof (child_lower shaped _ _ Hk) as Hlow.
  unfold hasChildren in Hc. destruct (childKeys (node profile k)) as [| c cs] eqn:E;
    [discriminate Hc |].
  assert (Hc' : In c (childKeys (node profile k))) by (rewrite E; left; reflexivity).
  pose proof (child_lower shaped _ _ Hc'). lia.
Qed.

Lemma layout_loop_returns (fuel : nat) :
  forall (bound : nat) (layout : Layout num) (parents : list (LayoutItem num))
         (keep_going : bool),
    ready profile height bound parents ->
    (keep_going = true -> (1 <= bound)%nat) ->
    (bound <= fuel)%nat ->
    exists layout',
      layout_loop fuel profile time_scale (layout ++ [parents]) keep_going = Ok layout'.
Proof.
  induction fuel as [| fuel IH]; intros bound layout parents keep_going Hr Hk Hf.
  - destruct keep_going; [specialize (Hk eq_refl); lia |].
    eexists. reflexivity.
  - destruct keep_going; [| eexists; reflexivity].
    simpl. rewrite layout_column_last.
    destruct (add_parents_returns (parents := parents)) with
      (st := {| cur_span_start := lit_0; cur_children := @nil (LayoutItem num);
                cur_keep_going := false |}) as [st Hst].
    { unfold ready in Hr. eapply Forall_impl; [| exact Hr]. intros ? [H _]. exact H. }
    rewrite Hst. simpl.
    apply add_parents_spec in Hst. simpl in Hst.
    destruct Hst as [groups [Hc [He Hg]]].
    apply (IH (bound - 1)%nat).
    + rewrite Hc. eapply expansions_ready; eassumption.
    + rewrite Hg. intros Hgo. pose proof (keep_going_height Hr Hgo). lia.
    + specialize (Hk eq_refl). lia.
Qed.

End Termination.

(** On a tree of sampled nodes the layout is returned, with no warning, as
    soon as the fuel reaches the height of the root. *)
Lemma layoutProfile_returns {num : Type} {arith : Arith num} (profile : Profile)
    (height : Z -> nat) (fuel : nat) :
  tree_shaped profile height ->
  (height (nodeKey (rootNode profile)) <= fuel)%nat ->
  exists layout : Layout num, layoutProfile fuel profile = Ok (layout, []).
Proof.
  intros Hs Hf. unfold layoutProfile.
  rewrite (root_valid Hs). simpl.
  destruct (is_empty (data (rootNode profile))) eqn:E.
  { destruct (data (rootNode profile)) eqn:E'; [| discriminate E].
    contradiction (root_sampled Hs). }
  destruct (back_nonempty (root_sampled Hs)) as [entry ->]. simpl.
  set (root_item := {| node_key := nodeKey (rootNode profile); exclusive := false;
                       span_start := lit_0; span_end := lit_1 |}).
  assert (Hr : ready profile height (height (nodeKey (rootNode profile))) [root_item]).
  { constructor; [| constructor]. simpl. rewrite (root_known Hs).
    split; [exact (root_sampled Hs) | intros _; apply Nat.le_refl]. }
  assert (Hk : hasChildren (rootNode profile) = true ->
               (1 <= height (nodeKey (rootNode profile)))%nat).
  { intros Hc. unfold hasChildren in Hc.
    destruct (childKeys (rootNode profile)) as [| c cs] eqn:Ec; [discriminate Hc |].
    assert (Hin : In c (childKeys (node profile (nodeKey (rootNode profile)))))
      by (rewrite (root_known Hs), Ec; left; reflexivity).
    pose proof (child_lower Hs _ _ Hin). lia. }
  destruct (layout_loop_returns (of_count (cumulative_inclusive_duration_ns entry))
              Hs [] Hr Hk Hf) as [layout Hl].
  - simpl in Hl. rewrite Hl. simpl. exists layout. reflexivity.
Qed.

(** ** The scenario *)

Example double_of_N_100 : double_of_N 100 = 100%float.
Proof. vm_compute. reflexivity. Qed.

Example double_20_100 : (double_of_N 20 / double_of_N 100)%float = 0.2%float.
Proof. vm_compute. reflexivity. Qed.

(** C1.  Every profile of the scenario's shape is laid out, in double
    precision and with any fuel from one on, in exactly two columns: the
    root item over [0, 1], then the root's exclusive item over [0, 0.2]
    followed by the child over [0.2, 1].  The shape: a valid root, stored
    under its key, whose most recent sample has inclusive duration 100ns and
    exclusive duration 20ns, with exactly one child, whose most recent sample
    has inclusive duration 80ns and which has no children; the keys, the
    names and the earlier samples are free. *)
Theorem layoutProfile_scenario (fuel : nat) (profile : Profile) (rootKey childKey : Z)
    (root_history child_history : list ProfileEntry)
    (root_last child_last : ProfileEntry) :
  isValid (rootNode profile) = true ->
  nodeKey (rootNode profile) = rootKey ->
  node profile rootKey = rootNode profile ->
  childKeys (rootNode profile) = [childKey] ->
  data (rootNode profile) = root_history ++ [root_last] ->
  cumulative_inclusive_duration_ns root_last = 100%N ->
  cumulative_exclusive_duration_ns root_last = 20%N ->
  childKeys (node profile childKey) = [] ->
  data (node profile childKey) = child_history ++ [child_last] ->
  cumulative_inclusive_duration_ns child_last = 80%N ->
  layoutProfile (arith := binary64) (S fuel) profile
  = Ok ([ [ {| node_key := rootKey; exclusive := false;
               span_start := 0%float; span_end := 1%float |} ];
          [ {| node_key := rootKey; exclusive := true;
               span_start := 0%float; span_end := 0.2%float |};
            {| node_key := childKey; exclusive := false;
               span_start := 0.2%float; span_end := 1%float |} ] ],
        []).
Proof.
  intros Hv Hk Hroot Hc Hd Hi He Hcc Hcd Hci.
  unfold layoutProfile. rewrite Hv, Hd, is_empty_last, back_last.
  cbn [negb bind]. rewrite Hi, Hk.
  unfold hasChildren at 1. rewrite Hc. cbn [is_empty negb layout_loop].
  change [[ {| node_key := rootKey; exclusive := false;
               span_start := lit_0; span_end := lit_1 |} ]]
    with ([] ++ [[ {| node_key := rootKey; exclusive := false;
                      span_start := @lit_0 float binary64; span_end := lit_1 |} ]]).
  rewrite layout_column_last. cbn [for_each].
  unfold add_parent. cbn [node_key exclusive].
  rewrite Hroot, Hd, back_last. cbn [bind]. rewrite He, Hc. cbn [bind for_each].
  unfold add_child. rewrite Hcd, back_last. cbn [bind]. rewrite Hci.
  unfold hasChildren. rewrite Hcc.
  cbn [cur_keep_going cur_children cur_span_start span_end is_empty negb orb app].
  destruct fuel; cbn [layout_loop app]; repeat f_equal; vm_compute; reflexivity.
Qed.

(** The theorem on a profile with a history: only the last samples count. *)
Lemma layoutProfile_scenario_history :
  layoutProfile (arith := binary64) 1 Cases.history_profile
  = Ok ([ [ {| node_key := 7; exclusive := false;
               span_start := 0%float; span_end := 1%float |} ];
          [ {| node_key := 7; exclusive := true;
               span_start := 0%float; span_end := 0.2%float |};
            {| node_key := 9; exclusive := false;
               span_start := 0.2%float; span_end := 1%float |} ] ],
        []).
Proof.
  apply (@layoutProfile_scenario 0 Cases.history_profile 7 9
           [ {| cumulative_inclusive_duration_ns := 40;
                cumulative_exclusive_duration_ns := 10 |} ]
           [ {| cumulative_inclusive_duration_ns := 30;
                cumulative_exclusive_duration_ns := 30 |} ]
           {| cumulative_inclusive_duration_ns := 100;
              cumulative_exclusive_duration_ns := 20 |}
           {| cumulative_inclusive_duration_ns := 80;
              cumulative_exclusive_duration_ns := 80 |});
    reflexivity.
Defined.

Lemma two_nodes_tree (child_inclusive : N) :
  tree_shaped (Scenario.two_nodes child_inclusive) Scenario.height.
Proof.
  assert (Hc : forall k c,
             In c (childKeys (node (Scenario.two_nodes child_inclusive) k)) ->
             k = Scenario.rootKey /\ c = Scenario.childKey).
  { intros k c. simpl.
    destruct (Z.eqb_spec k Scenario.rootKey) as [-> | _]; simpl.
    - intros [<- | []]. split; reflexivity.
    - destruct (k =? Scenario.childKey)%Z; simpl; intros []. }
  constructor.
  - reflexivity.
  - discriminate.
  - reflexivity.
  - intros k c H. destruct (Hc k c H) as [-> ->]. discriminate.
  - intros k c H. destruct (Hc k c H) as [-> ->]. vm_compute. lia.
Qed.

Lemma two_nodes_bounded (child_inclusive : N) :
  (child_inclusive <= 80)%N ->
  forall k, bounded_at (Scenario.two_nodes child_inclusive) k.
Proof.
  intros H k. unfold bounded_at. simpl.
  destruct (k =? Scenario.rootKey)%Z; [| destruct (k =? Scenario.childKey)%Z];
    cbn -[N.add N.le]; lia.
Qed.

(** With a root of inclusive duration zero the time scale is zero, and the
    doubles of the second column are not numbers. *)
Example layoutProfile_zero_duration :
  layoutProfile (arith := binary64) 1 Scenario.idle_profile
  = Ok (Scenario.two_columns nan nan, [])
  /\ PrimFloat.leb 0%float nan = false
  /\ PrimFloat.leb nan 1%float = false.
Proof. repeat split; vm_compute; reflexivity. Qed.

(** ** Nothing to lay out *)

(** C2.  A profile whose root node is invalid, or is valid and has no sample,
    is laid out as the empty layout, whatever the fuel and the arithmetic;
    the invalid root is the one that prints a warning. *)
Theorem layoutProfile_empty {num : Type} {arith : Arith num} (fuel : nat)
    (profile : Profile) :
  isValid (rootNode profile) = false
  \/ (isValid (rootNode profile) = true /\ data (rootNode profile) = []) ->
  layoutProfile (num := num) fuel profile
  = Ok ([], if isValid (rootNode profile) then [] else [warn_invalid_root]).
Proof.
  unfold layoutProfile. intros [H | [H E]]; rewrite H; simpl.
  - reflexivity.
  - rewrite E. reflexivity.
Qed.

(** ** The active region *)

Section Locate.

Context {num : Type} {arith : Arith num}.

Local Open Scope arith_scope.

Variable active_node : Z.
Variable size : nat.

Lemma search_rows_none (col : nat) (rows : list (LayoutItem num)) :
  Forall (fun other => node_key other <> active_node) rows ->
  search_rows active_node size col rows = None.
Proof.
  induction 1 as [| other rows Hne _ IH]; simpl; [reflexivity |].
  destruct (Z.eqb_spec active_node (node_key other)) as [E | _]; [| exact IH].
  contradiction Hne. symmetry. exact E.
Qed.

Lemma search_rows_first (col : nat) (above below : list (LayoutItem num))
    (item : LayoutItem num) :
  Forall (fun other => node_key other <> active_node) above ->
  node_key item = active_node ->
  search_rows active_node size col (above ++ item :: below)
  = Some (focus_rect size col item).
Proof.
  intros Ha Hi. induction Ha as [| other above Hne _ IH]; simpl.
  - rewrite Hi, Z.eqb_refl. reflexivity.
  - destruct (Z.eqb_spec active_node (node_key other)) as [E | _]; [| exact IH].
    contradiction Hne. symmetry. exact E.
Qed.

Lemma search_columns_none (columns : Layout num) :
  forall col,
    Forall (Forall (fun other => node_key other <> active_node)) columns ->
    search_columns active_node size col columns = None.
Proof.
  induction columns as [| rows columns IH]; simpl; intros col H; [reflexivity |].
  inversion H; subst. rewrite search_rows_none by assumption. apply IH. assumption.
Qed.

Lemma search_columns_first (before after : Layout num) (rows : list (LayoutItem num))
    (rect : QRectF num) :
  forall col,
    Forall (Forall (fun other => node_key other <> active_node)) before ->
    search_rows active_node size (col + length before) rows = Some rect ->
    search_columns active_node size col (before ++ rows :: after) = Some rect.
Proof.
  induction before as [| c before IH]; simpl; intros col Hb Hr.
  - rewrite Nat.add_0_r in Hr. rewrite Hr. reflexivity.
  - inversion Hb; subst. rewrite search_rows_none by assumption.
    apply IH; [assumption |]. rewrite <- Hr. f_equal. lia.
Qed.

End Locate.


(** [dataRect] at the first item of the active node key. *)
Lemma dataRect_at_first {num : Type} {arith : Arith num} (active_key : DatabaseKey)
    (before after : Layout num) (above below : list (LayoutItem num))
    (item : LayoutItem num) :
  Forall (Forall (fun other => node_key other <> key_nodeKey active_key)) before ->
  Forall (fun other => node_key other <> key_nodeKey active_key) above ->
  node_key item = key_nodeKey active_key ->
  dataRect active_key (before ++ (above ++ item :: below) :: after)
  = (focus_rect (length (before ++ (above ++ item :: below) :: after))
                (length before) item, []).
Proof.
  intros Hb Ha Hi. unfold dataRect.
  erewrite search_columns_first; [reflexivity | exact Hb |].
  simpl. apply search_rows_first; assumption.
Qed.


(** In double precision [x - 0.0] is [x], whatever [x] is. *)
Lemma sub_zero (x : float) : (x - 0)%float = x.
Proof.
  apply Prim2SF_inj. rewrite sub_spec.
  change (Prim2SF 0%float) with (S754_zero false).
  destruct (Prim2SF x) as [[|] | [|] | | s m e]; reflexivity.
Qed.

(** C7.  In a layout with no item of the active node key, [dataRect] prints
    the warning that the key was not found and returns, in double precision,
    exactly the rectangle of the whole layout: its corner is [(0, 0)], its
    width is the number of columns and its height is 1. *)
Theorem dataRect_not_found (active_key : DatabaseKey) (layout : Layout float) :
  Forall (Forall (fun item => node_key item <> key_nodeKey active_key)) layout ->
  dataRect active_key layout
  = ({| xp := 0%float; yp := 0%float;
        w := double_of_N (N.of_nat (length layout)); h := 1%float |},
     [warn_not_found]).
Proof.
  intros H. unfold dataRect. rewrite search_columns_none by exact H.
  unfold full_rect, QRectF_of_points. cbn [px py].
  change (@sub float binary64) with PrimFloat.sub.
  change (@of_count float binary64) with double_of_N.
  change (@lit_0 float binary64) with 0%float.
  change (@lit_1 float binary64) with 1%float.
  rewrite sub_zero. reflexivity.
Qed.

(** Witnesses on the scenario. *)

Lemma layoutProfile_empty_scenario :
  layoutProfile (arith := binary64) 0 Scenario.invalid_profile
  = Ok ([], [warn_invalid_root])
  /\ layoutProfile (arith := binary64) 0 Scenario.unsampled_profile = Ok ([], []).
Proof.
  split.
  - apply (layoutProfile_empty (arith := binary64) 0 Scenario.invalid_profile).
    left. reflexivity.
  - apply (layoutProfile_empty (arith := binary64) 0 Scenario.unsampled_profile).
    right. split; reflexivity.
Defined.

Example dataRect_child :
  dataRect (ValidKey 0 Scenario.childKey) Scenario.layout
  = ({| xp := 0.8%float; yp := 0.16%float; w := 1.2%float;
        h := 0.83999999999999997%float |}, []).
Proof. vm_compute. reflexivity. Qed.


Lemma dataRect_not_found_scenario :
  dataRect (ValidKey 0 7) Scenario.layout
  = ({| xp := 0%float; yp := 0%float; w := 2%float; h := 1%float |},
     [warn_not_found]).
Proof.
  rewrite (dataRect_not_found (ValidKey 0 7) (layout := Scenario.layout)).
  - vm_compute. reflexivity.
  - repeat constructor; discriminate.
Defined.

(** ** The handlers *)

Section HandlerFacts.

Context {num : Type} {arith : Arith num}.

Variable heap : Databases.
Variable fuel : nat.

Lemma key_eqb_eq (a b : DatabaseKey) : key_eqb a b = true <-> a = b.
Proof.
  destruct a as [| p n], b as [| p' n']; simpl; split; intros H;
    try reflexivity; try discriminate.
  - apply andb_true_iff in H. destruct H as [H1 H2].
    apply Z.eqb_eq in H1, H2. subst. reflexivity.
  - injection H as <- <-. rewrite !Z.eqb_refl. reflexivity.
Qed.

(** [updateData] with a valid active key and a layout that builds. *)
Lemma updateData_rebuilds (widget : PartitionWidget num) (db : N)
    (layout : Layout num) (warnings : list string) :
  key_isValid (active_key_ widget) = true ->
  db_ widget = Some db ->
  layoutProfile fuel (heap db (key_profileKey (active_key_ widget)))
  = Ok (layout, warnings) ->
  updateData heap fuel widget
  = Ok {| db_ := db_ widget;
          active_key_ := active_key_ widget;
          current_layout_ := layout;
          view_animator_ :=
            setEndValue (Some (fst (dataRect (active_key_ widget) layout)))
                        (view_animator_ widget);
          connections_ := connections_ widget;
          warnings_ := warnings_ widget ++ warnings
                       ++ snd (dataRect (active_key_ widget) layout);
          updates_ := S (updates_ widget) |}.
Proof.
  intros Hv Hd Hl. unfold updateData. rewrite Hv, Hd, Hl. reflexivity.
Qed.

(** Each of the three signals of the bound database runs [updateData] once. *)
Lemma emit_updateData (widget : PartitionWidget num) (db : N) (sig : Signal) :
  connections_ widget = connected_to db ->
  emit heap fuel db sig widget = updateData heap fuel widget.
Proof.
  intros Hc. unfold emit. rewrite Hc. simpl. rewrite N.eqb_refl.
  destruct sig; simpl; destruct (updateData heap fuel widget); reflexivity.
Qed.

End HandlerFacts.

(** C9, amended.  When [setActiveNode] is called with a new key while the
    active key is valid, whether or not a transition is running, for a
    profile that is a tree of sampled nodes, the layout is built and the
    transition is restarted: it starts from the end value of the animator at
    the call, ends at the rectangle located in the new layout, lasts 500ms
    and runs from progress 0. *)
Theorem setActiveNode_transition {num : Type} {arith : Arith num}
    (heap : Databases) (fuel : nat) (profile_key node_key : Z)
    (widget : PartitionWidget num) (db : N) (height : Z -> nat) :
  key_isValid (active_key_ widget) = true ->
  ValidKey profile_key node_key <> active_key_ widget ->
  db_ widget = Some db ->
  tree_shaped (heap db profile_key) height ->
  (height (nodeKey (rootNode (heap db profile_key))) <= fuel)%nat ->
  exists layout widget',
    layoutProfile fuel (heap db profile_key) = Ok (layout, [])
    /\ setActiveNode heap fuel profile_key node_key widget = Ok widget'
    /\ active_key_ widget' = ValidKey profile_key node_key
    /\ current_layout_ widget' = layout
    /\ startValue (view_animator_ widget') = endValue (view_animator_ widget)
    /\ endValue (view_animator_ widget')
       = Some (fst (dataRect (ValidKey profile_key node_key) layout))
    /\ duration (view_animator_ widget') = 500%Z
    /\ progress (view_animator_ widget') = lit_0
    /\ state (view_animator_ widget') = Running.
Proof.
  intros Hv Hne Hd Hs Hf.
  destruct (layoutProfile_returns (num := num) Hs Hf) as [layout Hl].
  exists layout. unfold setActiveNode.
  destruct (key_eqb (ValidKey profile_key node_key) (active_key_ widget)) eqn:E.
  { apply key_eqb_eq in E. contradiction. }
  rewrite Hd, Hv. cbn [key_profileKey]. rewrite Hl. cbn [bind negb fst snd].
  eexists. split; [reflexivity |]. split; [reflexivity |]. cbn. repeat split.
Qed.

(** C10, amended.  For a widget bound to a database, each of the three
    signals of that database runs [updateData] once.  While the active key
    is invalid the widget is left as it is.  With a valid active key, for an
    active profile that is a tree of sampled nodes, the layout is built from
    the profile as the database has it now and replaces the old one, the end
    value of the animator is set to the rectangle located in it, the start
    value and the active key stay, and a repaint is asked for. *)
Theorem emit_rebuilds {num : Type} {arith : Arith num}
    (heap : Databases) (fuel : nat) (sig : Signal)
    (widget : PartitionWidget num) (db : N) (height : Z -> nat) :
  db_ widget = Some db ->
  connections_ widget = connected_to db ->
  (key_isValid (active_key_ widget) = false ->
   emit heap fuel db sig widget = Ok widget)
  /\ (key_isValid (active_key_ widget) = true ->
      tree_shaped (heap db (key_profileKey (active_key_ widget))) height ->
      (height (nodeKey (rootNode (heap db (key_profileKey (active_key_ widget)))))
       <= fuel)%nat ->
      exists layout widget',
        layoutProfile fuel (heap db (key_profileKey (active_key_ widget)))
        = Ok (layout, [])
        /\ emit heap fuel db sig widget = Ok widget'
        /\ current_layout_ widget' = layout
        /\ endValue (view_animator_ widget')
           = Some (fst (dataRect (active_key_ widget) layout))
        /\ startValue (view_animator_ widget') = startValue (view_animator_ widget)
        /\ active_key_ widget' = active_key_ widget
        /\ updates_ widget' = S (updates_ widget)).
Proof.
  intros Hd Hc. rewrite emit_updateData by exact Hc. split.
  - intros Hv. unfold updateData. rewrite Hv. reflexivity.
  - intros Hv Hs Hf.
    destruct (layoutProfile_returns (num := num) Hs Hf) as [layout Hl].
    exists layout. erewrite updateData_rebuilds by eassumption.
    eexists. split; [exact Hl |]. split; [reflexivity |]. cbn. repeat split.
Qed.

(** Witnesses and counterexamples on the scenario. *)

Lemma setActiveNode_transition_scenario :
  exists layout widget',
    layoutProfile 1 (Scenario.heap 0%N 0%Z) = Ok (layout, [])
    /\ setActiveNode Scenario.heap 1 0 Scenario.childKey Scenario.root_focused = Ok widget'
    /\ active_key_ widget' = ValidKey 0 Scenario.childKey
    /\ current_layout_ widget' = layout
    /\ startValue (view_animator_ widget')
       = endValue (view_animator_ Scenario.root_focused)
    /\ endValue (view_animator_ widget')
       = Some (fst (dataRect (ValidKey 0 Scenario.childKey) layout))
    /\ duration (view_animator_ widget') = 500%Z
    /\ progress (view_animator_ widget') = 0%float
    /\ state (view_animator_ widget') = Running.
Proof.
  refine (@setActiveNode_transition float binary64 Scenario.heap 1
            0%Z Scenario.childKey Scenario.root_focused 0%N Scenario.height
            _ _ _ _ _).
  - reflexivity.
  - discriminate.
  - reflexivity.
  - apply two_nodes_tree.
  - vm_compute. apply le_n.
Defined.

(** C9 as stated fails.  The root is focused, the child is asked for and the
    transition from the root's rectangle to the child's is half way, at the
    rectangle in between.  Asking for the root now starts the new transition
    at the child's rectangle, the end value of the one under way, and not at
    the rectangle in between. *)
Lemma setActiveNode_restarts_from_end :
  state (view_animator_ Scenario.half_way) = Running
  /\ startValue (view_animator_ Scenario.half_way) = Some Scenario.root_rect
  /\ endValue (view_animator_ Scenario.half_way) = Some Scenario.child_rect
  /\ currentValue (view_animator_ Scenario.half_way)
     = Some {| xp := 0.4%float; yp := 0.08%float; w := 1.6%float; h := 0.92%float |}
  /\ exists widget',
       setActiveNode Scenario.heap 1 0 Scenario.rootKey Scenario.half_way = Ok widget'
       /\ startValue (view_animator_ widget') = Some Scenario.child_rect
       /\ endValue (view_animator_ widget') = Some Scenario.root_rect.
Proof.
  repeat (split; [vm_compute; reflexivity |]).
  eexists. split; [vm_compute; reflexivity |].
  split; vm_compute; reflexivity.
Qed.

Lemma emit_rebuilds_scenario :
  emit Scenario.heap 1 0 profileAdded Scenario.bound_widget = Ok Scenario.bound_widget
  /\ exists layout widget',
       layoutProfile 1 (Scenario.heap 0%N 0%Z) = Ok (layout, [])
       /\ emit Scenario.heap 1 0 nodesAdded Scenario.root_focused = Ok widget'
       /\ current_layout_ widget' = layout
       /\ endValue (view_animator_ widget')
          = Some (fst (dataRect (active_key_ Scenario.root_focused) layout))
       /\ startValue (view_animator_ widget')
          = startValue (view_animator_ Scenario.root_focused)
       /\ active_key_ widget' = active_key_ Scenario.root_focused
       /\ updates_ widget' = S (updates_ Scenario.root_focused).
Proof.
  split.
  - refine (proj1 (@emit_rebuilds float binary64 Scenario.heap 1 profileAdded
                     Scenario.bound_widget 0%N Scenario.height _ _) _); reflexivity.
  - refine (proj2 (@emit_rebuilds float binary64 Scenario.heap 1 nodesAdded
                     Scenario.root_focused 0%N Scenario.height _ _) _ _ _);
      [reflexivity | reflexivity | reflexivity | apply two_nodes_tree
       | vm_compute; apply le_n].
Defined.

(** C10 as stated fails.  Before any node is made active the database holds
    a profile that lays out in two columns, and each of its three signals
    reaches [updateData]; the widget is left as it was: no layout, no end
    value for the animator, no repaint asked for. *)
Lemma emit_without_active_key :
  layoutProfile 1 (Scenario.heap 0%N 0%Z) = Ok (Scenario.layout, [])
  /\ emit Scenario.heap 1 0 dataAdded Scenario.bound_widget = Ok Scenario.bound_widget
  /\ emit Scenario.heap 1 0 profileAdded Scenario.bound_widget = Ok Scenario.bound_widget
  /\ emit Scenario.heap 1 0 nodesAdded Scenario.bound_widget = Ok Scenario.bound_widget
  /\ current_layout_ Scenario.bound_widget = []
  /\ endValue (view_animator_ Scenario.bound_widget) = None.
Proof. repeat split; vm_compute; reflexivity. Qed.

(** * More of the widget *)

(** ** Colours *)

(** X1.  Whatever the hash of the name, [colorFromString] gives a valid HSV
    colour: the hue is in [[0, 254]], never in [[255, 359]], and the
    saturation and the value are in [[55, 254]]. *)
Theorem colorFromString_in_range (std_hash : string -> N) (label : string) :
  exists h s v,
    colorFromString std_hash label = Hsv h s v
    /\ (0 <= h < 255)%Z /\ (55 <= s < 255)%Z /\ (55 <= v < 255)%Z.
Proof.
  unfold colorFromString.
  set (nh := std_hash label).
  assert (Hh : (N.shiftr nh 0 mod 255 < 255)%N) by (apply N.mod_lt; discriminate).
  assert (Hs : (N.shiftr nh 8 mod 200 < 200)%N) by (apply N.mod_lt; discriminate).
  assert (Hv : (N.shiftr nh 16 mod 200 < 200)%N) by (apply N.mod_lt; discriminate).
  set (h := (N.shiftr nh 0 mod 255)%N) in *.
  set (s := (N.shiftr nh 8 mod 200)%N) in *.
  set (v := (N.shiftr nh 16 mod 200)%N) in *.
  exists (Z.of_N h), (Z.of_N (s + 55)), (Z.of_N (v + 55)).
  split; [| lia].
  unfold fromHsv.
  replace (Z.of_N h <? 0)%Z with false by (symmetry; apply Z.ltb_ge; lia).
  replace (360 <=? Z.of_N h)%Z with false by (symmetry; apply Z.leb_gt; lia).
  replace (Z.of_N (s + 55) <? 0)%Z with false by (symmetry; apply Z.ltb_ge; lia).
  replace (255 <? Z.of_N (s + 55))%Z with false by (symmetry; apply Z.ltb_ge; lia).
  replace (Z.of_N (v + 55) <? 0)%Z with false by (symmetry; apply Z.ltb_ge; lia).
  replace (255 <? Z.of_N (v + 55))%Z with false by (symmetry; apply Z.ltb_ge; lia).
  reflexivity.
Qed.

Example colorFromString_root :
  colorFromString Cases.code_sum "root" = Hsv 197 56 55.
Proof. vm_compute. reflexivity. Qed.

(** ** Binding the database *)

(** X2.  The first database that is not null is the one the widget keeps.
    Once [setDatabase] has been called with a database, calling it again,
    with the same database, another one or a null pointer, keeps the binding
    and the connections and asks for no repaint: the widget is as it was,
    with one more warning.  A call with a null pointer on a new widget binds
    nothing, connects nothing and prints no warning of the widget, so that
    the call after it is the one that binds. *)
Theorem setDatabase_again {num : Type} {arith : Arith num} (db : N) (db' : option N)
    (widget : PartitionWidget num) :
  setDatabase db' (setDatabase (Some db) widget)
  = {| db_ := db_ (setDatabase (Some db) widget);
       active_key_ := active_key_ (setDatabase (Some db) widget);
       current_layout_ := current_layout_ (setDatabase (Some db) widget);
       view_animator_ := view_animator_ (setDatabase (Some db) widget);
       connections_ := connections_ (setDatabase (Some db) widget);
       warnings_ := warnings_ (setDatabase (Some db) widget) ++ [warn_rebind];
       updates_ := updates_ (setDatabase (Some db) widget) |}
  /\ db_ (setDatabase (Some db) widget) <> None
  /\ setDatabase (Some db) (setDatabase None (new_PartitionWidget (num := num)))
     = {| db_ := Some db;
          active_key_ := InvalidKey;
          current_layout_ := [];
          view_animator_ := view_animator_ (new_PartitionWidget (num := num));
          connections_ := connected_to db;
          warnings_ := [];
          updates_ := 2 |}.
Proof.
  assert (H : exists bound, db_ (setDatabase (Some db) widget) = Some bound).
  { unfold setDatabase. destruct (db_ widget) as [bound |] eqn:E; simpl.
    - exists bound. reflexivity.
    - exists db. reflexivity. }
  destruct H as [bound Hb]. split; [| split].
  - unfold setDatabase at 1. rewrite Hb. reflexivity.
  - rewrite Hb. discriminate.
  - reflexivity.
Qed.

(** ** Asking for a node *)

Section MoreHandlerFacts.

Context {num : Type} {arith : Arith num}.

Lemma key_eqb_refl (k : DatabaseKey) : key_eqb k k = true.
Proof. apply key_eqb_eq. reflexivity. Qed.

(** What [setActiveNode] returns when the key is new and the layout builds. *)
Lemma setActiveNode_builds (heap : Databases) (fuel : nat) (profile_key node_key : Z)
    (widget : PartitionWidget num) (db : N) (layout : Layout num)
    (warnings : list string) :
  key_eqb (ValidKey profile_key node_key) (active_key_ widget) = false ->
  db_ widget = Some db ->
  layoutProfile fuel (heap db profile_key) = Ok (layout, warnings) ->
  setActiveNode heap fuel profile_key node_key widget
  = Ok {| db_ := db_ widget;
          active_key_ := ValidKey profile_key node_key;
          current_layout_ := layout;
          view_animator_ :=
            if key_isValid (active_key_ widget) then
              start (setDuration 500
                       (setEndValue
                          (Some (fst (dataRect (ValidKey profile_key node_key) layout)))
                          (setStartValue (endValue (stop (view_animator_ widget)))
                                         (stop (view_animator_ widget)))))
            else
              setEndValue (Some (fst (dataRect (ValidKey profile_key node_key) layout)))
                (setStartValue
                   (Some (fst (dataRect (ValidKey profile_key node_key) layout)))
                   (view_animator_ widget));
          connections_ := connections_ widget;
          warnings_ := warnings_ widget ++ warnings
                       ++ snd (dataRect (ValidKey profile_key node_key) layout);
          updates_ := updates_ widget |}.
Proof.
  intros He Hd Hl. unfold setActiveNode. rewrite He, Hd.
  cbn [key_profileKey]. rewrite Hl. cbn [bind fst snd].
  destruct (key_isValid (active_key_ widget)); reflexivity.
Qed.

(** The key that [setActiveNode] leaves active. *)
Lemma setActiveNode_active_key (heap : Databases) (fuel : nat) (profile_key node_key : Z)
    (widget widget' : PartitionWidget num) :
  setActiveNode heap fuel profile_key node_key widget = Ok widget' ->
  active_key_ widget' = ValidKey profile_key node_key.
Proof.
  unfold setActiveNode.
  destruct (key_eqb (ValidKey profile_key node_key) (active_key_ widget)) eqn:E.
  - intros H. injection H as <-. apply key_eqb_eq in E. symmetry. exact E.
  - destruct (db_ widget); [| discriminate].
    intros H. apply bind_Ok in H. destruct H as [built [_ H]].
    injection H as <-. reflexivity.
Qed.

End MoreHandlerFacts.

(** X3.  After [setActiveNode] has returned for a key, asking for the same
    key again changes nothing, whatever the databases hold by then: no
    layout is built and no transition is started. *)
Theorem setActiveNode_same_key {num : Type} {arith : Arith num}
    (heap heap' : Databases) (fuel fuel' : nat) (profile_key node_key : Z)
    (widget widget' : PartitionWidget num) :
  setActiveNode heap fuel profile_key node_key widget = Ok widget' ->
  setActiveNode heap' fuel' profile_key node_key widget' = Ok widget'.
Proof.
  intros H. apply setActiveNode_active_key in H.
  unfold setActiveNode. rewrite H, key_eqb_refl. reflexivity.
Qed.

(** X4.  The first node asked for, the active key being invalid, is shown
    at once: the start and the end value of the animator are both the
    rectangle located in the new layout, and the animator is not started
    (its state, progress and duration stay). *)
Theorem setActiveNode_first {num : Type} {arith : Arith num}
    (heap : Databases) (fuel : nat) (profile_key node_key : Z)
    (widget : PartitionWidget num) (db : N) (layout : Layout num)
    (warnings : list string) :
  key_isValid (active_key_ widget) = false ->
  db_ widget = Some db ->
  layoutProfile fuel (heap db profile_key) = Ok (layout, warnings) ->
  exists widget',
    setActiveNode heap fuel profile_key node_key widget = Ok widget'
    /\ active_key_ widget' = ValidKey profile_key node_key
    /\ current_layout_ widget' = layout
    /\ startValue (view_animator_ widget')
       = Some (fst (dataRect (ValidKey profile_key node_key) layout))
    /\ endValue (view_animator_ widget')
       = Some (fst (dataRect (ValidKey profile_key node_key) layout))
    /\ state (view_animator_ widget') = state (view_animator_ widget)
    /\ progress (view_animator_ widget') = progress (view_animator_ widget)
    /\ duration (view_animator_ widget') = duration (view_animator_ widget).
Proof.
  intros Hv Hd Hl.
  assert (He : key_eqb (ValidKey profile_key node_key) (active_key_ widget) = false).
  { destruct (active_key_ widget); [reflexivity | discriminate Hv]. }
  erewrite setActiveNode_builds by eassumption. rewrite Hv.
  eexists. split; [reflexivity |]. cbn. repeat split.
Qed.

(** X5.  While the active key is invalid no signal changes the widget,
    whoever emits it and whatever is connected. *)
Theorem emit_inactive {num : Type} {arith : Arith num}
    (heap : Databases) (fuel : nat) (from : N) (sig : Signal)
    (widget : PartitionWidget num) :
  key_isValid (active_key_ widget) = false ->
  emit heap fuel from sig widget = Ok widget.
Proof.
  intros Hv. unfold emit.
  induction (connections_ widget) as [| c connections IH]; [reflexivity |].
  simpl. destruct ((sender c =? from)%N && Signal_eqb (signal c) sig).
  - destruct (receiver_slot c). simpl. unfold updateData at 1. rewrite Hv. simpl. exact IH.
  - simpl. exact IH.
Qed.

(** ** The shape of a layout, for any arithmetic *)

Section ShapeFacts.

Context {num : Type} {arith : Arith num}.

Variable profile : Profile.
Variable time_scale : num.

Lemma generated_nonempty (parent_item : LayoutItem num) (from to : num)
    (group : list (LayoutItem num)) :
  generated profile time_scale parent_item from group to -> group <> [].
Proof. intros [_ [_ [Hk _]]] ->. discriminate Hk. Qed.

Lemma expansions_nonempty (parents : list (LayoutItem num)) :
  forall from groups to,
    expansions profile time_scale from parents groups to ->
    parents <> [] -> concat groups <> [].
Proof.
  intros from groups to He Hne. inversion He; subst; [contradiction Hne; reflexivity |].
  simpl. pose proof (generated_nonempty H) as Hg.
  destruct group; [contradiction Hg; reflexivity | discriminate].
Qed.

(** The keys and the flags of a derived column. *)
Lemma expansions_shape (parents : list (LayoutItem num)) :
  forall from groups to,
    expansions profile time_scale from parents groups to ->
    map (@node_key num) (concat groups)
    = flat_map (fun item => node_key item :: expanded_keys profile item) parents
    /\ map (@exclusive num) (concat groups)
       = flat_map (fun item => true :: map (fun _ => false) (expanded_keys profile item))
                  parents.
Proof.
  induction parents as [| parent_item parents IH]; intros from groups to He;
    inversion He; subst; simpl; [split; reflexivity |].
  destruct (IH _ _ _ H5) as [Hk Hx]. destruct H2 as [_ [_ [Hk' Hx']]].
  rewrite !map_app, Hk, Hx, Hk', Hx'. split; reflexivity.
Qed.

Lemma children_expandable (group : list (LayoutItem num)) :
  forall keys,
    map (@node_key num) group = keys ->
    map (@exclusive num) group = map (fun _ => false) keys ->
    existsb (expandable profile) group
    = existsb (fun k => hasChildren (node profile k)) keys.
Proof.
  induction group as [| item group IH]; simpl; intros keys Hk Hx; subst keys;
    [reflexivity |].
  simpl in *. injection Hx as Hx0 Hx. rewrite (IH _ eq_refl Hx).
  unfold expandable. rewrite Hx0. reflexivity.
Qed.

(** A derived column has an expandable item exactly when a child key of a
    non-exclusive parent names a node with children. *)
Lemma expansions_expandable (parents : list (LayoutItem num)) :
  forall from groups to,
    expansions profile time_scale from parents groups to ->
    existsb (expandable profile) (concat groups)
    = existsb (fun item => existsb (fun k => hasChildren (node profile k))
                                   (expanded_keys profile item)) parents.
Proof.
  induction parents as [| parent_item parents IH]; intros from groups to He;
    inversion He; subst; simpl; [reflexivity |].
  rewrite existsb_app, (IH _ _ _ H5). f_equal.
  destruct H2 as [_ [_ [Hk Hx]]].
  destruct group as [| first group]; [discriminate Hk |].
  simpl in Hk, Hx. injection Hk as _ Hk. injection Hx as Hx0 Hx.
  simpl. rewrite (children_expandable _ Hk Hx).
  unfold expandable. rewrite Hx0. reflexivity.
Qed.

(** The loop ends on the first column with no expandable item. *)
Lemma layout_loop_exit (fuel : nat) :
  forall (layout : Layout num) (parents : list (LayoutItem num)) (keep_going : bool)
         (layout' : Layout num),
    layout_loop fuel profile time_scale (layout ++ [parents]) keep_going = Ok layout' ->
    keep_going = existsb (expandable profile) parents ->
    Forall (fun column => existsb (expandable profile) column = true) layout ->
    exists front last,
      layout' = front ++ [last]
      /\ Forall (fun column => existsb (expandable profile) column = true) front
      /\ existsb (expandable profile) last = false.
Proof.
  induction fuel as [| fuel IH]; intros layout parents keep_going layout' H Hk Hf.
  - simpl in H. destruct keep_going; [discriminate |].
    injection H as <-. exists layout, parents. repeat split; [exact Hf | congruence].
  - simpl in H. destruct keep_going.
    + apply bind_Ok in H. destruct H as [st [Hc H]].
      rewrite layout_column_last in Hc.
      apply add_parents_spec in Hc. simpl in Hc.
      destruct Hc as [groups [Hc [Hexp Hg]]].
      eapply IH; [exact H | |].
      * rewrite Hg, Hc. symmetry. eapply expansions_expandable. exact Hexp.
      * apply Forall_app. split; [exact Hf |]. constructor; [congruence | constructor].
    + injection H as <-. exists layout, parents. repeat split; [exact Hf | congruence].
Qed.

(** A child key without a sample stops the loop over the child keys. *)
Lemma add_children_undefined (keys : list Z) (c : Z) :
  In c keys ->
  data (node profile c) = [] ->
  forall st : LoopState num,
    for_each (add_child profile time_scale) keys st = Undefined.
Proof.
  intros Hin Hd. induction keys as [| key keys IH]; [contradiction Hin |].
  intros st. simpl. unfold add_child at 1.
  destruct Hin as [-> | Hin].
  - rewrite Hd. reflexivity.
  - destruct (data (node profile key)) as [| e es] eqn:E; [reflexivity |].
    destruct (@back_nonempty _ (e :: es)) as [entry ->]; [discriminate |].
    simpl. apply IH. exact Hin.
Qed.

End ShapeFacts.

(** X6.  A layout that is returned is empty, for a root that is invalid or
    has no sample, or starts with the column of the root alone: one
    non-exclusive item with the key of the root, from 0 to 1. *)
Theorem layoutProfile_first_column {num : Type} {arith : Arith num} (fuel : nat)
    (profile : Profile) (layout : Layout num) (warnings : list string) :
  layoutProfile fuel profile = Ok (layout, warnings) ->
  (layout = []
   /\ (isValid (rootNode profile) = false \/ data (rootNode profile) = []))
  \/ (isValid (rootNode profile) = true
      /\ data (rootNode profile) <> []
      /\ warnings = []
      /\ exists more,
           layout = [ {| node_key := nodeKey (rootNode profile); exclusive := false;
                         span_start := lit_0; span_end := lit_1 |} ] :: more).
Proof.
  intros H. unfold layoutProfile in H.
  destruct (isValid (rootNode profile)); simpl in H.
  2: { injection H as <- _. left. split; [reflexivity | left; reflexivity]. }
  destruct (data (rootNode profile)) as [| e es] eqn:E; simpl in H.
  { injection H as <- _. left. split; [reflexivity | right; reflexivity]. }
  right.
  apply bind_Ok in H. destruct H as [entry [_ H]].
  apply bind_Ok in H. destruct H as [layout0 [Hloop H]]. injection H as <- <-.
  apply (layout_loop_spec _ _ _ []) in Hloop; [| exact I].
  destruct Hloop as [_ [more Hm]]. simpl in Hm.
  repeat split; [discriminate |]. exists more. exact Hm.
Qed.

(** X7.  Every column of a returned layout has an item, starts at 0 and is
    contiguous from its first item to its last: each item ends exactly where
    the next one starts, across the groups of the parents too. *)
Theorem layoutProfile_columns_contiguous {num : Type} {arith : Arith num} (fuel : nat)
    (profile : Profile) (layout : Layout num) (warnings : list string) :
  layoutProfile fuel profile = Ok (layout, warnings) ->
  Forall (fun column =>
            exists first rest,
              column = first :: rest
              /\ span_start first = lit_0
              /\ contiguous column) layout.
Proof.
  intros H. apply layoutProfile_spec in H.
  destruct H as [-> | [entry [more [_ [_ [_ [-> Hl]]]]]]]; [constructor |].
  set (time_scale := of_count (cumulative_inclusive_duration_ns entry)) in *.
  pose (Q := fun column : list (LayoutItem num) =>
               column <> [] /\ exists to, linked lit_0 column to).
  assert (HQ : Forall Q ([ {| node_key := nodeKey (rootNode profile); exclusive := false;
                              span_start := lit_0; span_end := lit_1 |} ] :: more)).
  { apply (layered_Forall (profile := profile) (time_scale := time_scale)); [| exact Hl |].
    - intros parents children [Hne _] [groups [to [-> He]]]. split.
      + eapply expansions_nonempty; eassumption.
      + exists to. exact (proj1 (expansions_linked He)).
    - split; [discriminate |]. exists lit_1. simpl. split; reflexivity. }
  eapply Forall_impl; [| exact HQ].
  intros column [Hne [to Hlk]].
  destruct column as [| first rest]; [contradiction Hne; reflexivity |].
  exists first, rest. split; [reflexivity |].
  split; [exact (proj1 Hlk) | eapply linked_contiguous; exact Hlk].
Qed.

(** X8.  The keys and the flags of a column follow from the column before
    it: each item of that column, exclusive or not, gives one exclusive item
    with its key, followed, if it is not exclusive, by one non-exclusive
    item per child key of its node, in order. *)
Theorem layoutProfile_next_column {num : Type} {arith : Arith num} (fuel : nat)
    (profile : Profile) (layout : Layout num) (warnings : list string) (i : nat)
    (parents children : list (LayoutItem num)) :
  layoutProfile fuel profile = Ok (layout, warnings) ->
  nth_error layout i = Some parents ->
  nth_error layout (S i) = Some children ->
  map (@node_key num) children
  = flat_map (fun item => node_key item :: expanded_keys profile item) parents
  /\ map (@exclusive num) children
     = flat_map (fun item => true :: map (fun _ => false) (expanded_keys profile item))
                parents.
Proof.
  intros Hrun Hi Hsi. apply layoutProfile_spec in Hrun.
  destruct Hrun as [-> | [entry [more [_ [_ [_ [-> Hl]]]]]]];
    [destruct i; discriminate Hi |].
  assert (Hex : expands profile (of_count (cumulative_inclusive_duration_ns entry))
                        parents children)
    by (eapply layered_nth; eassumption).
  destruct Hex as [groups [to [-> He]]].
  eapply expansions_shape. exact He.
Qed.

(** X9.  When the root is the node of its own key, the layout stops at the
    first column whose non-exclusive items are all leaves: every column
    before the last has a non-exclusive item whose node has children, and
    the last column has none. *)
Theorem layoutProfile_last_column {num : Type} {arith : Arith num} (fuel : nat)
    (profile : Profile) (layout : Layout num) (warnings : list string) :
  layoutProfile fuel profile = Ok (layout, warnings) ->
  node profile (nodeKey (rootNode profile)) = rootNode profile ->
  layout = []
  \/ exists front last,
       layout = front ++ [last]
       /\ Forall (Exists (fun item => exclusive item = false
                                      /\ hasChildren (node profile (node_key item)) = true))
                 front
       /\ Forall (fun item => exclusive item = false ->
                              hasChildren (node profile (node_key item)) = false) last.
Proof.
  intros H Hroot. unfold layoutProfile in H.
  destruct (isValid (rootNode profile)); simpl in H;
    [| injection H as <- _; left; reflexivity].
  destruct (is_empty (data (rootNode profile)));
    [injection H as <- _; left; reflexivity |].
  apply bind_Ok in H. destruct H as [entry [_ H]].
  apply bind_Ok in H. destruct H as [layout0 [Hloop H]]. injection H as <- _.
  right.
  apply layout_loop_exit with (layout := []) in Hloop.
  - destruct Hloop as [front [last [-> [Hf Hlast]]]]. exists front, last.
    split; [reflexivity |]. split.
    + eapply Forall_impl; [| exact Hf]. intros column Hc.
      apply existsb_exists in Hc. destruct Hc as [item [Hin Hc]].
      apply Exists_exists. exists item. split; [exact Hin |].
      unfold expandable in Hc. apply andb_true_iff in Hc. destruct Hc as [Hx Hc].
      split; [destruct (exclusive item); [discriminate Hx | reflexivity] | exact Hc].
    + apply Forall_forall. intros item Hin Hx.
      destruct (hasChildren (node profile (node_key item))) eqn:Hc; [| reflexivity].
      assert (Ht : existsb (expandable profile) last = true).
      { apply existsb_exists. exists item. split; [exact Hin |].
        unfold expandable. rewrite Hx, Hc. reflexivity. }
      congruence.
  - simpl. unfold expandable. simpl. rewrite Hroot, orb_false_r. reflexivity.
  - constructor.
Qed.

(** X10.  [back()] is guarded for the root only.  When the root is valid,
    has a sample and is the node of its own key, and one of its child keys
    names a node without a sample (as a key that the profile does not have),
    the first pass of the loop reads [back()] of an empty vector: the call
    is undefined. *)
Theorem layoutProfile_unsampled_child {num : Type} {arith : Arith num} (fuel : nat)
    (profile : Profile) (c : Z) :
  isValid (rootNode profile) = true ->
  data (rootNode profile) <> [] ->
  node profile (nodeKey (rootNode profile)) = rootNode profile ->
  In c (childKeys (rootNode profile)) ->
  data (node profile c) = [] ->
  layoutProfile (num := num) (S fuel) profile = Undefined.
Proof.
  intros Hv Hd Hroot Hin Hc. unfold layoutProfile. rewrite Hv. simpl.
  destruct (data (rootNode profile)) as [| e es] eqn:E; [contradiction Hd; reflexivity |].
  simpl is_empty. cbv iota.
  destruct (@back_nonempty _ (e :: es)) as [entry Hb]; [discriminate |].
  rewrite Hb. cbn [bind].
  assert (Hk : hasChildren (rootNode profile) = true).
  { unfold hasChildren. destruct (childKeys (rootNode profile)); [contradiction Hin | reflexivity]. }
  rewrite Hk. cbn [layout_loop].
  change [[ {| node_key := nodeKey (rootNode profile); exclusive := false;
               span_start := lit_0; span_end := lit_1 |} ]]
    with ([] ++ [[ {| node_key := nodeKey (rootNode profile); exclusive := false;
                      span_start := @lit_0 num arith; span_end := lit_1 |} ]]).
  rewrite layout_column_last. cbn [for_each].
  unfold add_parent at 1. cbn [node_key exclusive]. rewrite Hroot, E, Hb. cbn [bind].
  erewrite add_children_undefined by eassumption. reflexivity.
Qed.

(** ** Locating, again *)

(** The root item is the first item of its key in a layout that starts with
    its column. *)
Lemma dataRect_root {num : Type} {arith : Arith num} (profile_key : Z)
    (root_item : LayoutItem num) (more : Layout num) :
  dataRect (ValidKey profile_key (node_key root_item)) ([root_item] :: more)
  = (focus_rect (length ([root_item] :: more)) 0 root_item, []).
Proof.
  apply (dataRect_at_first (ValidKey profile_key (node_key root_item))
           (before := []) more (above := []) [] root_item);
    [constructor | constructor | reflexivity].
Qed.

(** The three clamped edges of the rectangle of the root item, in double
    precision. *)
Example focus_root_left :
  std_max (arith := binary64) 0%float (double_of_N (N.of_nat 0) - 0.2)%float = 0%float.
Proof. vm_compute. reflexivity. Qed.

Example focus_root_top :
  std_max (arith := binary64) (0 - 0.05 * (1 - 0))%float 0%float = 0%float.
Proof. vm_compute. reflexivity. Qed.

Example focus_root_bottom :
  std_min (arith := binary64) (1 + 0.05 * (1 - 0))%float 1%float = 1%float.
Proof. vm_compute. reflexivity. Qed.

Lemma focus_root_double (size : nat) (key : Z) :
  focus_rect (arith := binary64) size 0
    {| node_key := key; exclusive := false; span_start := 0%float; span_end := 1%float |}
  = QRectF_of_points {| px := 0%float; py := 0%float |}
                     {| px := double_of_N (N.of_nat size); py := 1%float |}.
Proof.
  unfold focus_rect. cbn [span_start span_end].
  change (QRectF_of_points (arith := binary64)
            {| px := std_max (arith := binary64) 0%float
                       (double_of_N (N.of_nat 0) - 0.2)%float;
               py := std_max (arith := binary64) (0 - 0.05 * (1 - 0))%float 0%float |}
            {| px := double_of_N (N.of_nat size);
               py := std_min (arith := binary64) (1 + 0.05 * (1 - 0))%float 1%float |}
          = QRectF_of_points {| px := 0%float; py := 0%float |}
                             {| px := double_of_N (N.of_nat size); py := 1%float |}).
  rewrite focus_root_left, focus_root_top, focus_root_bottom. reflexivity.
Qed.

(** X11.  In double precision, asking [dataRect] for the key of the root on
    a layout that [layoutProfile] returned with columns gives the rectangle
    of the whole layout, from [(0, 0)] to [(columns, 1)], the one it falls
    back to when a key is not found, and prints no warning. *)
Theorem dataRect_of_root (fuel : nat) (profile : Profile) (profile_key : Z)
    (layout : Layout float) (warnings : list string) :
  layoutProfile fuel profile = Ok (layout, warnings) ->
  layout <> [] ->
  dataRect (ValidKey profile_key (nodeKey (rootNode profile))) layout
  = (QRectF_of_points {| px := 0%float; py := 0%float |}
                      {| px := double_of_N (N.of_nat (length layout)); py := 1%float |},
     []).
Proof.
  intros H Hne. apply layoutProfile_spec in H.
  destruct H as [-> | [entry [more [_ [_ [_ [-> _]]]]]]]; [contradiction Hne; reflexivity |].
  rewrite (dataRect_root profile_key
             {| node_key := nodeKey (rootNode profile); exclusive := false;
                span_start := lit_0; span_end := lit_1 |} more).
  exact (f_equal (fun rect => (rect, [])) (focus_root_double _ _)).
Qed.

Section SearchFacts.

(** Where a match of [search_columns] comes from. *)
Lemma search_columns_Some {num : Type} {arith : Arith num} (active_node : Z) (size : nat)
    (columns : Layout num) :
  forall col rect,
    search_columns active_node size col columns = Some rect ->
    exists c item,
      (col <= c < col + length columns)%nat
      /\ node_key item = active_node
      /\ rect = focus_rect size c item.
Proof.
  induction columns as [| rows columns IH]; simpl; intros col rect H; [discriminate |].
  destruct (search_rows active_node size col rows) as [found |] eqn:E.
  - injection H as <-. exists col.
    clear IH. induction rows as [| item rows IHr]; simpl in E; [discriminate |].
    destruct (Z.eqb_spec active_node (node_key item)) as [Hk | _].
    + injection E as <-. exists item. repeat split; [lia | lia | congruence].
    + exact (IHr E).
  - destruct (IH _ _ H) as [c [item [Hc [Hk Hr]]]]. exists c, item.
    repeat split; [lia | lia | exact Hk | exact Hr].
Qed.

(** The rectangle of [dataRect], found or not. *)
Lemma dataRect_cases {num : Type} {arith : Arith num} (active_key : DatabaseKey)
    (layout : Layout num) :
  (exists c item,
      (c < length layout)%nat
      /\ dataRect active_key layout = (focus_rect (length layout) c item, []))
  \/ dataRect active_key layout = (full_rect (length layout), [warn_not_found]).
Proof.
  unfold dataRect.
  destruct (search_columns (key_nodeKey active_key) (length layout) 0 layout)
    as [rect |] eqn:E; [left | right; reflexivity].
  apply search_columns_Some in E. destruct E as [c [item [Hc [_ ->]]]].
  exists c, item. split; [lia | reflexivity].
Qed.

End SearchFacts.

(** ** A key that the layout does not have *)

(** X16.  When [setActiveNode] is asked for a node key that no item of the
    new layout has, it prints the warning of [dataRect] after those of
    [layoutProfile] and takes the rectangle of the whole layout as the end
    value of the animator; the key is active all the same. *)
Theorem setActiveNode_absent {num : Type} {arith : Arith num}
    (heap : Databases) (fuel : nat) (profile_key absent_key : Z)
    (widget : PartitionWidget num) (db : N) (layout : Layout num)
    (warnings : list string) :
  ValidKey profile_key absent_key <> active_key_ widget ->
  db_ widget = Some db ->
  layoutProfile fuel (heap db profile_key) = Ok (layout, warnings) ->
  Forall (Forall (fun item => node_key item <> absent_key)) layout ->
  exists widget',
    setActiveNode heap fuel profile_key absent_key widget = Ok widget'
    /\ active_key_ widget' = ValidKey profile_key absent_key
    /\ current_layout_ widget' = layout
    /\ endValue (view_animator_ widget')
       = Some (QRectF_of_points
                 {| px := lit_0; py := lit_0 |}
                 {| px := of_count (N.of_nat (length layout)); py := lit_1 |})
    /\ warnings_ widget' = warnings_ widget ++ warnings ++ [warn_not_found].
Proof.
  intros Hne Hd Hl Ha.
  assert (He : key_eqb (ValidKey profile_key absent_key) (active_key_ widget) = false).
  { destruct (key_eqb (ValidKey profile_key absent_key) (active_key_ widget)) eqn:E;
      [| reflexivity]. apply key_eqb_eq in E. contradiction. }
  assert (Hr : dataRect (ValidKey profile_key absent_key) layout
               = (full_rect (length layout), [warn_not_found])).
  { unfold dataRect. rewrite search_columns_none by exact Ha. reflexivity. }
  erewrite setActiveNode_builds by eassumption. rewrite Hr.
  eexists. split; [reflexivity |]. cbn.
  destruct (key_isValid (active_key_ widget)); repeat split.
Qed.

(** ** What is painted *)

Section PaintingFacts.

Context {num : Type} {arith : Arith num}.

Variable std_hash : string -> N.
Variable QRect : Type.
Variable mapRect : QTransform num -> QRectF num -> QRectF num.
Variable roundRectF : QRectF num -> QRect.
Variable adjusted : Z -> Z -> Z -> Z -> QRect -> QRect.

Variable win_from_data : QTransform num.
Variable profile : Profile.
Variable size : nat.

Lemma render_rows (col : nat) (rows : list (LayoutItem num)) :
  forall painted,
    fold_left (render_item std_hash mapRect roundRectF adjusted
                 win_from_data profile size col) rows painted
    = painted
      ++ flat_map (draw_commands std_hash mapRect roundRectF adjusted
                     win_from_data profile size)
           (map (pair col) (filter (fun item => negb (exclusive item)) rows)).
Proof.
  induction rows as [| item rows IH]; simpl; intros painted.
  - rewrite app_nil_r. reflexivity.
  - rewrite IH. unfold render_item at 1.
    destruct (exclusive item); simpl; [reflexivity |].
    rewrite <- app_assoc. reflexivity.
Qed.

Lemma render_columns_draws (columns : Layout num) :
  forall col painted,
    render_columns std_hash mapRect roundRectF adjusted
      win_from_data profile size col columns painted
    = painted ++ flat_map (draw_commands std_hash mapRect roundRectF adjusted
                     win_from_data profile size) (drawn_items col columns).
Proof.
  induction columns as [| rows columns IH]; simpl; intros col painted.
  - rewrite app_nil_r. reflexivity.
  - rewrite IH, render_rows, flat_map_app, app_assoc. reflexivity.
Qed.

End PaintingFacts.

(** X17.  [renderLayout] sets the black pen once and then, for the
    non-exclusive items in the order of the columns and of the rows, sets
    the brush to the colour of the node's name and draws the item's
    rectangle; an exclusive item is never drawn, and nothing else is. *)
Theorem renderLayout_draws {num : Type} {arith : Arith num}
    (std_hash : string -> N) (QRect : Type)
    (mapRect : QTransform num -> QRectF num -> QRectF num)
    (roundRectF : QRectF num -> QRect)
    (adjusted : Z -> Z -> Z -> Z -> QRect -> QRect)
    (win_from_data : QTransform num) (layout : Layout num) (profile : Profile) :
  renderLayout std_hash mapRect roundRectF adjusted win_from_data layout profile
  = setPen BlackPen
    :: flat_map
         (fun entry : nat * LayoutItem num =>
            [ setBrush (colorFromString std_hash
                          (name (node profile (node_key (snd entry)))));
              drawRect (cell mapRect roundRectF adjusted win_from_data
                             (length layout) (fst entry) (snd entry)) ])
         (concat (map (fun column : nat * list (LayoutItem num) =>
                         map (pair (fst column))
                             (filter (fun item => negb (exclusive item)) (snd column)))
                      (combine (seq 0 (length layout)) layout))).
Proof.
  unfold renderLayout. rewrite render_columns_draws. simpl. f_equal.
  unfold draw_commands. f_equal.
  generalize 0%nat. induction layout as [| rows columns IH]; intros col; simpl;
    [reflexivity |].
  f_equal. apply IH.
Qed.

(** ** A widget all its life *)

Section LifeFacts.

Context {num : Type} {arith : Arith num}.

Lemma new_consistent : consistent (new_PartitionWidget (num := num)).
Proof.
  constructor; simpl; [reflexivity | discriminate | intros H; contradiction H; reflexivity].
Qed.

Lemma setDatabase_consistent (db : option N) (widget : PartitionWidget num) :
  consistent widget -> consistent (setDatabase db widget).
Proof.
  intros [Hc Ha Hl]. unfold setDatabase.
  destruct (db_ widget) as [bound |] eqn:E; constructor; simpl.
  - exact Hc.
  - intros Hv. destruct (Ha Hv) as [_ [Hs He]].
    repeat split; [discriminate | exact Hs | exact He].
  - exact Hl.
  - rewrite Hc. destruct db; reflexivity.
  - intros Hv. destruct (Ha Hv) as [Hd _]. contradiction Hd. reflexivity.
  - exact Hl.
Qed.

Lemma updateData_consistent (heap : Databases) (fuel : nat)
    (widget widget' : PartitionWidget num) :
  consistent widget ->
  updateData heap fuel widget = Ok widget' ->
  consistent widget'.
Proof.
  intros Hw H. unfold updateData in H.
  destruct (key_isValid (active_key_ widget)) eqn:Hv; simpl in H.
  2: { injection H as <-. exact Hw. }
  destruct Hw as [Hc Ha Hl].
  destruct (Ha Hv) as [Hd [Hs He]].
  destruct (db_ widget) as [db |] eqn:E; [| discriminate].
  apply bind_Ok in H. destruct H as [built [_ H]]. injection H as <-.
  constructor; simpl.
  - exact Hc.
  - intros _. repeat split; [discriminate | exact Hs | discriminate].
  - intros _. exact Hv.
Qed.

Lemma setActiveNode_consistent (heap : Databases) (fuel : nat) (profile_key node_key : Z)
    (widget widget' : PartitionWidget num) :
  consistent widget ->
  setActiveNode heap fuel profile_key node_key widget = Ok widget' ->
  consistent widget'.
Proof.
  intros Hw H. unfold setActiveNode in H.
  destruct (key_eqb (ValidKey profile_key node_key) (active_key_ widget)).
  { injection H as <-. exact Hw. }
  destruct Hw as [Hc Ha Hl].
  destruct (db_ widget) as [db |] eqn:E; [| discriminate].
  apply bind_Ok in H. destruct H as [built [_ H]]. injection H as <-.
  constructor; simpl.
  - exact Hc.
  - intros _. split; [discriminate |].
    destruct (key_isValid (active_key_ widget)) eqn:Hv; simpl.
    + destruct (Ha eq_refl) as [_ [_ He]]. split; [exact He | discriminate].
    + split; discriminate.
  - intros _. reflexivity.
Qed.

Lemma emit_consistent (heap : Databases) (fuel : nat) (from : N) (sig : Signal)
    (widget widget' : PartitionWidget num) :
  consistent widget ->
  emit heap fuel from sig widget = Ok widget' ->
  consistent widget'.
Proof.
  unfold emit. generalize (connections_ widget) as connections.
  intros connections. revert widget.
  induction connections as [| c connections IH]; simpl; intros widget Hw H.
  - injection H as <-. exact Hw.
  - apply bind_Ok in H. destruct H as [w1 [H1 H]].
    apply (IH w1); [| exact H].
    destruct ((sender c =? from)%N && Signal_eqb (signal c) sig).
    + destruct (receiver_slot c). simpl in H1.
      eapply updateData_consistent; eassumption.
    + injection H1 as <-. exact Hw.
Qed.

Lemma animate_consistent (t : num) (widget : PartitionWidget num) :
  consistent widget -> consistent (animate t widget).
Proof. intros [Hc Ha Hl]. constructor; simpl; assumption. Qed.

Lemma handle_consistent (heap : Databases) (fuel : nat) (event : Event num)
    (widget widget' : PartitionWidget num) :
  consistent widget ->
  handle heap fuel event widget = Ok widget' ->
  consistent widget'.
Proof.
  intros Hw H. destruct event as [db | pk nk | from sig | t]; simpl in H.
  - injection H as <-. apply setDatabase_consistent. exact Hw.
  - eapply setActiveNode_consistent; eassumption.
  - eapply emit_consistent; eassumption.
  - injection H as <-. apply animate_consistent. exact Hw.
Qed.

End LifeFacts.

(** A widget is consistent from its construction on. *)
Lemma life_consistent {num : Type} {arith : Arith num}
    (events : list (Databases * nat * Event num)) (widget : PartitionWidget num) :
  run events = Ok widget -> consistent widget.
Proof.
  unfold run.
  assert (H : forall w w' : PartitionWidget num,
             consistent w ->
             for_each (fun widget '(heap, fuel, event) => handle heap fuel event widget)
                      events w = Ok w' ->
             consistent w').
  { induction events as [| [[heap fuel] event] events IH]; simpl; intros w w' Hw H.
    - injection H as <-. exact Hw.
    - apply bind_Ok in H. destruct H as [w1 [H1 H]].
      apply (IH w1); [| exact H]. eapply handle_consistent; eassumption. }
  intros Hrun. exact (H _ _ new_consistent Hrun).
Qed.

(** X18.  All its life, through any calls of [setDatabase] and
    [setActiveNode], any signals of any database and any steps of the
    engine, the databases changing at will in between, a widget has no
    connection without a database and, with one, the three connections that
    the first [setDatabase] made, each signal to [updateData] once; a valid
    active key comes with a database and with a start and an end value of
    the animator; and a layout with columns comes with a valid active key. *)
Theorem run_consistent {num : Type} {arith : Arith num}
    (events : list (Databases * nat * Event num)) (widget : PartitionWidget num) :
  run events = Ok widget ->
  connections_ widget
  = match db_ widget with
    | None => []
    | Some db =>
        [ {| sender := db; signal := dataAdded; receiver_slot := slot_updateData |};
          {| sender := db; signal := profileAdded; receiver_slot := slot_updateData |};
          {| sender := db; signal := nodesAdded; receiver_slot := slot_updateData |} ]
    end
  /\ (key_isValid (active_key_ widget) = true ->
      db_ widget <> None
      /\ startValue (view_animator_ widget) <> None
      /\ endValue (view_animator_ widget) <> None)
  /\ (current_layout_ widget <> [] -> key_isValid (active_key_ widget) = true).
Proof.
  intros Hrun. destruct (life_consistent events Hrun) as [Hc Ha Hl].
  split; [exact Hc |]. split; assumption.
Qed.

(** X19.  At any time of the life of a widget [paintEvent] returns: it sets
    no pen and fills the widget with white and, when the layout has
    columns, goes on with [renderLayout] for the profile of the valid active
    key in the bound database, through the transform of the window from the
    current value of the animator, which is a valid rectangle. *)
Theorem paintEvent_returns {num : Type} {arith : Arith num}
    (std_hash : string -> N) (QRect : Type)
    (mapRect : QTransform num -> QRectF num -> QRectF num)
    (roundRectF : QRectF num -> QRect)
    (adjusted : Z -> Z -> Z -> Z -> QRect -> QRect)
    (events : list (Databases * nat * Event num)) (widget : PartitionWidget num)
    (heap : Databases) (width height : N) :
  run events = Ok widget ->
  (current_layout_ widget = []
   /\ paintEvent std_hash mapRect roundRectF adjusted heap width height widget
      = Ok [setPen NoPen; fillRect 0 0 width height (Rgb 255 255 255)])
  \/ (exists db data_rect,
        current_layout_ widget <> []
        /\ key_isValid (active_key_ widget) = true
        /\ db_ widget = Some db
        /\ currentValue (view_animator_ widget) = Some data_rect
        /\ paintEvent std_hash mapRect roundRectF adjusted heap width height widget
           = Ok ([setPen NoPen; fillRect 0 0 width height (Rgb 255 255 255)]
                 ++ renderLayout std_hash mapRect roundRectF adjusted
                      (getTransform
                         (QRectF_of_points {| px := lit_0; py := lit_0 |}
                                           {| px := of_count width;
                                              py := of_count height |})
                         data_rect)
                      (current_layout_ widget)
                      (heap db (key_profileKey (active_key_ widget))))).
Proof.
  intros Hrun. destruct (life_consistent events Hrun) as [_ Ha Hl].
  unfold paintEvent.
  destruct (current_layout_ widget) as [| column columns] eqn:E; simpl is_empty; cbv iota.
  - left. split; reflexivity.
  - right.
    assert (Hv : key_isValid (active_key_ widget) = true) by (apply Hl; discriminate).
    destruct (Ha Hv) as [Hd [Hs He]].
    destruct (db_ widget) as [db |]; [| contradiction Hd; reflexivity].
    unfold currentValue.
    destruct (startValue (view_animator_ widget)) as [from |];
      [| contradiction Hs; reflexivity].
    destruct (endValue (view_animator_ widget)) as [to |];
      [| contradiction He; reflexivity].
    exists db, (lerp_rect from to (progress (view_animator_ widget))).
    repeat split; [discriminate | exact Hv].
Qed.

(** ** How many columns *)

Section ColumnCount.

Context {num : Type} {arith : Arith num}.

Variable profile : Profile.
Variable time_scale : num.
Variable height : Z -> nat.
Hypothesis shaped : tree_shaped profile height.

Lemma layout_loop_length (fuel : nat) :
  forall (bound : nat) (layout : Layout num) (parents : list (LayoutItem num))
         (keep_going : bool) (layout' : Layout num),
    layout_loop fuel profile time_scale (layout ++ [parents]) keep_going = Ok layout' ->
    ready profile height bound parents ->
    (keep_going = true -> (1 <= bound)%nat) ->
    (length layout' <= length layout + 1 + bound)%nat.
Proof.
  induction fuel as [| fuel IH]; intros bound layout parents keep_going layout' H Hr Hk.
  - simpl in H. destruct keep_going; [discriminate |].
    injection H as <-. rewrite length_app. simpl. lia.
  - simpl in H. destruct keep_going.
    + apply bind_Ok in H. destruct H as [st [Hc H]].
      rewrite layout_column_last in Hc.
      apply add_parents_spec in Hc. simpl in Hc.
      destruct Hc as [groups [Hc [He Hg]]].
      apply (IH (bound - 1)%nat) in H.
      * rewrite length_app in H. simpl in H. specialize (Hk eq_refl). lia.
      * rewrite Hc. eapply expansions_ready; eassumption.
      * rewrite Hg. intros Hgo. pose proof (keep_going_height shaped Hr Hgo). lia.
    + injection H as <-. rewrite length_app. simpl. lia.
Qed.

End ColumnCount.

(** X20.  For a profile that is a tree of sampled nodes, a layout that is
    returned has at most one column more than the height of the root: the
    loop makes at most as many passes as the tree is high. *)
Theorem layoutProfile_column_count {num : Type} {arith : Arith num} (fuel : nat)
    (profile : Profile) (height : Z -> nat) (layout : Layout num)
    (warnings : list string) :
  tree_shaped profile height ->
  layoutProfile fuel profile = Ok (layout, warnings) ->
  (length layout <= S (height (nodeKey (rootNode profile))))%nat.
Proof.
  intros Hs H. unfold layoutProfile in H.
  rewrite (root_valid Hs) in H. simpl in H.
  destruct (is_empty (data (rootNode profile))).
  { injection H as <- _. simpl. lia. }
  apply bind_Ok in H. destruct H as [entry [_ H]].
  apply bind_Ok in H. destruct H as [layout0 [Hloop H]]. injection H as <- _.
  apply layout_loop_length with (height := height) (bound := height (nodeKey (rootNode profile)))
                                (layout := []) in Hloop.
  - simpl in Hloop. lia.
  - exact Hs.
  - constructor; [| constructor]. simpl. rewrite (root_known Hs).
    split; [exact (root_sampled Hs) | intros _; apply Nat.le_refl].
  - intros Hc. unfold hasChildren in Hc.
    destruct (childKeys (rootNode profile)) as [| c cs] eqn:Ec; [discriminate Hc |].
    assert (Hin : In c (childKeys (node profile (nodeKey (rootNode profile)))))
      by (rewrite (root_known Hs), Ec; left; reflexivity).
    pose proof (child_lower Hs _ _ Hin). lia.
Qed.

(** The last item of a linked column ends at the end of the column. *)
Lemma linked_last {num : Type} (items : list (LayoutItem num)) :
  forall (from to : num) (first default : LayoutItem num),
    linked from (first :: items) to ->
    span_end (last (first :: items) default) = to.
Proof.
  induction items as [| item items IH]; intros from to first default H.
  - simpl in *. exact (proj2 H).
  - destruct H as [_ H].
    change (last (first :: item :: items) default) with (last (item :: items) default).
    eapply IH. exact H.
Qed.

(** ** The scenario, again *)

Lemma setActiveNode_same_key_scenario :
  setActiveNode Scenario.heap 0 0 Scenario.rootKey Scenario.root_focused
  = Ok Scenario.root_focused.
Proof.
  apply (setActiveNode_same_key Scenario.heap Scenario.heap 1 0
           0 Scenario.rootKey Scenario.bound_widget).
  vm_compute. reflexivity.
Defined.

Lemma setActiveNode_first_scenario :
  exists widget',
    setActiveNode Scenario.heap 1 0 Scenario.rootKey Scenario.bound_widget = Ok widget'
    /\ active_key_ widget' = ValidKey 0 Scenario.rootKey
    /\ current_layout_ widget' = Scenario.layout
    /\ startValue (view_animator_ widget')
       = Some (fst (dataRect (ValidKey 0 Scenario.rootKey) Scenario.layout))
    /\ endValue (view_animator_ widget')
       = Some (fst (dataRect (ValidKey 0 Scenario.rootKey) Scenario.layout))
    /\ state (view_animator_ widget') = state (view_animator_ Scenario.bound_widget)
    /\ progress (view_animator_ widget') = progress (view_animator_ Scenario.bound_widget)
    /\ duration (view_animator_ widget') = duration (view_animator_ Scenario.bound_widget).
Proof.
  refine (setActiveNode_first (arith := binary64) Scenario.heap 1
            0 Scenario.rootKey Scenario.bound_widget
            (db := 0) (layout := Scenario.layout) (warnings := []) _ _ _).
  - reflexivity.
  - reflexivity.
  - vm_compute. reflexivity.
Defined.

Lemma emit_inactive_scenario :
  emit Scenario.heap 1 0 profileAdded Scenario.bound_widget = Ok Scenario.bound_widget.
Proof.
  apply (emit_inactive Scenario.heap 1 0 profileAdded Scenario.bound_widget).
  reflexivity.
Defined.

Lemma layoutProfile_first_column_scenario :
  (Scenario.layout = []
   /\ (isValid (rootNode Scenario.profile) = false
       \/ data (rootNode Scenario.profile) = []))
  \/ (isValid (rootNode Scenario.profile) = true
      /\ data (rootNode Scenario.profile) <> []
      /\ @nil string = []
      /\ exists more,
           Scenario.layout
           = [ {| node_key := nodeKey (rootNode Scenario.profile); exclusive := false;
                  span_start := lit_0; span_end := lit_1 |} ] :: more).
Proof.
  refine (layoutProfile_first_column (arith := binary64) 1 Scenario.profile
            (layout := Scenario.layout) (warnings := []) _).
  vm_compute. reflexivity.
Defined.

Lemma layoutProfile_columns_contiguous_scenario :
  Forall (fun column : list (LayoutItem float) =>
            exists first rest,
              column = first :: rest
              /\ span_start first = 0%float
              /\ contiguous column) Scenario.layout.
Proof.
  refine (layoutProfile_columns_contiguous (arith := binary64) 1 Scenario.profile
            (layout := Scenario.layout) (warnings := []) _).
  vm_compute. reflexivity.
Defined.

Lemma layoutProfile_next_column_scenario :
  map (@node_key float) (nth 1 Scenario.layout [])
  = flat_map (fun item => node_key item :: expanded_keys Scenario.profile item)
             (nth 0 Scenario.layout [])
  /\ map (@exclusive float) (nth 1 Scenario.layout [])
     = flat_map (fun item => true :: map (fun _ => false)
                                         (expanded_keys Scenario.profile item))
                (nth 0 Scenario.layout []).
Proof.
  refine (layoutProfile_next_column (arith := binary64) 1 Scenario.profile
            (layout := Scenario.layout) (warnings := []) 0
            (parents := nth 0 Scenario.layout []) (children := nth 1 Scenario.layout [])
            _ _ _).
  - vm_compute. reflexivity.
  - reflexivity.
  - reflexivity.
Defined.

Lemma layoutProfile_last_column_scenario :
  Scenario.layout = []
  \/ exists front last,
       Scenario.layout = front ++ [last]
       /\ Forall (Exists (fun item : LayoutItem float =>
                            exclusive item = false
                            /\ hasChildren (node Scenario.profile (node_key item)) = true))
                 front
       /\ Forall (fun item : LayoutItem float =>
                    exclusive item = false ->
                    hasChildren (node Scenario.profile (node_key item)) = false) last.
Proof.
  refine (layoutProfile_last_column (arith := binary64) 1 Scenario.profile
            (layout := Scenario.layout) (warnings := []) _ _).
  - vm_compute. reflexivity.
  - reflexivity.
Defined.

Lemma layoutProfile_unsampled_child_case :
  layoutProfile (arith := binary64) 1 Cases.dangling_profile = Undefined.
Proof.
  apply (layoutProfile_unsampled_child (arith := binary64) 0 Cases.dangling_profile
           Scenario.childKey).
  - reflexivity.
  - discriminate.
  - reflexivity.
  - left. reflexivity.
  - reflexivity.
Defined.

Lemma dataRect_of_root_scenario :
  dataRect (ValidKey 0 Scenario.rootKey) Scenario.layout
  = (QRectF_of_points {| px := 0%float; py := 0%float |}
                      {| px := double_of_N (N.of_nat (length Scenario.layout));
                         py := 1%float |},
     []).
Proof.
  refine (dataRect_of_root 1 Scenario.profile 0 (layout := Scenario.layout)
            (warnings := []) _ _).
  - vm_compute. reflexivity.
  - discriminate.
Defined.

Lemma setActiveNode_absent_scenario :
  exists widget',
    setActiveNode Scenario.heap 1 0 7 Scenario.root_focused = Ok widget'
    /\ active_key_ widget' = ValidKey 0 7
    /\ current_layout_ widget' = Scenario.layout
    /\ endValue (view_animator_ widget')
       = Some (QRectF_of_points
                 {| px := lit_0; py := lit_0 |}
                 {| px := of_count (N.of_nat (length Scenario.layout)); py := lit_1 |})
    /\ warnings_ widget' = warnings_ Scenario.root_focused ++ [] ++ [warn_not_found].
Proof.
  refine (setActiveNode_absent (arith := binary64) Scenario.heap 1
            (profile_key := 0) (absent_key := 7) Scenario.root_focused
            (db := 0) (layout := Scenario.layout) (warnings := []) _ _ _ _).
  - discriminate.
  - reflexivity.
  - vm_compute. reflexivity.
  - repeat constructor; discriminate.
Defined.

Example run_story :
  run Cases.story = Ok Cases.after_story
  /\ active_key_ Cases.after_story = ValidKey 0 Scenario.childKey
  /\ current_layout_ Cases.after_story = Scenario.layout
  /\ currentValue (view_animator_ Cases.after_story)
     = Some {| xp := 0.4%float; yp := 0.08%float; w := 1.6%float; h := 0.92%float |}.
Proof. repeat split; vm_compute; reflexivity. Qed.

Lemma run_consistent_story :
  connections_ Cases.after_story
  = match db_ Cases.after_story with
    | None => []
    | Some db =>
        [ {| sender := db; signal := dataAdded; receiver_slot := slot_updateData |};
          {| sender := db; signal := profileAdded; receiver_slot := slot_updateData |};
          {| sender := db; signal := nodesAdded; receiver_slot := slot_updateData |} ]
    end
  /\ (key_isValid (active_key_ Cases.after_story) = true ->
      db_ Cases.after_story <> None
      /\ startValue (view_animator_ Cases.after_story) <> None
      /\ endValue (view_animator_ Cases.after_story) <> None)
  /\ (current_layout_ Cases.after_story <> [] ->
      key_isValid (active_key_ Cases.after_story) = true).
Proof.
  apply (run_consistent Cases.story). vm_compute. reflexivity.
Defined.

Lemma two_nodes_conserving : forall k, conserving_at Scenario.profile k.
Proof.
  intros k. unfold conserving_at. simpl.
  destruct (k =? Scenario.rootKey)%Z; [| destruct (k =? Scenario.childKey)%Z];
    vm_compute; reflexivity.
Qed.

Lemma layoutProfile_column_count_scenario :
  (length Scenario.layout <= S (Scenario.height (nodeKey (rootNode Scenario.profile))))%nat.
Proof.
  refine (layoutProfile_column_count (arith := binary64) 1
            (profile := Scenario.profile) (layout := Scenario.layout) (warnings := [])
            (two_nodes_tree 80) _).
  vm_compute. reflexivity.
Defined.

Lemma paintEvent_returns_story :
  (current_layout_ Cases.after_story = []
   /\ paintEvent Cases.code_sum Cases.same_mapRect Cases.same_roundRectF
        Cases.same_adjusted Scenario.heap 800 600 Cases.after_story
      = Ok [setPen NoPen; fillRect 0 0 800 600 (Rgb 255 255 255)])
  \/ (exists db data_rect,
        current_layout_ Cases.after_story <> []
        /\ key_isValid (active_key_ Cases.after_story) = true
        /\ db_ Cases.after_story = Some db
        /\ currentValue (view_animator_ Cases.after_story) = Some data_rect
        /\ paintEvent Cases.code_sum Cases.same_mapRect Cases.same_roundRectF
             Cases.same_adjusted Scenario.heap 800 600 Cases.after_story
           = Ok ([setPen NoPen; fillRect 0 0 800 600 (Rgb 255 255 255)]
                 ++ renderLayout Cases.code_sum Cases.same_mapRect Cases.same_roundRectF
                      Cases.same_adjusted
                      (getTransform
                         (QRectF_of_points {| px := lit_0; py := lit_0 |}
                                           {| px := of_count 800; py := of_count 600 |})
                         data_rect)
                      (current_layout_ Cases.after_story)
                      (Scenario.heap db (key_profileKey (active_key_ Cases.after_story))))).
Proof.
  refine (paintEvent_returns (arith := binary64) Cases.code_sum Cases.same_mapRect
            Cases.same_roundRectF Cases.same_adjusted Cases.story
            (widget := Cases.after_story) Scenario.heap 800 600 _).
  vm_compute. reflexivity.
Defined.

(** What is painted after the story: the background, the black pen, and a
    brush and a rectangle for the root and for the child; nothing for the
    exclusive item of the root.  With the stand-ins, the rectangles are the
    data rectangles of the items, from their column to the last one. *)
Example paintEvent_story :
  paintEvent Cases.code_sum Cases.same_mapRect Cases.same_roundRectF
    Cases.same_adjusted Scenario.heap 800 600 Cases.after_story
  = Ok [ setPen NoPen; fillRect 0 0 800 600 (Rgb 255 255 255);
         setPen BlackPen;
         setBrush (Hsv 197 56 55);
         drawRect {| xp := 0%float; yp := 0%float; w := 2%float; h := 1%float |};
         setBrush (Hsv 6 57 55);
         drawRect {| xp := 1%float; yp := 0.2%float; w := 1%float;
                     h := 0.80000000000000004%float |} ].
Proof. vm_compute. reflexivity. Qed.

(** * The widget in double precision *)

(** ** Sums of doubles *)

Section DoublesMore.

Unset Implicit Arguments.

Local Open Scope R_scope.

(** The value of a double is a multiple of [2^-1074]. *)
Lemma SF2R_grid (g : spec_float) :
  valid_binary g = true -> exists k : Z, SF2R g = IZR k * bpow (-1074).
Proof.
  intros Hv. destruct g as [s | s | | s m e]; try (exists 0%Z; simpl; ring).
  destruct (valid_finite s m e Hv) as [He _].
  exists (cond_Zopp s (Z.pos m) * 2 ^ (e + 1074))%Z.
  unfold SF2R. rewrite mult_IZR, <- bpow_IZR, Rmult_assoc, <- bpow_add by lia.
  replace (e + 1074 + -1074)%Z with e by ring. reflexivity.
Qed.

(** A real on that grid is rounded with a relative error of [2^-53] at
    most: where the doubles are spaced by [2^-1074] it is a double. *)
Lemma rounding_relative_grid (x : R) (f : spec_float) (k : Z) :
  rounding x f -> x = IZR k * bpow (-1074) ->
  Rabs (SF2R f - x) <= Rabs x * bpow (-53).
Proof.
  intros Hr Hx. pose proof Hr as [_ [_ [m1 [e1 [He [Hv [Hn [Hl Hu]]]]]]]].
  destruct Hl as [Hl | Hl].
  - subst e1. assert (Hk : x * bpow (- -1074) = IZR k).
    { rewrite Hx, Rmult_assoc, bpow_inv_r. ring. }
    pose proof (nearest_exact _ _ _ Hn Hk) as ->.
    rewrite Hv, <- Hx, Rminus_diag, Rabs_R0.
    apply Rmult_le_pos; [apply Rabs_pos | left; apply bpow_pos].
  - apply rounding_relative; [exact Hr |].
    apply Rle_trans with (bpow (e1 + 52)); [apply bpow_le; lia | exact Hl].
Qed.

Lemma add_error (a b : float) :
  finite a = true -> finite b = true ->
  Rabs (value a + value b) < bpow 1023 ->
  Rabs (value (a + b)%float - (value a + value b))
  <= Rabs (value a + value b) * bpow (-53).
Proof.
  intros Ha Hb Hup.
  destruct (SF2R_grid (Prim2SF a) (Prim2SF_valid a)) as [ka Hka].
  destruct (SF2R_grid (Prim2SF b) (Prim2SF_valid b)) as [kb Hkb].
  apply (rounding_relative_grid _ _ (ka + kb)%Z (add_rounded a b Ha Hb Hup)).
  unfold value. rewrite Hka, Hkb, plus_IZR. ring.
Qed.

Lemma sub_error (a b : float) :
  finite a = true -> finite b = true ->
  Rabs (value a - value b) < bpow 1023 ->
  Rabs (value (a - b)%float - (value a - value b))
  <= Rabs (value a - value b) * bpow (-53).
Proof.
  intros Ha Hb Hup.
  destruct (SF2R_grid (Prim2SF a) (Prim2SF_valid a)) as [ka Hka].
  destruct (SF2R_grid (Prim2SF b) (Prim2SF_valid b)) as [kb Hkb].
  apply (rounding_relative_grid _ _ (ka - kb)%Z (sub_rounded a b Ha Hb Hup)).
  unfold value. rewrite Hka, Hkb, minus_IZR. ring.
Qed.

(** [2^-53] is small. *)
Lemma u_small : 0 < bpow (-53) /\ bpow (-53) * 9007199254740992 = 1.
Proof.
  split; [apply bpow_pos |].
  change 9007199254740992 with (IZR (2 ^ 53)). rewrite <- bpow_IZR by lia. exact (bpow_inv_l 53).
Qed.

(** A count of nanoseconds below [2^64] as a double. *)
Lemma double_of_ns (n : N) :
  (n < 2 ^ 64)%N ->
  finite (double_of_N n) = true
  /\ Rabs (value (double_of_N n) - IZR (Z.of_N n)) <= IZR (Z.of_N n) * bpow (-53)
  /\ ((0 < n)%N -> 1 <= value (double_of_N n)).
Proof.
  intros Hn.
  assert (Hz : (0 <= Z.of_N n < 2 ^ 64)%Z).
  { change (2 ^ 64)%Z with (Z.of_N (2 ^ 64)). lia. }
  assert (Hup : IZR (Z.of_N n) < bpow 1023).
  { apply Rlt_trans with (bpow 64); [| apply bpow_lt; lia].
    rewrite (bpow_IZR 64) by lia. apply IZR_lt. lia. }
  pose proof (double_of_N_rounded n Hup) as Hr.
  split; [exact (rounded_finite _ _ Hr) |].
  assert (H0 : 0 <= IZR (Z.of_N n)) by (apply IZR_le; lia).
  split.
  - destruct (N.eq_dec n 0) as [-> | Hne].
    + simpl Z.of_N in *. pose proof (rounded_nonneg _ _ Hr ltac:(lra)).
      pose proof (rounded_nonpos _ _ Hr ltac:(lra)).
      replace (value (double_of_N 0)) with 0 by lra.
      rewrite Rminus_diag, Rabs_R0. lra.
    + assert (H1 : 1 <= IZR (Z.of_N n)) by (apply IZR_le; lia).
      pose proof (rounded_relative _ _ Hr) as Hrel.
      rewrite (Rabs_pos_eq _ H0) in Hrel. apply Hrel.
      apply Rle_trans with 1; [| exact H1].
      rewrite <- bpow_0. apply bpow_le. lia.
  - intros Hp. destruct value_1 as [V1 F1]. rewrite <- V1.
    apply (rounded_ge _ _ Hr 1%float F1). rewrite V1. apply IZR_le. lia.
Qed.

End DoublesMore.

Set Implicit Arguments.

(** ** The cursor of a column *)

Section Cursor.

Local Open Scope R_scope.

Variable T : N.
Hypothesis T_pos : (0 < T)%N.
Hypothesis T_64 : (T < 2 ^ 64)%N.

Lemma Tr_ge_1 : 1 <= IZR (Z.of_N T).
Proof. apply IZR_le. lia. Qed.

Lemma u_bounds : 0 < bpow (-53) /\ bpow (-53) <= / 1000000000000000.
Proof. destruct u_small as [H1 H2]. split; [exact H1 | lra]. Qed.

Lemma time_scale_value :
  finite (double_of_N T) = true
  /\ 1 <= value (double_of_N T)
  /\ IZR (Z.of_N T) * (1 - bpow (-53)) <= value (double_of_N T)
     <= IZR (Z.of_N T) * (1 + bpow (-53)).
Proof.
  destruct (double_of_ns T T_64) as [Hf [He H1]].
  split; [exact Hf |]. split; [exact (H1 T_pos) |].
  apply Rabs_le_iff in He. lra.
Qed.

(** A duration over the time scale, in doubles. *)
Lemma share_double (D : N) :
  (D <= T)%N ->
  finite (double_of_N D / double_of_N T)%float = true
  /\ 0 <= value (double_of_N D / double_of_N T)%float
  /\ Rabs (value (double_of_N D / double_of_N T)%float - IZR (Z.of_N D) / IZR (Z.of_N T))
     <= 4 * bpow (-53) * (IZR (Z.of_N D) / IZR (Z.of_N T)).
Proof.
  pose (Tr := IZR (Z.of_N T)). pose (u := bpow (-53)).
  intros HD. fold Tr u.
  destruct time_scale_value as [Hft [Ht1 Ht]]. fold Tr u in Ht.
  destruct (double_of_ns D ltac:(lia)) as [Hfd [Hed Hd1]].
  pose proof Tr_ge_1 as HT1. destruct u_bounds as [Hu0 Hu]. fold Tr in HT1. fold u in Hu0, Hu.
  set (Dr := IZR (Z.of_N D)) in *. set (tv := value (double_of_N T)) in *.
  set (dv := value (double_of_N D)) in *. fold u in Hed.
  assert (HD0 : 0 <= Dr) by (apply IZR_le; lia).
  assert (HDT : Dr <= Tr) by (apply IZR_le; lia).
  apply Rabs_le_iff in Hed.
  set (r := Dr / Tr). assert (Hr : r * Tr = Dr) by (unfold r; field; lra).
  assert (Hr0 : 0 <= r) by (unfold r; apply Rmult_le_pos; [lra | left; apply Rinv_0_lt_compat; lra]).
  set (a := dv / tv). assert (Ha : a * tv = dv) by (unfold a; field; lra).
  assert (Hdv0 : 0 <= dv) by nra.
  assert (Ha0 : 0 <= a) by (unfold a; apply Rmult_le_pos; [lra | left; apply Rinv_0_lt_compat; lra]).
  assert (Ha2 : a <= 2).
  { assert (dv <= 2 * tv) by nra.
    destruct (Rle_dec a 2) as [H2 | H2]; [exact H2 | exfalso]. nra. }
  assert (Hup : Rabs (dv / tv) < bpow 1023).
  { fold a. rewrite Rabs_pos_eq by exact Ha0.
    apply Rle_lt_trans with (bpow 1); [rewrite bpow_1; exact Ha2 | apply bpow_lt; lia]. }
  pose proof (div_rounded (double_of_N D) (double_of_N T) Hfd Hft ltac:(fold tv; lra) Hup) as Hq.
  fold dv tv a in Hq.
  set (qv := value (double_of_N D / double_of_N T)%float) in *.
  split; [exact (rounded_finite _ _ Hq) |].
  assert (Hq0 : 0 <= qv) by exact (rounded_nonneg _ _ Hq Ha0).
  split; [exact Hq0 |].
  destruct (N.eq_dec D 0) as [E | Hne].
  - assert (Dr = 0) by (unfold Dr; rewrite E; reflexivity).
    assert (a = 0) by nra.
    assert (qv <= 0) by (apply (rounded_nonpos _ _ Hq); lra).
    assert (r = 0) by nra.
    replace qv with 0 by lra. replace r with 0 by lra.
    rewrite Rminus_diag, Rabs_R0. lra.
  - assert (HD1 : 1 <= dv) by (apply Hd1; lia).
    assert (Hnorm : bpow (-1022) <= Rabs a).
    { rewrite Rabs_pos_eq by exact Ha0.
      apply Rle_trans with (bpow (-65)); [apply bpow_le; lia |].
      assert (Htv : tv <= bpow 65).
      { apply Rle_trans with (Tr * 2); [nra |].
        replace 65%Z with (64 + 1)%Z by ring. rewrite bpow_succ.
        assert (Tr <= bpow 64).
        { unfold Tr. rewrite (bpow_IZR 64) by lia. apply IZR_le.
          change (2 ^ 64)%Z with (Z.of_N (2 ^ 64)). lia. }
        lra. }
      pose proof (bpow_inv_l 65) as Hinv. simpl Z.opp in Hinv. pose proof (bpow_pos (-65)).
      destruct (Rle_dec (bpow (-65)) a) as [H2 | H2]; [exact H2 | exfalso].
      assert (H3 : a * tv <= a * bpow 65) by (apply Rmult_le_compat_l; lra).
      assert (H4 : a * bpow 65 < bpow (-65) * bpow 65).
      { apply Rmult_lt_compat_r; [apply bpow_pos | lra]. }
      lra. }
    pose proof (rounded_relative _ _ Hq Hnorm) as Hrel.
    rewrite (Rabs_pos_eq a Ha0) in Hrel. fold qv u in Hrel.
    apply Rabs_le_iff in Hrel. apply Rabs_le_iff.
    assert (Hup1 : a * (1 - u) <= r * (1 + u)).
    { assert (a * (Tr * (1 - u)) <= r * Tr * (1 + u)) by nra.
      apply Rmult_le_reg_r with Tr; [lra |]. nra. }
    assert (Hlo1 : r * (1 - u) <= a * (1 + u)).
    { assert (r * Tr * (1 - u) <= a * (Tr * (1 + u))) by nra.
      apply Rmult_le_reg_r with Tr; [lra |]. nra. }
    split.
    + assert (r * (1 - 4 * u) * (1 + u) <= qv * (1 + u)) by nra.
      assert (r * (1 - 4 * u) <= qv) by (apply Rmult_le_reg_r with (1 + u); lra). lra.
    + assert (qv * (1 - u) <= r * (1 + 4 * u) * (1 - u)) by nra.
      assert (qv <= r * (1 + 4 * u)) by (apply Rmult_le_reg_r with (1 - u); lra). lra.
Qed.

(** One item more in a column. *)
Lemma within_step (j n D : N) (c : float) :
  (n + D <= T)%N ->
  (j <= 10000000)%N ->
  within T j n c ->
  within T (j + 1) (n + D) (c + double_of_N D / double_of_N T)%float
  /\ value c <= value (c + double_of_N D / double_of_N T)%float.
Proof.
  pose (Tr := IZR (Z.of_N T)). pose (u := bpow (-53)).
  intros Hn Hj [Hfc [Hc0 Hc]].
  destruct (share_double (D := D) ltac:(lia)) as [Hfq [Hq0 Hq]].
  pose proof Tr_ge_1 as HT1. destruct u_bounds as [Hu0 Hu]. fold Tr in HT1. fold u in Hu0, Hu.
  fold Tr u in Hc, Hq. set (q := (double_of_N D / double_of_N T)%float) in *.
  set (rn := IZR (Z.of_N n) / Tr) in *. set (rd := IZR (Z.of_N D) / Tr) in *.
  assert (Hrn : 0 <= rn).
  { unfold rn. apply Rmult_le_pos; [apply IZR_le; lia | left; apply Rinv_0_lt_compat; lra]. }
  assert (Hrd : 0 <= rd).
  { unfold rd. apply Rmult_le_pos; [apply IZR_le; lia | left; apply Rinv_0_lt_compat; lra]. }
  assert (Hsum : IZR (Z.of_N (n + D)) / Tr = rn + rd).
  { unfold rn, rd. rewrite N2Z.inj_add, plus_IZR. field. lra. }
  assert (Hle1 : rn + rd <= 1).
  { rewrite <- Hsum. apply Rmult_le_reg_r with Tr; [lra |].
    unfold Rdiv. rewrite Rmult_assoc, Rinv_l, Rmult_1_r, Rmult_1_l by lra.
    apply IZR_le. lia. }
  assert (HJ : 0 <= IZR (Z.of_N j) <= 10000000).
  { split; apply IZR_le; lia. }
  apply Rabs_le_iff in Hc. apply Rabs_le_iff in Hq.
  assert (Hs2 : value c + value q <= 2) by nra.
  assert (Hup : Rabs (value c + value q) < bpow 1023).
  { rewrite Rabs_pos_eq by lra.
    apply Rle_lt_trans with (bpow 1); [rewrite bpow_1; exact Hs2 | apply bpow_lt; lia]. }
  pose proof (add_rounded c q Hfc Hfq Hup) as Hr.
  pose proof (add_error c q Hfc Hfq Hup) as He.
  rewrite (Rabs_pos_eq (value c + value q)) in He by lra. fold u in He.
  apply Rabs_le_iff in He.
  assert (Hge : value c <= value (c + q)%float).
  { apply (rounded_ge _ _ Hr c Hfc). lra. }
  split; [| exact Hge].
  split; [exact (rounded_finite _ _ Hr) |]. split; [lra |].
  fold Tr u. rewrite Hsum, N2Z.inj_add, plus_IZR. change (IZR (Z.of_N 1)) with 1. apply Rabs_le_iff. nra.
Qed.

End Cursor.

(** ** Durations of groups *)

Section DurationFacts.

Context {num : Type} {arith : Arith num}.

Variable profile : Profile.
Variable time_scale : num.

Lemma group_ns_app (a b : list (LayoutItem num)) :
  group_ns profile (a ++ b) = (group_ns profile a + group_ns profile b)%N.
Proof. induction a as [| x a IH]; simpl; [reflexivity | rewrite IH; lia]. Qed.

Lemma children_ns (group : list (LayoutItem num)) :
  forall keys,
    map (@node_key num) group = keys ->
    map (@exclusive num) group = map (fun _ => false) keys ->
    group_ns profile group = keys_inclusive_ns profile keys.
Proof.
  induction group as [| item group IH]; simpl; intros keys Hk He; subst keys;
    [reflexivity |].
  simpl in *. injection He as He0 He. rewrite (IH _ eq_refl He).
  unfold item_ns. rewrite He0. reflexivity.
Qed.

(** A group stands for the parent node's exclusive duration and the
    inclusive durations of the expanded keys. *)
Lemma generated_ns (parent_item : LayoutItem num) (from to : num)
    (group : list (LayoutItem num)) :
  generated profile time_scale parent_item from group to ->
  group_ns profile group
  = (exclusive_ns (node profile (node_key parent_item))
     + keys_inclusive_ns profile (expanded_keys profile parent_item))%N.
Proof.
  intros [_ [_ [Hk He]]].
  destruct group as [| first group]; [discriminate Hk |].
  simpl in Hk, He. injection Hk as Hk0 Hk. injection He as He0 He.
  simpl. rewrite (children_ns _ Hk He). unfold item_ns. rewrite He0, Hk0. reflexivity.
Qed.

Lemma expanded_ns_bounded (parent_item : LayoutItem num) :
  bounded_at profile (node_key parent_item) ->
  (exclusive_ns (node profile (node_key parent_item))
   + keys_inclusive_ns profile (expanded_keys profile parent_item)
   <= item_ns profile parent_item)%N.
Proof.
  unfold bounded_at, item_ns, expanded_keys, children_inclusive_ns, keys_inclusive_ns.
  destruct (exclusive parent_item); simpl; lia.
Qed.

Lemma expanded_ns_conserving (parent_item : LayoutItem num) :
  exclusive parent_item = false ->
  conserving_at profile (node_key parent_item) ->
  (exclusive_ns (node profile (node_key parent_item))
   + keys_inclusive_ns profile (expanded_keys profile parent_item))%N
  = item_ns profile parent_item.
Proof.
  unfold conserving_at, item_ns, expanded_keys, children_inclusive_ns, keys_inclusive_ns.
  intros -> H. exact H.
Qed.

Lemma expanded_ns_exclusive (parent_item : LayoutItem num) :
  exclusive parent_item = true ->
  (exclusive_ns (node profile (node_key parent_item))
   + keys_inclusive_ns profile (expanded_keys profile parent_item))%N
  = item_ns profile parent_item.
Proof.
  unfold item_ns, expanded_keys, keys_inclusive_ns. intros ->. simpl. lia.
Qed.

(** With bounded nodes, a derived column stands for no more than its
    parents. *)
Lemma expansions_ns_bounded (parents : list (LayoutItem num)) :
  (forall k, bounded_at profile k) ->
  forall from groups to,
    expansions profile time_scale from parents groups to ->
    (group_ns profile (concat groups) <= group_ns profile parents)%N.
Proof.
  intros Hb. induction parents as [| parent_item parents IH];
    intros from groups to He; inversion He; subst; simpl; [lia |].
  rewrite group_ns_app, (generated_ns H2).
  pose proof (expanded_ns_bounded parent_item (Hb _)).
  pose proof (IH _ _ _ H5). lia.
Qed.

(** With conserving nodes, it stands for as much. *)
Lemma expansions_ns_conserving (parents : list (LayoutItem num)) :
  (forall k, conserving_at profile k) ->
  forall from groups to,
    expansions profile time_scale from parents groups to ->
    group_ns profile (concat groups) = group_ns profile parents.
Proof.
  intros Hc. induction parents as [| parent_item parents IH];
    intros from groups to He; inversion He; subst; simpl; [reflexivity |].
  rewrite group_ns_app, (generated_ns H2), (IH _ _ _ H5).
  destruct (exclusive parent_item) eqn:E.
  - rewrite (expanded_ns_exclusive _ E). reflexivity.
  - rewrite (expanded_ns_conserving _ E (Hc _)). reflexivity.
Qed.

End DurationFacts.

(** The run of [layoutProfile] on a tree: the root column and the columns
    derived from it, against the root's inclusive duration. *)
Lemma layoutProfile_tree {num : Type} {arith : Arith num} (profile : Profile)
    (height : Z -> nat) (fuel : nat) :
  tree_shaped profile height ->
  (height (nodeKey (rootNode profile)) <= fuel)%nat ->
  exists more : Layout num,
    let root_item := {| node_key := nodeKey (rootNode profile); exclusive := false;
                        span_start := lit_0; span_end := lit_1 |} in
    layoutProfile fuel profile = Ok ([root_item] :: more, [])
    /\ layered profile (of_count (inclusive_ns (rootNode profile))) ([root_item] :: more).
Proof.
  intros shaped enough.
  destruct (layoutProfile_returns (num := num) shaped enough) as [layout Hrun].
  pose proof Hrun as Hspec. apply layoutProfile_spec in Hspec.
  destruct Hspec as [-> | [entry [more [_ [Hb [_ [-> Hl]]]]]]].
  - exfalso. unfold layoutProfile in Hrun. rewrite (root_valid shaped) in Hrun.
    simpl in Hrun.
    destruct (is_empty (data (rootNode profile))) eqn:E.
    + apply (root_sampled shaped).
      destruct (data (rootNode profile)); [reflexivity | discriminate E].
    + apply bind_Ok in Hrun. destruct Hrun as [entry [_ Hrun]].
      apply bind_Ok in Hrun. destruct Hrun as [layout [Hloop Hrun]].
      injection Hrun as ->.
      apply (layout_loop_spec _ _ _ []) in Hloop; [| exact I].
      destruct Hloop as [_ [more Hm]]. discriminate Hm.
  - exists more. simpl. split; [exact Hrun |].
    unfold inclusive_ns. rewrite Hb. exact Hl.
Qed.

(** ** Tracking the columns *)

Section DoubleColumns.

Local Open Scope R_scope.

Variable profile : Profile.
Variable T : N.
Hypothesis T_pos : (0 < T)%N.
Hypothesis T_64 : (T < 2 ^ 64)%N.

Lemma share_sum (n m : N) :
  IZR (Z.of_N (n + m)) / IZR (Z.of_N T) = IZR (Z.of_N n) / IZR (Z.of_N T) + IZR (Z.of_N m) / IZR (Z.of_N T).
Proof.
  pose proof (Tr_ge_1 T_pos T_64). rewrite N2Z.inj_add, plus_IZR. field. lra.
Qed.

Lemma share_unit (n : N) : (n <= T)%N -> 0 <= IZR (Z.of_N n) / IZR (Z.of_N T) <= 1.
Proof.
  intros Hn. pose proof (Tr_ge_1 T_pos T_64) as HT.
  assert (H0 : 0 <= IZR (Z.of_N n)) by (apply IZR_le; lia).
  assert (H1 : IZR (Z.of_N n) <= IZR (Z.of_N T)) by (apply IZR_le; lia).
  assert (Hi : 0 < / IZR (Z.of_N T)) by (apply Rinv_0_lt_compat; lra).
  split.
  - apply Rmult_le_pos; lra.
  - apply Rmult_le_reg_r with (IZR (Z.of_N T)); [lra |].
    unfold Rdiv. rewrite Rmult_assoc, Rinv_l by lra. lra.
Qed.

Lemma within_0 : within T 0 0 0%float.
Proof.
  destruct value_0 as [Hv Hf]. split; [exact Hf |]. rewrite Hv.
  split; [lra |]. simpl. unfold Rdiv. rewrite !Rmult_0_l, Rminus_diag, Rabs_R0.
  pose proof (bpow_pos (-53)). lra.
Qed.

Lemma within_1 : within T 1 T 1%float.
Proof.
  destruct value_1 as [Hv Hf]. pose proof (Tr_ge_1 T_pos T_64) as HT.
  split; [exact Hf |]. rewrite Hv.
  split; [lra |].
  replace (IZR (Z.of_N T) / IZR (Z.of_N T)) with 1 by (field; lra).
  rewrite Rminus_diag, Rabs_R0. change (IZR (Z.of_N 1)) with 1.
  pose proof (bpow_pos (-53)). lra.
Qed.

(** The error of a cursor in a column of [J] items at most. *)
Lemma within_error (j n J : N) (c : float) :
  within T j n c -> (n <= T)%N -> (j <= J)%N ->
  finite c = true /\ 0 <= value c
  /\ Rabs (value c - IZR (Z.of_N n) / IZR (Z.of_N T)) <= (4 + 2 * IZR (Z.of_N J)) * bpow (-53).
Proof.
  intros [Hf [H0 He]] Hn Hj. split; [exact Hf |]. split; [exact H0 |].
  eapply Rle_trans; [exact He |].
  apply Rmult_le_compat_r; [left; apply bpow_pos |].
  pose proof (share_unit Hn).
  assert (IZR (Z.of_N j) <= IZR (Z.of_N J)) by (apply IZR_le; lia). lra.
Qed.

Lemma linked_tracks (items : list (LayoutItem float)) :
  forall (j n : N) (from to : float),
    linked from items to ->
    Forall (measured profile (double_of_N T)) items ->
    (n + group_ns profile items <= T)%N ->
    (j + N.of_nat (length items) <= 10000000)%N ->
    within T j n from ->
    tracks profile T j n items
    /\ within T (j + N.of_nat (length items)) (n + group_ns profile items) to.
Proof.
  induction items as [| item items IH]; intros j n from to Hl Hm Hn Hj Hw.
  - simpl in *. subst to. rewrite !N.add_0_r. split; [exact I | exact Hw].
  - destruct Hl as [Hs Hl]. inversion Hm as [| ? ? Hi Hm']; subst.
    change (span_end item
            = (span_start item + double_of_N (item_ns profile item) / double_of_N T)%float)
      in Hi.
    change (group_ns profile (item :: items))
      with (item_ns profile item + group_ns profile items)%N in *.
    assert (Hlen : N.of_nat (length (item :: items)) = (1 + N.of_nat (length items))%N)
      by (simpl length; lia).
    rewrite Hlen in *.
    destruct (@within_step T T_pos T_64 j n (item_ns profile item) (span_start item))
      as [Hw' Hle]; [lia | lia | exact Hw |].
    rewrite <- Hi in Hw', Hle.
    destruct (IH (j + 1)%N (n + item_ns profile item)%N _ _ Hl Hm') as [Ht Hto];
      [lia | lia | exact Hw' |].
    split.
    + simpl. split; [exact Hw | split; [exact Hw' | split; [exact Hle | exact Ht]]].
    + rewrite !N.add_assoc. exact Hto.
Qed.

(** The spans of a tracked column of four million items at most. *)
Lemma tracks_spans (items : list (LayoutItem float)) :
  forall j n : N,
    tracks profile T j n items ->
    (n + group_ns profile items <= T)%N ->
    (j + N.of_nat (length items) <= 4000000)%N ->
    Forall (fun item => finite (span_start item) = true
                        /\ finite (span_end item) = true
                        /\ 0 <= value (span_start item)
                        /\ value (span_start item) <= value (span_end item)
                        /\ value (span_end item) <= 1 + / 1000000000) items.
Proof.
  induction items as [| item items IH]; intros j n Ht Hn Hj; [constructor |].
  destruct Ht as [Hs [He [Hle Ht]]].
  change (group_ns profile (item :: items))
    with (item_ns profile item + group_ns profile items)%N in *.
  assert (Hlen : N.of_nat (length (item :: items)) = (1 + N.of_nat (length items))%N)
    by (simpl length; lia).
  rewrite Hlen in *.
  constructor; [| apply (IH (j + 1)%N (n + item_ns profile item)%N Ht); lia].
  destruct (@within_error j n 4000000 _ Hs) as [Hfs [Hs0 _]]; [lia | lia |].
  destruct (@within_error (j + 1) (n + item_ns profile item) 4000000 _ He)
    as [Hfe [_ Hee]]; [lia | lia |].
  pose proof (@share_unit (n + item_ns profile item) ltac:(lia)) as Hu.
  destruct u_small as [Hu0 Hu1].
  apply Rabs_le_iff in Hee. change (IZR (Z.of_N 4000000)) with 4000000 in Hee.
  repeat split; try assumption. lra.
Qed.

Lemma tracks_finite (items : list (LayoutItem float)) :
  forall j n : N,
    tracks profile T j n items ->
    Forall (fun item => finite (span_start item) = true /\ finite (span_end item) = true)
           items.
Proof.
  induction items as [| item items IH]; intros j n Ht; [constructor |].
  destruct Ht as [[Fs _] [[Fe _] [_ Ht]]].
  constructor; [split; assumption | exact (IH _ _ Ht)].
Qed.

Lemma linked_span_total (items : list (LayoutItem float)) :
  forall from to : float,
    linked from items to -> span_total items = value to - value from.
Proof.
  induction items as [| item items IH]; intros from to Hl; simpl in *.
  - subst to. lra.
  - destruct Hl as [<- Hl]. rewrite (IH _ _ Hl). lra.
Qed.

(** The groups of a column of a million items at most, derived from a
    tracked column of a million items at most. *)
Lemma expansions_lengths (parents : list (LayoutItem float)) :
  forall (from to : float) (groups : list (list (LayoutItem float))) (jp np j n : N),
    expansions profile (double_of_N T) from parents groups to ->
    tracks profile T jp np parents ->
    within T j n from ->
    (np + group_ns profile parents <= T)%N ->
    (n + group_ns profile (concat groups) <= T)%N ->
    (jp + N.of_nat (length parents) <= 1000000)%N ->
    (j + N.of_nat (length (concat groups)) <= 1000000)%N ->
    Forall2 (fun parent_item group =>
               exclusive parent_item = false ->
               conserving_at profile (node_key parent_item) ->
               group_length parent_item group) parents groups.
Proof.
  induction parents as [| parent_item parents IH];
    intros from to groups jp np j n He Ht Hw Hnp Hn Hjp Hj; inversion He; subst;
    constructor.
  - intros Hx Hc.
    destruct Ht as [Hps [Hpe _]].
    pose proof (generated_ns H2) as HG.
    rewrite (expanded_ns_conserving _ Hx Hc) in HG.
    destruct H2 as [Hl [Hm _]].
    simpl concat in Hn, Hj. rewrite group_ns_app in Hn. rewrite length_app in Hj.
    change (group_ns profile (parent_item :: parents))
      with (item_ns profile parent_item + group_ns profile parents)%N in Hnp.
    simpl length in Hjp.
    destruct (@linked_tracks group j n from mid Hl Hm) as [Htg Hmid]; [lia | lia | exact Hw |].
    rewrite HG in Hmid.
    unfold group_length.
    split; [constructor; [exact (conj (proj1 Hps) (proj1 Hpe)) | exact (tracks_finite _ _ _ Htg)] |].
    rewrite (linked_span_total _ _ _ Hl).
    destruct (@within_error j n 1000000 _ Hw) as [_ [_ E1]]; [lia | lia |].
    destruct (@within_error _ _ 1000000 _ Hmid) as [_ [_ E2]]; [lia | lia |].
    destruct (@within_error jp np 1000000 _ Hps) as [_ [_ E3]]; [lia | lia |].
    destruct (@within_error _ _ 1000000 _ Hpe) as [_ [_ E4]]; [lia | lia |].
    rewrite share_sum in E2, E4.
    destruct u_small as [Hu0 Hu1].
    change (IZR (Z.of_N 1000000)) with 1000000 in *.
    apply Rabs_le_iff in E1, E2, E3, E4. apply Rabs_le_iff. lra.
  - destruct Ht as [_ [_ [_ Ht]]].
    pose proof (generated_ns H2) as HG.
    destruct H2 as [Hl [Hm _]].
    simpl concat in Hn, Hj. rewrite group_ns_app in Hn. rewrite length_app in Hj.
    change (group_ns profile (parent_item :: parents))
      with (item_ns profile parent_item + group_ns profile parents)%N in Hnp.
    simpl length in Hjp.
    destruct (@linked_tracks group j n from mid Hl Hm) as [_ Hmid]; [lia | lia | exact Hw |].
    eapply (IH mid to groups0 (jp + 1)%N (np + item_ns profile parent_item)%N
               (j + N.of_nat (length group))%N (n + group_ns profile group)%N);
      try eassumption; lia.
Qed.

End DoubleColumns.

(** ** The layout of a tree, in double precision *)

Lemma Forall2_both {A B : Type} (P Q : A -> B -> Prop) (l : list A) (l' : list B) :
  Forall2 P l l' -> Forall2 Q l l' -> Forall2 (fun a b => P a b /\ Q a b) l l'.
Proof.
  intros HP. induction HP; intros HQ; inversion HQ; subst; constructor.
  - split; assumption.
  - apply IHHP. assumption.
Qed.

Lemma expansions_group_shape (profile : Profile) (time_scale : float)
    (parents : list (LayoutItem float)) :
  forall from groups to,
    expansions profile time_scale from parents groups to ->
    Forall2 (group_shape profile) parents groups.
Proof.
  induction parents as [| parent_item parents IH]; intros from groups to He;
    inversion He; subst; constructor.
  - destruct H2 as [Hlk [_ [Hk Hx]]].
    split; [exact Hk |]. split; [exact Hx |]. exact (linked_contiguous _ _ _ Hlk).
  - eapply IH; eassumption.
Qed.

(** The run of [layoutProfile] on a tree with bounded nodes: every column
    is [column_ok]. *)
Lemma layoutProfile_columns (profile : Profile) (height : Z -> nat) (fuel : nat) :
  tree_shaped profile height ->
  (height (nodeKey (rootNode profile)) <= fuel)%nat ->
  (0 < inclusive_ns (rootNode profile) < 2 ^ 64)%N ->
  (forall k, bounded_at profile k) ->
  exists more : Layout float,
    let root_item := {| node_key := nodeKey (rootNode profile); exclusive := false;
                        span_start := 0%float; span_end := 1%float |} in
    layoutProfile fuel profile = Ok ([root_item] :: more, [])
    /\ layered profile (double_of_N (inclusive_ns (rootNode profile))) ([root_item] :: more)
    /\ Forall (column_ok profile (inclusive_ns (rootNode profile))) ([root_item] :: more).
Proof.
  intros Hs Hf [Hp H64] Hb.
  destruct (layoutProfile_tree (num := float) Hs Hf) as [more [Hrun Hl]].
  exists more. simpl. split; [exact Hrun |]. split; [exact Hl |].
  set (T := inclusive_ns (rootNode profile)) in *.
  set (root_item := {| node_key := nodeKey (rootNode profile); exclusive := false;
                       span_start := 0%float; span_end := 1%float |}).
  assert (Hroot : item_ns profile root_item = T).
  { unfold item_ns, root_item. simpl. rewrite (root_known Hs). reflexivity. }
  apply (layered_Forall (profile := profile) (time_scale := double_of_N T));
    [| exact Hl |].
  - intros parents children [Hpn _] [groups [to [-> He]]].
    destruct (expansions_linked He) as [Hlc Hmc].
    pose proof (expansions_ns_bounded Hb He) as Hle.
    split; [lia |]. exists to. split; [exact Hlc |]. intros Hlen.
    destruct (@linked_tracks profile T Hp H64 (concat groups) 0%N 0%N _ _ Hlc Hmc)
      as [Ht Hw]; [lia | lia | apply within_0; assumption |].
    rewrite !N.add_0_l in Hw. split; assumption.
  - split.
    + change (group_ns profile [root_item]) with (item_ns profile root_item + 0)%N.
      rewrite Hroot. lia.
    + exists 1%float. split; [split; reflexivity |]. intros _.
      change (group_ns profile [root_item]) with (item_ns profile root_item + 0)%N.
      rewrite N.add_0_r, Hroot.
      pose proof (within_0 T) as W0. pose proof (@within_1 T Hp H64) as W1.
      split; [| exact W1].
      simpl. rewrite Hroot.
      split; [exact W0 |]. split; [exact W1 |]. split; [| exact I].
      rewrite (proj1 value_0), (proj1 value_1). lra.
Qed.

(** C3, amended.  On a tree of sampled nodes whose root has an inclusive
    duration between 1 and 2^64 - 1 ns and in which no node's exclusive
    duration plus its children's inclusive durations exceeds its own
    inclusive duration, the layout is returned in double precision and, in
    every column of at most 4,000,000 items, the spans of every item are
    finite doubles with [0 <= span_start <= span_end <= 1 + 1e-9]. *)
Theorem layoutProfile_spans_in_unit (profile : Profile) (height : Z -> nat) (fuel : nat) :
  tree_shaped profile height ->
  (height (nodeKey (rootNode profile)) <= fuel)%nat ->
  (0 < inclusive_ns (rootNode profile) < 2 ^ 64)%N ->
  (forall k, bounded_at profile k) ->
  exists layout : Layout float,
    layoutProfile fuel profile = Ok (layout, [])
    /\ Forall (fun column =>
                 (N.of_nat (length column) <= 4000000)%N ->
                 Forall (fun item => finite (span_start item) = true
                                     /\ finite (span_end item) = true
                                     /\ (0 <= value (span_start item))%R
                                     /\ (value (span_start item) <= value (span_end item))%R
                                     /\ (value (span_end item) <= 1 + / 1000000000)%R)
                        column) layout.
Proof.
  intros Hs Hf Hp Hb.
  destruct (layoutProfile_columns Hs Hf Hp Hb) as [more [Hrun [_ Hok]]].
  eexists. split; [exact Hrun |].
  eapply Forall_impl; [| exact Hok].
  intros column [Hn [to [_ Ht]]] Hlen.
  destruct Ht as [Ht _]; [lia |].
  apply (@tracks_spans profile _ (proj1 Hp) (proj2 Hp) column 0%N 0%N Ht); lia.
Qed.

(** C4, amended.  On such a tree, in the layout returned in double
    precision, the column after a column of parents is made of one group per
    parent item, in order: the parent's exclusive item, then one
    non-exclusive item per child key when the parent is not exclusive; the
    items of a group are contiguous.  When both columns have at most
    1,000,000 items, the span lengths of the group of a non-exclusive parent
    add up to the parent's own span length within [1e-9], provided the parent
    node's exclusive duration and its children's inclusive durations add up
    to its inclusive duration. *)
Theorem layoutProfile_groups (profile : Profile) (height : Z -> nat) (fuel : nat) :
  tree_shaped profile height ->
  (height (nodeKey (rootNode profile)) <= fuel)%nat ->
  (0 < inclusive_ns (rootNode profile) < 2 ^ 64)%N ->
  (forall k, bounded_at profile k) ->
  exists layout : Layout float,
    layoutProfile fuel profile = Ok (layout, [])
    /\ forall (i : nat) (parents children : list (LayoutItem float)),
         nth_error layout i = Some parents ->
         nth_error layout (S i) = Some children ->
         exists groups,
           children = concat groups
           /\ Forall2 (fun parent_item group =>
                         group_shape profile parent_item group
                         /\ ((N.of_nat (length parents) <= 1000000)%N ->
                             (N.of_nat (length children) <= 1000000)%N ->
                             exclusive parent_item = false ->
                             conserving_at profile (node_key parent_item) ->
                             group_length parent_item group))
                      parents groups.
Proof.
  intros Hs Hf Hp Hb.
  destruct (layoutProfile_columns Hs Hf Hp Hb) as [more [Hrun [Hl Hok]]].
  eexists. split; [exact Hrun |].
  intros i parents children Hi Hsi.
  set (T := inclusive_ns (rootNode profile)) in *.
  rewrite Forall_forall in Hok.
  destruct (Hok _ (nth_error_In _ _ Hi)) as [Hpn [pto [_ Hpt]]].
  destruct (Hok _ (nth_error_In _ _ Hsi)) as [Hcn _].
  assert (Hex : expands profile (double_of_N T) parents children)
    by (eapply layered_nth; eassumption).
  destruct Hex as [groups [to [-> He]]].
  exists groups. split; [reflexivity |].
  pose proof (expansions_group_shape He) as Hshape.
  destruct (N.le_gt_cases (N.of_nat (length parents)) 1000000) as [Hlp | Hlp];
    [destruct (N.le_gt_cases (N.of_nat (length (concat groups))) 1000000) as [Hlc | Hlc] |].
  - destruct Hpt as [Hpt _]; [lia |].
    pose proof (@expansions_lengths profile T (proj1 Hp) (proj2 Hp) parents _ _ groups
                  0%N 0%N 0%N 0%N He Hpt (within_0 T)
                  ltac:(lia) ltac:(lia) ltac:(lia) ltac:(lia)) as Hlen.
    eapply Forall2_impl; [| exact (Forall2_both Hshape Hlen)].
    intros a b [H1 H2]. split; [exact H1 | intros _ _; exact H2].
  - eapply Forall2_impl; [| exact Hshape].
    intros a b H. split; [exact H | intros; lia].
  - eapply Forall2_impl; [| exact Hshape].
    intros a b H. split; [exact H | intros; lia].
Qed.

(** X21.  On a tree of sampled nodes whose root has an inclusive duration
    between 1 and 2^64 - 1 ns and in which every node's exclusive duration
    and children's inclusive durations add up to its inclusive duration, the
    layout is returned in double precision and every column fills the unit
    interval: its first item starts at the double 0 and, when the column has
    at most 4,000,000 items, its last item ends within [1e-9] of 1. *)
Theorem layoutProfile_columns_fill (profile : Profile) (height : Z -> nat) (fuel : nat) :
  tree_shaped profile height ->
  (height (nodeKey (rootNode profile)) <= fuel)%nat ->
  (0 < inclusive_ns (rootNode profile) < 2 ^ 64)%N ->
  (forall k, conserving_at profile k) ->
  exists layout : Layout float,
    layoutProfile fuel profile = Ok (layout, [])
    /\ Forall (fun column =>
                 exists first rest,
                   column = first :: rest
                   /\ span_start first = 0%float
                   /\ ((N.of_nat (length column) <= 4000000)%N ->
                       finite (span_end (last column first)) = true
                       /\ (Rabs (value (span_end (last column first)) - 1)
                           <= / 1000000000)%R)) layout.
Proof.
  intros Hs Hf Hp Hc.
  assert (Hb : forall k, bounded_at profile k).
  { intros k. unfold bounded_at. rewrite (Hc k). apply N.le_refl. }
  destruct (layoutProfile_columns Hs Hf Hp Hb) as [more [Hrun [Hl Hok]]].
  eexists. split; [exact Hrun |].
  set (T := inclusive_ns (rootNode profile)) in *.
  set (root_item := {| node_key := nodeKey (rootNode profile); exclusive := false;
                       span_start := 0%float; span_end := 1%float |}) in *.
  assert (Hfull : Forall (fun column => column <> [] /\ group_ns profile column = T)
                    ([root_item] :: more)).
  { apply (layered_Forall (profile := profile) (time_scale := double_of_N T));
      [| exact Hl |].
    - intros parents children [Hne Hn] [groups [to [-> He]]].
      split; [eapply expansions_nonempty; eassumption |].
      rewrite (expansions_ns_conserving Hc He). exact Hn.
    - split; [discriminate |].
      change (group_ns profile [root_item]) with (item_ns profile root_item + 0)%N.
      unfold item_ns, root_item. simpl. rewrite (root_known Hs). apply N.add_0_r. }
  eapply Forall_impl; [| exact (Forall_and Hok Hfull)].
  intros column [[_ [to [Hlk Ht]]] [Hne Hn]].
  destruct column as [| first rest]; [contradiction Hne; reflexivity |].
  exists first, rest. split; [reflexivity |]. split; [exact (proj1 Hlk) |].
  intros Hlen. destruct Ht as [_ Hw]; [lia |].
  rewrite (@linked_last float rest 0%float to first first Hlk). rewrite Hn in Hw.
  destruct (@within_error T (proj1 Hp) (proj2 Hp) _ _ 4000000 _ Hw) as [Hfin [_ He]];
    [lia | lia |].
  split; [exact Hfin |].
  replace (IZR (Z.of_N T) / IZR (Z.of_N T))%R with 1%R in He.
  2:{ pose proof (Tr_ge_1 (proj1 Hp) (proj2 Hp)). field. lra. }
  destruct u_small as [Hu0 Hu1]. change (IZR (Z.of_N 4000000)) with 4000000%R in He.
  eapply Rle_trans; [exact He |]. lra.
Qed.

(** ** The scenario, in double precision *)

(** The real number of a double given by its sign, mantissa and exponent. *)
Lemma value_finite (x : float) (s : bool) (m : positive) (e : Z) :
  Prim2SF x = S754_finite s m e -> value x = (IZR (cond_Zopp s (Z.pos m)) * bpow e)%R.
Proof. intros H. unfold value. rewrite H. reflexivity. Qed.

Lemma bpow_neg (p : positive) : bpow (Z.neg p) = (/ IZR (2 ^ Z.pos p))%R.
Proof.
  change (Z.neg p) with (- Z.pos p)%Z. rewrite bpow_opp, bpow_IZR by lia. reflexivity.
Qed.

Lemma value_2_2 : (2 < value 2.2%float)%R.
Proof.
  rewrite (value_finite 2.2%float (s := false) (m := 4953959590107546) (e := -51))
    by (vm_compute; reflexivity).
  simpl cond_Zopp. rewrite bpow_neg.
  change (2 ^ 51)%Z with 2251799813685248%Z. lra.
Qed.

Lemma value_0_7 : (value 0.7%float < 8 / 10)%R.
Proof.
  rewrite (value_finite 0.7%float (s := false) (m := 6305039478318694) (e := -53))
    by (vm_compute; reflexivity).
  simpl cond_Zopp. rewrite bpow_neg.
  change (2 ^ 53)%Z with 9007199254740992%Z. lra.
Qed.

(** The layout of the scenario has its spans in [[0, 1 + 1e-9]]. *)
Lemma layoutProfile_spans_in_unit_scenario :
  exists layout : Layout float,
    layoutProfile 1 Scenario.profile = Ok (layout, [])
    /\ Forall (fun column =>
                 (N.of_nat (length column) <= 4000000)%N ->
                 Forall (fun item => finite (span_start item) = true
                                     /\ finite (span_end item) = true
                                     /\ (0 <= value (span_start item))%R
                                     /\ (value (span_start item) <= value (span_end item))%R
                                     /\ (value (span_end item) <= 1 + / 1000000000)%R)
                        column) layout.
Proof.
  apply (layoutProfile_spans_in_unit (height := Scenario.height)).
  - apply two_nodes_tree.
  - vm_compute. lia.
  - vm_compute. split; reflexivity.
  - apply two_nodes_bounded. vm_compute. discriminate.
Defined.

(** C3 as stated fails.  A child whose inclusive duration, 200ns, is above
    the root's 100ns ends at the double 2.2, beyond any tolerance. *)
Lemma layoutProfile_span_beyond_one :
  layoutProfile (arith := binary64) 1 (Scenario.two_nodes 200)
  = Ok (Scenario.two_columns 0.2%float 2.2%float, [])
  /\ PrimFloat.ltb (1 + 1e-9)%float 2.2%float = true
  /\ (1 + / 1000000000 < value 2.2%float)%R.
Proof.
  split; [vm_compute; reflexivity |].
  split; [vm_compute; reflexivity |].
  pose proof value_2_2. lra.
Qed.

(** Without a tolerance the upper bound fails on a tree that respects its
    durations: with nine children of 1ns under a root of 9ns, the last child
    ends at the double after 1; with ten children of 1ns under a root of
    10ns it ends at the double before 1. *)
Example layoutProfile_equal_children :
  let last_end (count : nat) :=
    match layoutProfile (arith := binary64) 1 (Cases.equal_children count) with
    | Ok ([_; children], []) =>
        map (@span_end float) (skipn count children)
    | _ => []
    end in
  last_end 9%nat = [1.0000000000000002%float]
  /\ PrimFloat.ltb 1%float 1.0000000000000002%float = true
  /\ last_end 10%nat = [0.99999999999999989%float]
  /\ PrimFloat.ltb 0.99999999999999989%float 1%float = true.
Proof. repeat split; vm_compute; reflexivity. Qed.

(** The groups of the layout of the scenario. *)
Lemma layoutProfile_groups_scenario :
  exists layout : Layout float,
    layoutProfile 1 Scenario.profile = Ok (layout, [])
    /\ forall (i : nat) (parents children : list (LayoutItem float)),
         nth_error layout i = Some parents ->
         nth_error layout (S i) = Some children ->
         exists groups,
           children = concat groups
           /\ Forall2 (fun parent_item group =>
                         group_shape Scenario.profile parent_item group
                         /\ ((N.of_nat (length parents) <= 1000000)%N ->
                             (N.of_nat (length children) <= 1000000)%N ->
                             exclusive parent_item = false ->
                             conserving_at Scenario.profile (node_key parent_item) ->
                             group_length parent_item group))
                      parents groups.
Proof.
  apply (layoutProfile_groups (height := Scenario.height)).
  - apply two_nodes_tree.
  - vm_compute. lia.
  - vm_compute. split; reflexivity.
  - apply two_nodes_bounded. vm_compute. discriminate.
Defined.

(** C4 as stated fails.  With a child of inclusive duration 50ns under the
    root of inclusive 100ns and exclusive 20ns, the group of the root item
    runs from 0 to the double 0.7: its span lengths add up to less than 0.8,
    the root item's own span length is 1. *)
Lemma layoutProfile_group_shorter :
  layoutProfile (arith := binary64) 1 (Scenario.two_nodes 50)
  = Ok (Scenario.two_columns 0.2%float 0.7%float, [])
  /\ (span_total (nth 1 (Scenario.two_columns 0.2%float 0.7%float) []) < 8 / 10)%R
  /\ (value 1%float - value 0%float = 1)%R.
Proof.
  split; [vm_compute; reflexivity |].
  split.
  - change (value 0.2%float - value 0%float + (value 0.7%float - value 0.2%float + 0)
            < 8 / 10)%R.
    rewrite (proj1 value_0). pose proof value_0_7. lra.
  - rewrite (proj1 value_0), (proj1 value_1). lra.
Qed.

Lemma layoutProfile_columns_fill_scenario :
  exists layout : Layout float,
    layoutProfile 1 Scenario.profile = Ok (layout, [])
    /\ Forall (fun column =>
                 exists first rest,
                   column = first :: rest
                   /\ span_start first = 0%float
                   /\ ((N.of_nat (length column) <= 4000000)%N ->
                       finite (span_end (last column first)) = true
                       /\ (Rabs (value (span_end (last column first)) - 1)
                           <= / 1000000000)%R)) layout.
Proof.
  apply (layoutProfile_columns_fill (height := Scenario.height)).
  - apply two_nodes_tree.
  - vm_compute. lia.
  - vm_compute. split; reflexivity.
  - apply two_nodes_conserving.
Defined.

(** ** The padding, in double precision *)

Section Padding.

Local Open Scope R_scope.

(** The powers of two that the padding is compared with. *)
Lemma bpow_rationals :
  bpow (-44) = / 17592186044416
  /\ bpow (-49) = / 562949953421312
  /\ bpow (-50) = / 1125899906842624
  /\ bpow (-53) = / 9007199254740992.
Proof. repeat split; rewrite bpow_neg; reflexivity. Qed.

Lemma small_fits (z : R) : Rabs z <= 4 -> Rabs z < bpow 1023.
Proof.
  intros H. apply Rle_lt_trans with 4; [exact H |].
  apply Rlt_le_trans with (bpow 3); [| apply bpow_le; lia].
  rewrite (bpow_IZR 3) by lia. simpl. lra.
Qed.

Lemma value_0_05 : / 32 <= value 0.05%float <= / 16 /\ finite 0.05%float = true.
Proof.
  split; [| reflexivity].
  rewrite (value_finite 0.05%float (s := false) (m := 7205759403792794) (e := -57))
    by (vm_compute; reflexivity).
  simpl cond_Zopp. rewrite bpow_neg.
  change (2 ^ 57)%Z with 144115188075855872%Z. lra.
Qed.

Lemma value_pow2 (x : float) (e : Z) :
  Prim2SF x = S754_finite false 4503599627370496 e ->
  value x = bpow (e + 52) /\ finite x = true.
Proof.
  intros H. unfold value, finite. rewrite H. split; [| reflexivity].
  unfold SF2R. simpl cond_Zopp. change 4503599627370496%Z with (2 ^ 52)%Z.
  rewrite <- (bpow_IZR 52) by lia. rewrite <- bpow_add. f_equal. ring.
Qed.

Variables s e : float.
Hypothesis s_finite : finite s = true.
Hypothesis e_finite : finite e = true.
Hypothesis s_nonneg : 0 <= value s.
Hypothesis s_le_e : value s <= value e.
Hypothesis e_le_1 : value e <= 1.

Local Abbreviation d := (e - s)%float.
Local Abbreviation m := (0.05 * d)%float.
Local Abbreviation x := (s - m)%float.
Local Abbreviation y := (e + m)%float.

Lemma padding_steps :
  rounded (value e - value s) d
  /\ rounded (value 0.05%float * value d) m
  /\ rounded (value s - value m) x
  /\ rounded (value e + value m) y
  /\ 0 <= value d <= 1
  /\ 0 <= value m <= 1.
Proof.
  destruct value_0_05 as [Hc Hcf]. destruct value_1 as [H1 H1f].
  assert (Hd : rounded (value e - value s) d).
  { apply sub_rounded; try assumption. apply small_fits.
    rewrite Rabs_pos_eq by lra. lra. }
  assert (Hd0 : 0 <= value d) by (apply (rounded_nonneg _ _ Hd); lra).
  assert (Hd1 : value d <= 1).
  { rewrite <- H1. apply (rounded_le _ _ Hd 1%float H1f). lra. }
  assert (Hm : rounded (value 0.05%float * value d) m).
  { apply mul_rounded; [exact Hcf | exact (rounded_finite _ _ Hd) |]. apply small_fits.
    rewrite Rabs_pos_eq by nra. nra. }
  assert (Hm0 : 0 <= value m) by (apply (rounded_nonneg _ _ Hm); nra).
  assert (Hm1 : value m <= 1).
  { rewrite <- H1. apply (rounded_le _ _ Hm 1%float H1f). nra. }
  assert (Hx : rounded (value s - value m) x).
  { apply sub_rounded; [exact s_finite | exact (rounded_finite _ _ Hm) |].
    apply small_fits. apply Rabs_le_iff. lra. }
  assert (Hy : rounded (value e + value m) y).
  { apply add_rounded; [exact e_finite | exact (rounded_finite _ _ Hm) |].
    apply small_fits. apply Rabs_le_iff. lra. }
  exact (conj Hd (conj Hm (conj Hx (conj Hy (conj (conj Hd0 Hd1) (conj Hm0 Hm1)))))).
Qed.

(** An empty span is not padded. *)
Lemma padding_empty : value s = value e -> value x = value s /\ value y = value e.
Proof.
  intros E. destruct padding_steps as [Hd [Hm [Hx [Hy _]]]].
  assert (Hd0 : value d = 0).
  { pose proof (rounded_nonneg _ _ Hd). pose proof (rounded_nonpos _ _ Hd). lra. }
  assert (Hm0 : value m = 0).
  { rewrite Hd0 in Hm.
    pose proof (rounded_nonneg _ _ Hm). pose proof (rounded_nonpos _ _ Hm). lra. }
  rewrite Hm0 in Hx, Hy.
  replace (value s - 0) with (value s) in Hx by lra.
  replace (value e + 0) with (value e) in Hy by lra.
  split; apply rounded_value; assumption.
Qed.

(** A span of [2^-44] at least is padded by more than the spacing of the
    doubles around it. *)
Lemma padding_wide :
  bpow (-44) <= value e - value s -> value x < value s /\ value e < value y.
Proof.
  intros Hw. destruct padding_steps as [Hd [Hm [Hx [Hy [Hd1 Hm1]]]]].
  destruct value_0_05 as [Hc Hcf].
  destruct (value_pow2 0x1p-44%float (e := -96) ltac:(vm_compute; reflexivity)) as [V44 F44].
  destruct (value_pow2 0x1p-49%float (e := -101) ltac:(vm_compute; reflexivity)) as [V49 F49].
  destruct (value_pow2 0x1p-50%float (e := -102) ltac:(vm_compute; reflexivity)) as [V50 F50].
  simpl Z.add in V44, V49, V50.
  destruct bpow_rationals as [B44 [B49 [B50 B53]]].
  assert (Hd44 : bpow (-44) <= value d).
  { rewrite <- V44. apply (rounded_ge _ _ Hd _ F44). rewrite V44. exact Hw. }
  assert (Hm49 : bpow (-49) <= value m).
  { rewrite <- V49. apply (rounded_ge _ _ Hm _ F49). rewrite V49.
    rewrite B44 in Hd44. rewrite B49. nra. }
  split.
  - assert (Hup : Rabs (value s - value 0x1p-50%float) < bpow 1023).
    { apply small_fits. rewrite V50, B50. apply Rabs_le_iff. lra. }
    pose proof (sub_rounded s 0x1p-50%float s_finite F50 Hup) as Hg.
    pose proof (sub_error s 0x1p-50%float s_finite F50 Hup) as He.
    assert (Hab : Rabs (value s - value 0x1p-50%float) <= 1).
    { rewrite V50, B50. apply Rabs_le_iff. lra. }
    assert (He' : Rabs (value (s - 0x1p-50)%float - (value s - value 0x1p-50%float))
                  <= bpow (-53)).
    { eapply Rle_trans; [exact He |]. pose proof (bpow_pos (-53)). nra. }
    apply Rabs_le_iff in He'. rewrite V50, B50, B53 in He'. rewrite B49 in Hm49.
    apply Rle_lt_trans with (value (s - 0x1p-50)%float); [| lra].
    apply (rounded_le _ _ Hx _ (rounded_finite _ _ Hg)). lra.
  - assert (Hup : Rabs (value e + value 0x1p-50%float) < bpow 1023).
    { apply small_fits. rewrite V50, B50. apply Rabs_le_iff. lra. }
    pose proof (add_rounded e 0x1p-50%float e_finite F50 Hup) as Hg.
    pose proof (add_error e 0x1p-50%float e_finite F50 Hup) as He.
    assert (Hab : Rabs (value e + value 0x1p-50%float) <= 2).
    { rewrite V50, B50. apply Rabs_le_iff. lra. }
    assert (He' : Rabs (value (e + 0x1p-50)%float - (value e + value 0x1p-50%float))
                  <= 2 * bpow (-53)).
    { eapply Rle_trans; [exact He |]. pose proof (bpow_pos (-53)). nra. }
    apply Rabs_le_iff in He'. rewrite V50, B50, B53 in He'. rewrite B49 in Hm49.
    apply Rlt_le_trans with (value (e + 0x1p-50)%float); [lra |].
    apply (rounded_ge _ _ Hy _ (rounded_finite _ _ Hg)). lra.
Qed.

(** The padded extent of a span in [[0, 1]]. *)
Lemma padding_double :
  let padded_start := if PrimFloat.ltb x 0 then 0%float else x in
  let padded_end := if PrimFloat.ltb 1 y then 1%float else y in
  finite padded_start = true
  /\ finite padded_end = true
  /\ 0 <= value padded_start <= value s
  /\ value e <= value padded_end <= 1
  /\ (value padded_start < value s -> 0 < value s < value e)
  /\ (value e < value padded_end -> value s < value e < 1)
  /\ (bpow (-44) <= value e - value s ->
      (0 < value s -> value padded_start < value s)
      /\ (value e < 1 -> value e < value padded_end)).
Proof.
  destruct padding_steps as [Hd [Hm [Hx [Hy [Hd1 Hm1]]]]].
  destruct value_0 as [V0 F0]. destruct value_1 as [V1 F1].
  pose proof (rounded_finite _ _ Hx) as Fx. pose proof (rounded_finite _ _ Hy) as Fy.
  assert (Hxs : value x <= value s) by (apply (rounded_le _ _ Hx s s_finite); lra).
  assert (Hye : value e <= value y) by (apply (rounded_ge _ _ Hy e e_finite); lra).
  assert (Hlt : value s < value e \/ value s = value e) by lra.
  pose proof padding_empty as Hempty. pose proof padding_wide as Hwide.
  pose proof (ltb_value x 0%float Fx F0) as Lx.
  pose proof (ltb_false_value x 0%float Fx F0) as Lx'.
  pose proof (ltb_value 1%float y F1 Fy) as Ly.
  pose proof (ltb_false_value 1%float y F1 Fy) as Ly'.
  rewrite V0 in Lx, Lx'. rewrite V1 in Ly, Ly'.
  cbv zeta.
  destruct (PrimFloat.ltb x 0) eqn:Ex; destruct (PrimFloat.ltb 1 y) eqn:Ey;
    rewrite ?V0, ?V1.
  all: try (assert (Hx0 : value x < 0) by (apply Lx; reflexivity)).
  all: try (assert (Hx0 : 0 <= value x) by (apply Lx'; reflexivity)).
  all: try (assert (Hy1 : 1 < value y) by (apply Ly; reflexivity)).
  all: try (assert (Hy1 : value y <= 1) by (apply Ly'; reflexivity)).
  all: split; [assumption |]; split; [assumption |].
  all: split; [lra |]; split; [lra |].
  all: split; [intros Hs; destruct Hlt as [Hlt | Hlt];
               [lra | destruct (Hempty Hlt); lra] |].
  all: split; [intros Hs; destruct Hlt as [Hlt | Hlt];
               [lra | destruct (Hempty Hlt); lra] |].
  all: intros Hw; destruct (Hwide Hw); split; intros; lra.
Qed.

End Padding.

(** C6, amended.  When [dataRect] matches an item in column [c] whose span
    [[s, e]] is made of finite doubles with [0 <= s <= e <= 1], the rectangle
    returned has the left edge [max(0, c - 0.2)] and runs vertically from a
    padded start to a padded end, finite doubles with
    [0 <= padded start <= s] and [e <= padded end <= 1]: the span is
    contained.  The padded start is below [s] only if [0 < s < e], the
    padded end above [e] only if [s < e < 1]; for a span of [2^-44] at
    least, the padded start is below [s] as soon as [0 < s], and the padded
    end above [e] as soon as [e < 1]. *)
Theorem dataRect_padding (active_key : DatabaseKey) (before after : Layout float)
    (above below : list (LayoutItem float)) (item : LayoutItem float) :
  Forall (Forall (fun other => node_key other <> key_nodeKey active_key)) before ->
  Forall (fun other => node_key other <> key_nodeKey active_key) above ->
  node_key item = key_nodeKey active_key ->
  finite (span_start item) = true ->
  finite (span_end item) = true ->
  (0 <= value (span_start item) <= value (span_end item))%R ->
  (value (span_end item) <= 1)%R ->
  let layout := before ++ (above ++ item :: below) :: after in
  let c := double_of_N (N.of_nat (length before)) in
  let left_edge := if PrimFloat.ltb 0 (c - 0.2) then (c - 0.2)%float else 0%float in
  exists padded_start padded_end : float,
    dataRect active_key layout
    = ({| xp := left_edge;
          yp := padded_start;
          w := (double_of_N (N.of_nat (length layout)) - left_edge)%float;
          h := (padded_end - padded_start)%float |}, [])
    /\ finite padded_start = true
    /\ finite padded_end = true
    /\ (0 <= value padded_start <= value (span_start item))%R
    /\ (value (span_end item) <= value padded_end <= 1)%R
    /\ ((value padded_start < value (span_start item))%R ->
        (0 < value (span_start item) < value (span_end item))%R)
    /\ ((value (span_end item) < value padded_end)%R ->
        (value (span_start item) < value (span_end item) < 1)%R)
    /\ ((bpow (-44) <= value (span_end item) - value (span_start item))%R ->
        ((0 < value (span_start item))%R ->
         (value padded_start < value (span_start item))%R)
        /\ ((value (span_end item) < 1)%R ->
            (value (span_end item) < value padded_end)%R)).
Proof.
  intros Hb Ha Hi Fs Fe [Hs0 Hse] He1 layout c left_edge.
  unfold layout. rewrite (dataRect_at_first _ _ _ _ Hb Ha Hi).
  pose proof (@padding_double _ _ Fs Fe Hs0 Hse He1) as H. cbv zeta in H.
  eexists. eexists. split; [| exact H]. reflexivity.
Qed.

(** The child of the scenario, matched in column 1 with span [[0.2, 1]]. *)
Lemma value_0_2 : (0 <= value 0.2%float <= 1)%R.
Proof.
  rewrite (value_finite 0.2%float (s := false) (m := 7205759403792794) (e := -55))
    by (vm_compute; reflexivity).
  simpl cond_Zopp. rewrite bpow_neg.
  change (2 ^ 55)%Z with 36028797018963968%Z. lra.
Qed.

Lemma dataRect_padding_scenario :
  let s := 0.2%float in
  let e := 1%float in
  let left_edge := 0.80000000000000004%float in
  exists padded_start padded_end : float,
    dataRect (ValidKey 0 Scenario.childKey) Scenario.layout
    = ({| xp := left_edge;
          yp := padded_start;
          w := (2 - left_edge)%float;
          h := (padded_end - padded_start)%float |}, [])
    /\ finite padded_start = true
    /\ finite padded_end = true
    /\ (0 <= value padded_start <= value s)%R
    /\ (value e <= value padded_end <= 1)%R
    /\ ((value padded_start < value s)%R -> (0 < value s < value e)%R)
    /\ ((value e < value padded_end)%R -> (value s < value e < 1)%R)
    /\ ((bpow (-44) <= value e - value s)%R ->
        ((0 < value s)%R -> (value padded_start < value s)%R)
        /\ ((value e < 1)%R -> (value e < value padded_end)%R)).
Proof.
  refine (@dataRect_padding (ValidKey 0 Scenario.childKey)
            [ [ {| node_key := Scenario.rootKey; exclusive := false;
                   span_start := 0%float; span_end := 1%float |} ] ]
            []
            [ {| node_key := Scenario.rootKey; exclusive := true;
                 span_start := 0%float; span_end := 0.2%float |} ]
            []
            {| node_key := Scenario.childKey; exclusive := false;
               span_start := 0.2%float; span_end := 1%float |} _ _ _ _ _ _ _).
  - repeat constructor; discriminate.
  - repeat constructor; discriminate.
  - reflexivity.
  - reflexivity.
  - reflexivity.
  - simpl. rewrite (proj1 value_1). exact value_0_2.
  - simpl. rewrite (proj1 value_1). apply Rle_refl.
Defined.

(** C6 as stated fails.  The root item, matched in column 0 with span
    [[0, 1]], gets the rectangle from 0 to 1: the padding is clamped away.
    An item with the span [[0.5, 0.5 + 2^-52]] gets the rectangle from 0.5
    with the height [2^-52]: the padding is rounded away. *)
Lemma dataRect_root_not_padded :
  dataRect (ValidKey 0 Scenario.rootKey) Scenario.layout
  = ({| xp := 0%float; yp := 0%float; w := 2%float; h := 1%float |}, [])
  /\ PrimFloat.ltb 0%float 0%float = false
  /\ PrimFloat.ltb 1%float (0 + 1)%float = false
  /\ dataRect (ValidKey 0 0)
       [ [ {| node_key := 0; exclusive := false;
              span_start := 0.5%float; span_end := 0.50000000000000022%float |} ] ]
     = ({| xp := 0%float; yp := 0.5%float; w := 1%float;
           h := 2.2204460492503131e-16%float |}, [])
  /\ PrimFloat.ltb 0.5%float 0.5%float = false
  /\ PrimFloat.ltb 0.50000000000000022%float (0.5 + 2.2204460492503131e-16)%float = false.
Proof. repeat split; vm_compute; reflexivity. Qed.

(** A span that ends past 1 by the rounding of its column is not contained
    at all: the ninth of nine equal children spans
    [[0.88888888888888906, 1.0000000000000002]] and the rectangle ends at 1. *)
Example dataRect_ninth_child :
  match layoutProfile (arith := binary64) 1 (Cases.equal_children 9) with
  | Ok (layout, _) => Some (dataRect (ValidKey 0 9) layout)
  | _ => None
  end
  = Some ({| xp := 0.80000000000000004%float; yp := 0.88333333333333353%float;
             w := 1.2%float; h := 0.11666666666666647%float |}, [])
  /\ (0.88333333333333353 + 0.11666666666666647)%float = 1%float
  /\ PrimFloat.ltb 1%float 1.0000000000000002%float = true.
Proof. repeat split; vm_compute; reflexivity. Qed.

(** ** The rectangle, whatever the spans *)

Lemma ltb_0_asym (a : float) : PrimFloat.ltb 0 a = true -> PrimFloat.ltb a 0 = false.
Proof.
  rewrite !ltb_spec. change (Prim2SF 0%float) with (S754_zero false).
  destruct (Prim2SF a) as [sa | sa | | sa ma ea]; try discriminate.
  - destruct sa; [discriminate | reflexivity].
  - destruct sa; [discriminate | reflexivity].
Qed.

Lemma clamp_left (a : float) :
  PrimFloat.ltb (if PrimFloat.ltb 0 a then a else 0%float) 0 = false.
Proof. destruct (PrimFloat.ltb 0 a) eqn:E; [apply ltb_0_asym; exact E | reflexivity]. Qed.

Lemma clamp_low (x : float) :
  PrimFloat.ltb (if PrimFloat.ltb x 0 then 0%float else x) 0 = false.
Proof. destruct (PrimFloat.ltb x 0) eqn:E; [reflexivity | exact E]. Qed.

Lemma clamp_high (y : float) :
  PrimFloat.ltb 1 (if PrimFloat.ltb 1 y then 1%float else y) = false.
Proof. destruct (PrimFloat.ltb 1 y) eqn:E; [reflexivity | exact E]. Qed.

(** X12.  Whatever the spans of the items are, not-a-number included, and
    whether the active key is found or not, [dataRect] returns the rectangle
    of two corner points, the second one in the column after the last, of
    which the first is neither left of 0 nor above 0 and the second is not
    below 1, in the sense of the comparison [<] of doubles. *)
Theorem dataRect_in_layout (active_key : DatabaseKey) (layout : Layout float) :
  exists tl br : QPointF float,
    fst (dataRect active_key layout)
    = {| xp := px tl; yp := py tl;
         w := (px br - px tl)%float; h := (py br - py tl)%float |}
    /\ px br = double_of_N (N.of_nat (length layout))
    /\ PrimFloat.ltb (px tl) 0 = false
    /\ PrimFloat.ltb (py tl) 0 = false
    /\ PrimFloat.ltb 1 (py br) = false.
Proof.
  destruct (dataRect_cases active_key layout) as [[c [item [_ ->]]] | ->]; cbn [fst].
  - unfold focus_rect, std_max, std_min, QRectF_of_points.
    cbn [px py add sub mul ltb lit_0 lit_1 lit_0_2 lit_0_05 of_count binary64].
    eexists {| px := _; py := _ |}, {| px := _; py := _ |}. cbn [px py].
    split; [reflexivity |]. split; [reflexivity |].
    split; [apply clamp_left |]. split; [apply clamp_low | apply clamp_high].
  - exists {| px := 0%float; py := 0%float |},
           {| px := double_of_N (N.of_nat (length layout)); py := 1%float |}.
    repeat split; reflexivity.
Qed.

(** X13.  For a layout of at least one column and fewer than [2^53], the
    rectangle returned by [dataRect] is at least one column wide, in double
    precision, whether the active key is found or not. *)
Theorem dataRect_width_positive (active_key : DatabaseKey) (layout : Layout float) :
  layout <> [] ->
  (N.of_nat (length layout) < 2 ^ 53)%N ->
  finite (w (fst (dataRect active_key layout))) = true
  /\ (1 <= value (w (fst (dataRect active_key layout))))%R.
Proof.
  intros Hne Hsize.
  destruct (double_of_N_exact _ Hsize) as [VS FS].
  destruct value_0 as [V0 F0]. destruct value_1 as [V1 F1].
  assert (Hlen : (1 <= IZR (Z.of_N (N.of_nat (length layout))))%R).
  { apply IZR_le. destruct layout; [contradiction Hne; reflexivity | simpl length; lia]. }
  assert (Hup : forall z : R, (0 <= z <= IZR (Z.of_N (N.of_nat (length layout))))%R ->
                              (Rabs z < bpow 1023)%R).
  { intros z Hz. rewrite Rabs_pos_eq by lra.
    apply Rle_lt_trans with (IZR (Z.of_N (N.of_nat (length layout)))); [lra |].
    apply Rlt_trans with (bpow 53); [| apply bpow_lt; lia].
    rewrite (bpow_IZR 53) by lia. apply IZR_lt.
    change (2 ^ 53)%Z with (Z.of_N (2 ^ 53)). lia. }
  destruct (dataRect_cases active_key layout) as [[c [item [Hc ->]]] | ->]; cbn [fst].
  - unfold focus_rect, std_max, QRectF_of_points.
    cbn [w px py add sub mul ltb lit_0 lit_1 lit_0_2 lit_0_05 of_count binary64].
    destruct (double_of_N_exact (N.of_nat c)) as [VC FC]; [lia |].
    assert (Hcs : (IZR (Z.of_N (N.of_nat c)) + 1 <= IZR (Z.of_N (N.of_nat (length layout))))%R).
    { rewrite <- plus_IZR. apply IZR_le. lia. }
    assert (Hc0 : (0 <= IZR (Z.of_N (N.of_nat c)))%R) by (apply IZR_le; lia).
    pose proof value_0_2 as H02.
    assert (F02 : finite 0.2%float = true) by reflexivity.
    assert (Ha : rounded (value (double_of_N (N.of_nat c)) - value 0.2%float)
                         (double_of_N (N.of_nat c) - 0.2)%float).
    { apply sub_rounded; [exact FC | exact F02 |]. rewrite VC.
      destruct (Rle_dec 0 (IZR (Z.of_N (N.of_nat c)) - value 0.2%float)) as [Hp | Hn].
      - apply Hup. lra.
      - rewrite Rabs_left by lra. apply Rlt_le_trans with (bpow 1); [rewrite bpow_1; lra |].
        apply bpow_le. lia. }
    set (a := (double_of_N (N.of_nat c) - 0.2)%float) in *.
    assert (Hle : (value a <= IZR (Z.of_N (N.of_nat c)))%R).
    { rewrite <- VC. apply (rounded_le _ _ Ha _ FC). lra. }
    pose proof (rounded_finite _ _ Ha) as Fa.
    assert (Hleft : finite (if PrimFloat.ltb 0 a then a else 0%float) = true
                    /\ (0 <= value (if PrimFloat.ltb 0 a then a else 0%float)
                        <= IZR (Z.of_N (N.of_nat c)))%R).
    { destruct (PrimFloat.ltb 0 a) eqn:E.
      - apply (ltb_value 0%float a F0 Fa) in E. rewrite V0 in E.
        split; [exact Fa | lra].
      - split; [exact F0 | rewrite V0; lra]. }
    destruct Hleft as [Fl [Hl0 Hl1]].
    set (left_edge := if PrimFloat.ltb 0 a then a else 0%float) in *.
    assert (Hw : rounded (value (double_of_N (N.of_nat (length layout))) - value left_edge)
                         (double_of_N (N.of_nat (length layout)) - left_edge)%float).
    { apply sub_rounded; [exact FS | exact Fl |]. rewrite VS. apply Hup. lra. }
    split; [exact (rounded_finite _ _ Hw) |].
    rewrite <- V1. apply (rounded_ge _ _ Hw _ F1). rewrite V1, VS. lra.
  - unfold full_rect, QRectF_of_points.
    cbn [w px py add sub mul ltb lit_0 lit_1 lit_0_2 lit_0_05 of_count binary64].
    rewrite sub_zero. split; [exact FS | rewrite VS; exact Hlen].
Qed.

(** X14.  When [dataRect] matches an item whose span is empty, its start and
    its end being one finite double in [[0, 1]] (or the two zeros), the
    rectangle returned has a height of value 0, in double precision: there
    is no padding around an item of no duration. *)
Theorem dataRect_height (active_key : DatabaseKey) (before after : Layout float)
    (above below : list (LayoutItem float)) (item : LayoutItem float) :
  Forall (Forall (fun other => node_key other <> key_nodeKey active_key)) before ->
  Forall (fun other => node_key other <> key_nodeKey active_key) above ->
  node_key item = key_nodeKey active_key ->
  finite (span_start item) = true ->
  finite (span_end item) = true ->
  (0 <= value (span_start item) <= 1)%R ->
  value (span_start item) = value (span_end item) ->
  let rect := fst (dataRect active_key (before ++ (above ++ item :: below) :: after)) in
  finite (h rect) = true /\ value (h rect) = 0%R.
Proof.
  intros Hb Ha Hi Fs Fe [Hs0 Hs1] Hse rect. subst rect.
  rewrite (dataRect_at_first _ _ _ _ Hb Ha Hi). cbn [fst].
  unfold focus_rect, std_max, std_min, QRectF_of_points.
  cbn [h px py add sub mul ltb lit_0 lit_1 lit_0_2 lit_0_05 of_count binary64].
  assert (Hle : (value (span_start item) <= value (span_end item))%R) by lra.
  assert (He1 : (value (span_end item) <= 1)%R) by lra.
  destruct (@padding_steps _ _ Fs Fe Hs0 Hle He1) as [_ [_ [Hx [Hy _]]]].
  destruct (@padding_empty _ _ Fs Fe Hs0 Hle He1 Hse) as [Vx Vy].
  set (x := (span_start item - 0.05 * (span_end item - span_start item))%float) in *.
  set (y := (span_end item + 0.05 * (span_end item - span_start item))%float) in *.
  pose proof (rounded_finite _ _ Hx) as Fx. pose proof (rounded_finite _ _ Hy) as Fy.
  destruct value_0 as [V0 F0]. destruct value_1 as [V1 F1].
  assert (Ex : PrimFloat.ltb x 0 = false).
  { apply (ltb_false_value x 0%float Fx F0). rewrite V0, Vx. exact Hs0. }
  assert (Ey : PrimFloat.ltb 1 y = false).
  { apply (ltb_false_value 1%float y F1 Fy). rewrite V1, Vy. exact He1. }
  rewrite Ex, Ey.
  assert (Hh : rounded (value y - value x) (y - x)%float).
  { apply sub_rounded; [exact Fy | exact Fx |]. apply small_fits.
    rewrite Vx, Vy, Hse, Rminus_diag, Rabs_R0. lra. }
  split; [exact (rounded_finite _ _ Hh) |].
  rewrite Vx, Vy, Hse, Rminus_diag in Hh.
  pose proof (rounded_nonneg _ _ Hh (Rle_refl 0)).
  pose proof (rounded_nonpos _ _ Hh (Rle_refl 0)). lra.
Qed.

Lemma dataRect_width_positive_scenario :
  finite (w (fst (dataRect (ValidKey 0 Scenario.childKey) Scenario.layout))) = true
  /\ (1 <= value (w (fst (dataRect (ValidKey 0 Scenario.childKey) Scenario.layout))))%R.
Proof.
  apply (@dataRect_width_positive (ValidKey 0 Scenario.childKey) Scenario.layout).
  - discriminate.
  - vm_compute. reflexivity.
Defined.

(** An item of no duration between two others, matched in column 1. *)
Lemma dataRect_height_flat :
  let rect :=
    fst (dataRect (ValidKey 0 2)
           ([ [ {| node_key := 0; exclusive := false;
                   span_start := 0%float; span_end := 1%float |} ] ]
            ++ ([ {| node_key := 0; exclusive := true;
                     span_start := 0%float; span_end := 0.2%float |} ]
                ++ {| node_key := 2; exclusive := false;
                      span_start := 0.2%float; span_end := 0.2%float |}
                   :: [ {| node_key := 1; exclusive := false;
                           span_start := 0.2%float; span_end := 1%float |} ])
               :: [])) in
  finite (h rect) = true /\ value (h rect) = 0%R.
Proof.
  refine (@dataRect_height (ValidKey 0 2)
            [ [ {| node_key := 0; exclusive := false;
                   span_start := 0%float; span_end := 1%float |} ] ]
            []
            [ {| node_key := 0; exclusive := true;
                 span_start := 0%float; span_end := 0.2%float |} ]
            [ {| node_key := 1; exclusive := false;
                 span_start := 0.2%float; span_end := 1%float |} ]
            {| node_key := 2; exclusive := false;
               span_start := 0.2%float; span_end := 0.2%float |} _ _ _ _ _ _ _).
  - repeat constructor; discriminate.
  - repeat constructor; discriminate.
  - reflexivity.
  - reflexivity.
  - reflexivity.
  - exact value_0_2.
  - reflexivity.
Defined.

(** ** The transform, one axis at a time *)

(** The error of the images of the two ends of the data along one axis,
    from the errors of the operations, over the real numbers. *)
Section AxisError.

Local Open Scope R_scope.

Lemma abs_mul_le (x y X Y : R) : Rabs x <= X -> Rabs y <= Y -> Rabs (x * y) <= X * Y.
Proof.
  intros Hx Hy. rewrite Rabs_mult.
  apply Rmult_le_compat; [apply Rabs_pos | apply Rabs_pos | exact Hx | exact Hy].
Qed.

Lemma abs_add_le (x y X Y : R) : Rabs x <= X -> Rabs y <= Y -> Rabs (x + y) <= X + Y.
Proof. intros Hx Hy. eapply Rle_trans; [apply Rabs_triang | lra]. Qed.

Lemma abs_sub_le (x y X Y : R) : Rabs x <= X -> Rabs y <= Y -> Rabs (x - y) <= X + Y.
Proof.
  intros Hx Hy. unfold Rminus. apply abs_add_le; [exact Hx | rewrite Rabs_Ropp; exact Hy].
Qed.

Lemma abs_near (v x E : R) : Rabs (v - x) <= E -> Rabs v <= Rabs x + E.
Proof.
  intros H. replace v with (x + (v - x)) by ring.
  apply abs_add_le; [apply Rle_refl | exact H].
Qed.

(** The exact quantities: the window starts at [a] and is [l] long, the
    data start at [d] and are [w] long. *)
Variables a l d w : R.
Hypothesis w_nonzero : w <> 0.

(** The computed ones, each within the rounding error of its operation:
    the scale, the scaled start, the translation, the far end of the data,
    the scaled far end, the images of the two ends and the far end of the
    window. *)
Variables u eta : R.
Hypothesis u_value : u * 9007199254740992 = 1.
Hypothesis eta_nonneg : 0 <= eta.

Variables vs vp vt vD vq vi vj vc : R.
Hypothesis scale_error : Rabs (vs - l / w) <= Rabs (l / w) * u + eta.
Hypothesis start_error : Rabs (vp - vs * d) <= Rabs (vs * d) * u + eta.
Hypothesis shift_error : Rabs (vt - (a - vp)) <= Rabs (a - vp) * u.
Hypothesis far_error : Rabs (vD - (d + w)) <= Rabs (d + w) * u.
Hypothesis scaled_far_error : Rabs (vq - vs * vD) <= Rabs (vs * vD) * u + eta.
Hypothesis near_image_error : Rabs (vi - (vp + vt)) <= Rabs (vp + vt) * u.
Hypothesis far_image_error : Rabs (vj - (vq + vt)) <= Rabs (vq + vt) * u.
Hypothesis corner_error : Rabs (vc - (a + l)) <= Rabs (a + l) * u.

Lemma axis_error :
  Rabs (vi - a) <= 8 * u * (Rabs a + Rabs (l / w * d)) + 8 * eta * (1 + Rabs d)
  /\ Rabs (vj - vc)
     <= 8 * u * (Rabs a + Rabs l + Rabs (l / w * d)) + 8 * eta * (1 + Rabs d + Rabs w).
Proof.
  assert (Hu : 0 < u <= / 1000) by lra.
  pose proof (Rabs_pos a) as Am0. pose proof (Rabs_pos l) as Lm0.
  pose proof (Rabs_pos d) as Dm0. pose proof (Rabs_pos w) as Wm0.
  pose proof (Rabs_pos (l / w)) as Sm0.
  assert (HB : Rabs (l / w * d) = Rabs (l / w) * Rabs d) by apply Rabs_mult.
  assert (HL : Rabs l = Rabs (l / w) * Rabs w).
  { rewrite <- Rabs_mult. f_equal. field. exact w_nonzero. }
  rewrite HB, HL.
  set (Am := Rabs a) in *. set (Dm := Rabs d) in *. set (Wm := Rabs w) in *.
  set (Sm := Rabs (l / w)) in *.
  set (sg := l / w) in *.
  (* magnitudes *)
  assert (M_s : Rabs vs <= Sm * (1 + u) + eta).
  { apply abs_near in scale_error. fold Sm in scale_error. lra. }
  assert (M_sd : Rabs (vs * d) <= (Sm * (1 + u) + eta) * Dm).
  { apply abs_mul_le; [exact M_s | apply Rle_refl]. }
  assert (E_p : Rabs (vp - vs * d) <= (Sm * (1 + u) + eta) * Dm * u + eta).
  { eapply Rle_trans; [exact start_error |].
    apply Rplus_le_compat_r. apply Rmult_le_compat_r; [lra | exact M_sd]. }
  assert (M_p : Rabs vp <= (Sm * (1 + u) + eta) * Dm * (1 + u) + eta).
  { apply abs_near in E_p. lra. }
  assert (M_ap : Rabs (a - vp) <= Am + ((Sm * (1 + u) + eta) * Dm * (1 + u) + eta)).
  { apply abs_sub_le; [apply Rle_refl | exact M_p]. }
  assert (E_t : Rabs (vt - (a - vp))
                <= (Am + ((Sm * (1 + u) + eta) * Dm * (1 + u) + eta)) * u).
  { eapply Rle_trans; [exact shift_error |].
    apply Rmult_le_compat_r; [lra | exact M_ap]. }
  set (et := vt - (a - vp)) in *.
  set (Et := (Am + ((Sm * (1 + u) + eta) * Dm * (1 + u) + eta)) * u) in *.
  assert (Et0 : 0 <= Et) by (eapply Rle_trans; [apply Rabs_pos | exact E_t]).
  assert (SD0 : 0 <= Sm * Dm) by (apply Rmult_le_pos; assumption).
  assert (SW0 : 0 <= Sm * Wm) by (apply Rmult_le_pos; assumption).
  assert (ED0 : 0 <= eta * Dm) by (apply Rmult_le_pos; assumption).
  assert (EW0 : 0 <= eta * Wm) by (apply Rmult_le_pos; assumption).
  split.
  - (* the near end *)
    assert (Hsum : vp + vt = a + et) by (unfold et; ring).
    rewrite Hsum in near_image_error.
    assert (M_i : Rabs (a + et) <= Am + Et) by (apply abs_add_le; [apply Rle_refl | exact E_t]).
    assert (H1 : Rabs (vi - (a + et)) <= (Am + Et) * u).
    { eapply Rle_trans; [exact near_image_error |].
      apply Rmult_le_compat_r; [lra | exact M_i]. }
    replace (vi - a) with ((vi - (a + et)) + et) by ring.
    eapply Rle_trans; [apply (@abs_add_le _ _ _ _ H1 E_t) |].
    unfold Et. clear - Hu u_value eta_nonneg Am0 Dm0 Sm0 SD0 ED0.
    assert (u = / 9007199254740992) by (apply Rmult_eq_reg_r with 9007199254740992; lra).
    subst u. nra.
  - (* the far end *)
    set (es := vs - sg) in *. set (ep := vp - vs * d) in *.
    set (eD := vD - (d + w)) in *. set (eq := vq - vs * vD) in *.
    assert (E_s : Rabs es <= Sm * u + eta) by exact scale_error.
    assert (M_dw : Rabs (d + w) <= Dm + Wm) by (apply abs_add_le; apply Rle_refl).
    assert (E_D : Rabs eD <= (Dm + Wm) * u).
    { eapply Rle_trans; [exact far_error |].
      apply Rmult_le_compat_r; [lra | exact M_dw]. }
    assert (M_D : Rabs vD <= (Dm + Wm) * (1 + u)).
    { pose proof (@abs_near _ _ _ far_error) as H.
      eapply Rle_trans; [exact H |].
      assert (Rabs (d + w) * u <= (Dm + Wm) * u)
        by (apply Rmult_le_compat_r; [lra | exact M_dw]).
      lra. }
    assert (M_sD : Rabs (vs * vD) <= (Sm * (1 + u) + eta) * ((Dm + Wm) * (1 + u))).
    { apply abs_mul_le; assumption. }
    assert (E_q : Rabs eq <= (Sm * (1 + u) + eta) * ((Dm + Wm) * (1 + u)) * u + eta).
    { eapply Rle_trans; [exact scaled_far_error |].
      apply Rplus_le_compat_r. apply Rmult_le_compat_r; [lra | exact M_sD]. }
    assert (M_weD : Rabs (w + eD) <= Wm + (Dm + Wm) * u).
    { apply abs_add_le; [apply Rle_refl | exact E_D]. }
    assert (E_1 : Rabs (sg * eD) <= Sm * ((Dm + Wm) * u)).
    { apply abs_mul_le; [apply Rle_refl | exact E_D]. }
    assert (E_2 : Rabs (es * (w + eD)) <= (Sm * u + eta) * (Wm + (Dm + Wm) * u)).
    { apply abs_mul_le; assumption. }
    set (ER := Sm * ((Dm + Wm) * u)
               + (Sm * u + eta) * (Wm + (Dm + Wm) * u)
               + ((Sm * (1 + u) + eta) * ((Dm + Wm) * (1 + u)) * u + eta)
               + ((Sm * (1 + u) + eta) * Dm * u + eta)
               + Et).
    assert (Hsum : vq + vt = (a + l) + (sg * eD + es * (w + eD) + eq - ep + et)).
    { unfold es, ep, eD, eq, et, sg. field. exact w_nonzero. }
    assert (E_R : Rabs (sg * eD + es * (w + eD) + eq - ep + et) <= ER).
    { unfold ER. apply abs_add_le; [| exact E_t].
      apply abs_sub_le; [| exact E_p].
      apply abs_add_le; [| exact E_q].
      apply abs_add_le; assumption. }
    set (er := sg * eD + es * (w + eD) + eq - ep + et) in *.
    assert (M_al : Rabs (a + l) <= Am + Sm * Wm).
    { apply abs_add_le; [apply Rle_refl | rewrite HL; apply Rle_refl]. }
    rewrite Hsum in far_image_error.
    assert (M_j : Rabs (a + l + er) <= Am + Sm * Wm + ER).
    { apply abs_add_le; assumption. }
    assert (H1 : Rabs (vj - (a + l + er)) <= (Am + Sm * Wm + ER) * u).
    { eapply Rle_trans; [exact far_image_error |].
      apply Rmult_le_compat_r; [lra | exact M_j]. }
    assert (H2 : Rabs (vc - (a + l)) <= (Am + Sm * Wm) * u).
    { eapply Rle_trans; [exact corner_error |].
      apply Rmult_le_compat_r; [lra | exact M_al]. }
    replace (vj - vc) with ((vj - (a + l + er)) + er - (vc - (a + l))) by ring.
    eapply Rle_trans;
      [apply (@abs_sub_le _ _ _ _ (@abs_add_le _ _ _ _ H1 E_R) H2) |].
    unfold ER, Et. clear - Hu u_value eta_nonneg Am0 Dm0 Wm0 Sm0 SD0 SW0 ED0 EW0.
    assert (u = / 9007199254740992) by (apply Rmult_eq_reg_r with 9007199254740992; lra).
    subst u. nra.
Qed.

End AxisError.

(** The same in double precision, for coordinates of moderate size. *)
Section AxisDouble.

Local Open Scope R_scope.

Lemma bpow_64 : bpow 64 = 18446744073709551616.
Proof. rewrite (bpow_IZR 64) by lia. reflexivity. Qed.

Lemma bpow_m64 : bpow (-64) = / 18446744073709551616.
Proof. rewrite bpow_neg. reflexivity. Qed.

Lemma fits_200 (z : R) : Rabs z <= bpow 200 -> Rabs z < bpow 1023.
Proof. intros H. eapply Rle_lt_trans; [exact H | apply bpow_lt; lia]. Qed.

Lemma bpow_200 : bpow 200 = bpow 64 * bpow 64 * bpow 64 * 256.
Proof.
  replace 200%Z with (64 + 64 + 64 + 8)%Z by ring.
  rewrite !bpow_add, (bpow_IZR 8) by lia. reflexivity.
Qed.

(** A product by the double 0 adds nothing. *)
Lemma zero_term (q o : float) :
  finite q = true -> finite o = true -> Rabs (value q) < bpow 1023 ->
  (finite (q + 0 * o)%float = true /\ value (q + 0 * o)%float = value q)
  /\ (finite (0 * o + q)%float = true /\ value (0 * o + q)%float = value q).
Proof.
  intros Fq Fo Hq. destruct value_0 as [V0 F0].
  assert (Hz : rounded (value 0%float * value o) (0 * o)%float).
  { apply mul_rounded; [exact F0 | exact Fo |].
    rewrite V0, Rmult_0_l, Rabs_R0. apply bpow_pos. }
  rewrite V0, Rmult_0_l in Hz.
  assert (Vz : value (0 * o)%float = 0).
  { pose proof (rounded_nonneg _ _ Hz (Rle_refl 0)).
    pose proof (rounded_nonpos _ _ Hz (Rle_refl 0)). lra. }
  pose proof (rounded_finite _ _ Hz) as Fz.
  split.
  - assert (H : rounded (value q + value (0 * o)%float) (q + 0 * o)%float).
    { apply add_rounded; [exact Fq | exact Fz |]. rewrite Vz, Rplus_0_r. exact Hq. }
    rewrite Vz, Rplus_0_r in H.
    split; [exact (rounded_finite _ _ H) | exact (rounded_value _ _ Fq H)].
  - assert (H : rounded (value (0 * o)%float + value q) (0 * o + q)%float).
    { apply add_rounded; [exact Fz | exact Fq |]. rewrite Vz, Rplus_0_l. exact Hq. }
    rewrite Vz, Rplus_0_l in H.
    split; [exact (rounded_finite _ _ H) | exact (rounded_value _ _ Fq H)].
Qed.

Variables a0 al d0 dl : float.
Hypothesis a0_moderate : moderate a0.
Hypothesis al_moderate : moderate al.
Hypothesis d0_moderate : moderate d0.
Hypothesis dl_moderate : moderate dl.
Hypothesis dl_sizeable : sizeable dl.

Local Abbreviation s := (al / dl)%float.
Local Abbreviation p := (s * d0)%float.
Local Abbreviation t := (a0 - p)%float.
Local Abbreviation D := (d0 + dl)%float.
Local Abbreviation q := (s * D)%float.

Lemma axis_steps :
  value dl <> 0
  /\ rounded (value al / value dl) s
  /\ rounded (value s * value d0) p
  /\ rounded (value a0 - value p) t
  /\ rounded (value d0 + value dl) D
  /\ rounded (value s * value D) q
  /\ rounded (value a0 + value al) (a0 + al)%float
  /\ Rabs (value p) <= 3 * (bpow 64 * bpow 64 * bpow 64)
  /\ Rabs (value q) <= 7 * (bpow 64 * bpow 64 * bpow 64)
  /\ Rabs (value t) <= 5 * (bpow 64 * bpow 64 * bpow 64).
Proof.
  destruct a0_moderate as [Fa Ma]. destruct al_moderate as [Fl Ml].
  destruct d0_moderate as [Fd Md]. destruct dl_moderate as [Fw Mw].
  unfold sizeable in dl_sizeable.
  pose proof bpow_200 as H200. pose proof bpow_64 as H64. pose proof bpow_m64 as Hm64.
  set (K := bpow 64) in *.
  assert (HK : 1 <= K) by (rewrite H64; lra).
  assert (Hu : 0 < bpow (-53) <= / 1000).
  { destruct u_small as [H1 H2]. split; [exact H1 | lra]. }
  set (u := bpow (-53)) in *.
  assert (Heta : 0 < bpow (-1075) <= 1).
  { split; [apply bpow_pos |]. rewrite <- bpow_0. apply bpow_le. lia. }
  set (eta := bpow (-1075)) in *.
  assert (Hw0 : value dl <> 0).
  { intros E. rewrite E, Rabs_R0 in dl_sizeable. rewrite Hm64 in dl_sizeable. lra. }
  assert (K3 : 0 < K * K * K) by nra.
  (* the scale *)
  assert (M_sg : Rabs (value al / value dl) <= K * K).
  { unfold Rdiv. rewrite Rabs_mult, Rabs_inv.
    apply Rmult_le_compat; [apply Rabs_pos | | exact Ml |].
    - left. apply Rinv_0_lt_compat. rewrite Hm64 in dl_sizeable. lra.
    - replace K with (/ / K) by (field; lra).
      apply Rinv_le_contravar; [apply Rinv_0_lt_compat; lra |].
      rewrite H64, <- Hm64. exact dl_sizeable. }
  assert (Hs : rounded (value al / value dl) s).
  { apply div_rounded; [exact Fl | exact Fw | exact Hw0 |]. apply fits_200.
    rewrite H200. nra. }
  assert (M_s : Rabs (value s) <= 2 * (K * K)).
  { pose proof (@abs_near _ _ _ (rounded_error _ _ Hs)) as H. fold u eta in H. nra. }
  (* the scaled start *)
  assert (M_sd : Rabs (value s * value d0) <= 2 * (K * K) * K).
  { apply abs_mul_le; assumption. }
  assert (Hp : rounded (value s * value d0) p).
  { apply mul_rounded; [exact (rounded_finite _ _ Hs) | exact Fd |]. apply fits_200.
    rewrite H200. nra. }
  assert (M_p : Rabs (value p) <= 3 * (K * K * K)).
  { pose proof (@abs_near _ _ _ (rounded_error _ _ Hp)) as H. fold u eta in H. nra. }
  (* the translation *)
  assert (M_ap : Rabs (value a0 - value p) <= K + 3 * (K * K * K)).
  { apply abs_sub_le; assumption. }
  assert (Ht : rounded (value a0 - value p) t).
  { apply sub_rounded; [exact Fa | exact (rounded_finite _ _ Hp) |]. apply fits_200.
    rewrite H200. nra. }
  assert (M_t : Rabs (value t) <= 5 * (K * K * K)).
  { pose proof (@abs_near _ _ _ (rounded_error _ _ Ht)) as H. fold u eta in H. nra. }
  (* the far end of the data *)
  assert (M_dw : Rabs (value d0 + value dl) <= K + K).
  { apply abs_add_le; assumption. }
  assert (HD : rounded (value d0 + value dl) D).
  { apply add_rounded; [exact Fd | exact Fw |]. apply fits_200. rewrite H200. nra. }
  assert (M_D : Rabs (value D) <= 3 * K).
  { pose proof (@abs_near _ _ _ (rounded_error _ _ HD)) as H. fold u eta in H. nra. }
  assert (M_sD : Rabs (value s * value D) <= 2 * (K * K) * (3 * K)).
  { apply abs_mul_le; assumption. }
  assert (Hq : rounded (value s * value D) q).
  { apply mul_rounded; [exact (rounded_finite _ _ Hs) | exact (rounded_finite _ _ HD) |].
    apply fits_200. rewrite H200. nra. }
  assert (M_q : Rabs (value q) <= 7 * (K * K * K)).
  { pose proof (@abs_near _ _ _ (rounded_error _ _ Hq)) as H. fold u eta in H. nra. }
  assert (Hc : rounded (value a0 + value al) (a0 + al)%float).
  { apply add_rounded; [exact Fa | exact Fl |]. apply fits_200. rewrite H200.
    pose proof (@abs_add_le _ _ _ _ Ma Ml). nra. }
  repeat (split; [assumption |]). assumption.
Qed.

(** The images of the two ends of the data, whatever finite coordinate [o]
    the point has on the other axis and on whichever side its product by 0
    is added. *)
Lemma axis_double (o : float) :
  finite o = true ->
  (finite (s * d0 + 0 * o + t)%float = true
   /\ Rabs (value (s * d0 + 0 * o + t)%float - value a0) <= axis_tolerance a0 al d0 dl)
  /\ (finite (0 * o + s * d0 + t)%float = true
      /\ Rabs (value (0 * o + s * d0 + t)%float - value a0) <= axis_tolerance a0 al d0 dl)
  /\ (finite (s * (d0 + dl) + 0 * o + t)%float = true
      /\ Rabs (value (s * (d0 + dl) + 0 * o + t)%float - value (a0 + al)%float)
         <= axis_tolerance a0 al d0 dl)
  /\ (finite (0 * o + s * (d0 + dl) + t)%float = true
      /\ Rabs (value (0 * o + s * (d0 + dl) + t)%float - value (a0 + al)%float)
         <= axis_tolerance a0 al d0 dl).
Proof.
  intros Fo.
  destruct axis_steps as [Hw0 [Hs [Hp [Ht [HD [Hq [Hc [M_p [M_q M_t]]]]]]]]].
  destruct a0_moderate as [Fa Ma]. destruct al_moderate as [Fl Ml].
  destruct d0_moderate as [Fd Md]. destruct dl_moderate as [Fw Mw].
  pose proof bpow_200 as H200. pose proof bpow_64 as H64.
  set (K := bpow 64) in *.
  assert (HK : 1 <= K) by (rewrite H64; lra).
  assert (K3 : 0 < K * K * K) by nra.
  pose proof (rounded_finite _ _ Hp) as Fp. pose proof (rounded_finite _ _ Hq) as Fq.
  pose proof (rounded_finite _ _ Ht) as Ft.
  assert (Up : Rabs (value p) < bpow 1023) by (apply fits_200; rewrite H200; nra).
  assert (Uq : Rabs (value q) < bpow 1023) by (apply fits_200; rewrite H200; nra).
  destruct (zero_term p o Fp Fo Up) as [[Fp1 Vp1] [Fp2 Vp2]].
  destruct (zero_term q o Fq Fo Uq) as [[Fq1 Vq1] [Fq2 Vq2]].
  (* every image is one addition away *)
  assert (Himg : forall r1 r2 : float,
             finite r1 = true -> value r1 = value p ->
             finite r2 = true -> value r2 = value q ->
             (finite (r1 + t)%float = true
              /\ Rabs (value (r1 + t)%float - value a0) <= axis_tolerance a0 al d0 dl)
             /\ (finite (r2 + t)%float = true
                 /\ Rabs (value (r2 + t)%float - value (a0 + al)%float)
                    <= axis_tolerance a0 al d0 dl)).
  { intros r1 r2 F1 V1 F2 V2.
    assert (U1 : Rabs (value r1 + value t) < bpow 1023).
    { apply fits_200. rewrite H200, V1.
      pose proof (@abs_add_le _ _ _ _ M_p M_t). nra. }
    assert (U2 : Rabs (value r2 + value t) < bpow 1023).
    { apply fits_200. rewrite H200, V2.
      pose proof (@abs_add_le _ _ _ _ M_q M_t). nra. }
    pose proof (add_error r1 t F1 Ft U1) as E1. rewrite V1 in E1.
    pose proof (add_error r2 t F2 Ft U2) as E2. rewrite V2 in E2.
    assert (Uap : Rabs (value a0 - value p) < bpow 1023).
    { apply fits_200. rewrite H200. pose proof (@abs_sub_le _ _ _ _ Ma M_p). nra. }
    assert (Udw : Rabs (value d0 + value dl) < bpow 1023).
    { apply fits_200. rewrite H200. pose proof (@abs_add_le _ _ _ _ Md Mw). nra. }
    assert (Ual : Rabs (value a0 + value al) < bpow 1023).
    { apply fits_200. rewrite H200. pose proof (@abs_add_le _ _ _ _ Ma Ml). nra. }
    destruct (@axis_error (value a0) (value al) (value d0) (value dl) Hw0
                (bpow (-53)) (bpow (-1075)) (proj2 u_small) (Rlt_le _ _ (bpow_pos _))
                (value s) (value p) (value t) (value D) (value q)
                (value (r1 + t)%float) (value (r2 + t)%float) (value (a0 + al)%float)
                (rounded_error _ _ Hs) (rounded_error _ _ Hp)
                (sub_error a0 p Fa Fp Uap) (add_error d0 dl Fd Fw Udw)
                (rounded_error _ _ Hq) E1 E2 (add_error a0 al Fa Fl Ual))
      as [Bn Bf].
    assert (H8u : 8 * bpow (-53) = bpow (-50)).
    { replace (-50)%Z with (3 + -53)%Z by ring.
      rewrite bpow_add, (bpow_IZR 3) by lia. reflexivity. }
    assert (Htiny : 8 * bpow (-1075) * (1 + Rabs (value d0) + Rabs (value dl))
                    <= bpow (-1000)).
    { apply Rle_trans with (bpow (-1006)); [| apply bpow_le; lia].
      replace (-1006)%Z with (3 + -1075 + 66)%Z by ring.
      rewrite !bpow_add, (bpow_IZR 3) by lia.
      change (IZR (2 ^ 3)) with 8.
      apply Rmult_le_compat_l; [pose proof (bpow_pos (-1075)); lra |].
      replace 66%Z with (64 + 2)%Z by ring.
      rewrite bpow_add, (bpow_IZR 2) by lia. fold K. change (IZR (2 ^ 2)) with 4. lra. }
    pose proof (Rabs_pos (value al)). pose proof (Rabs_pos (value d0)).
    pose proof (Rabs_pos (value dl)). pose proof (bpow_pos (-1075)).
    pose proof (bpow_pos (-50)).
    unfold axis_tolerance. rewrite <- H8u in *.
    split; (split; [eapply rounded_finite; apply add_rounded; eassumption |]).
    - eapply Rle_trans; [exact Bn |]. nra.
    - eapply Rle_trans; [exact Bf |]. nra. }
  destruct (Himg _ _ Fp1 Vp1 Fq1 Vq1) as [N1 R1].
  destruct (Himg _ _ Fp2 Vp2 Fq2 Vq2) as [N2 R2].
  exact (conj N1 (conj N2 (conj R1 R2))).
Qed.

End AxisDouble.

(** ** The transform *)

(** C8, amended.  The transform has the scales and the translations of the
    claim, computed in double precision.  For a window rectangle and a data
    rectangle whose coordinates and sizes are finite doubles of at most
    [2^64] in absolute value, the width and the height of the data being at
    least [2^-64] in absolute value, it maps each of the four corners of the
    data rectangle to a point of finite coordinates that lies, along each
    axis, within [2^-50 (|start| + |length| + |length / size * origin|) +
    2^-1000] of the same corner of the window rectangle, where the window
    starts at [start] and is [length] long and the data start at [origin]
    and are [size] long. *)
Theorem getTransform_maps_corners (win_rect data_rect : QRectF float) :
  moderate (xp win_rect) -> moderate (yp win_rect) ->
  moderate (w win_rect) -> moderate (h win_rect) ->
  moderate (xp data_rect) -> moderate (yp data_rect) ->
  moderate (w data_rect) -> moderate (h data_rect) ->
  sizeable (w data_rect) -> sizeable (h data_rect) ->
  getTransform win_rect data_rect
  = {| m11 := (w win_rect / w data_rect)%float; m12 := 0%float; m13 := 0%float;
       m21 := 0%float; m22 := (h win_rect / h data_rect)%float; m23 := 0%float;
       m31 := (xp win_rect - w win_rect / w data_rect * xp data_rect)%float;
       m32 := (yp win_rect - h win_rect / h data_rect * yp data_rect)%float;
       m33 := 1%float |}
  /\ corner_close win_rect data_rect topLeft
  /\ corner_close win_rect data_rect topRight
  /\ corner_close win_rect data_rect bottomLeft
  /\ corner_close win_rect data_rect bottomRight.
Proof.
  intros Mwx Mwy Mww Mwh Mdx Mdy Mdw Mdh Sdw Sdh.
  split; [reflexivity |].
  destruct (axis_steps Mwx Mww Mdx Mdw Sdw) as [_ [_ [_ [_ [HDx [_ [HCx _]]]]]]].
  destruct (axis_steps Mwy Mwh Mdy Mdh Sdh) as [_ [_ [_ [_ [HDy [_ [HCy _]]]]]]].
  pose proof (rounded_finite _ _ HDx) as FDx. pose proof (rounded_finite _ _ HDy) as FDy.
  pose proof (rounded_finite _ _ HCx) as FCx. pose proof (rounded_finite _ _ HCy) as FCy.
  pose proof (proj1 Mwx) as Fwx. pose proof (proj1 Mwy) as Fwy.
  destruct (axis_double Mwx Mww Mdx Mdw Sdw _ (proj1 Mdy)) as [[X1 X2] [_ [[X3 X4] _]]].
  destruct (axis_double Mwx Mww Mdx Mdw Sdw _ FDy) as [[X5 X6] [_ [[X7 X8] _]]].
  destruct (axis_double Mwy Mwh Mdy Mdh Sdh _ (proj1 Mdx)) as [_ [[Y1 Y2] [_ [Y3 Y4]]]].
  destruct (axis_double Mwy Mwh Mdy Mdh Sdh _ FDx) as [_ [[Y5 Y6] [_ [Y7 Y8]]]].
  unfold corner_close, map_point, getTransform, topLeft, topRight, bottomLeft, bottomRight.
  cbn [m11 m12 m21 m22 m31 m32 px py width height
       add sub mul div lit_0 lit_1 binary64].
  repeat split; assumption.
Qed.

(** Doubles compared with [2^64] and [2^-64]. *)
Lemma moderate_by_ltb (x : float) :
  finite x = true ->
  PrimFloat.ltb x 0x1p64%float = true ->
  PrimFloat.ltb (-0x1p64)%float x = true ->
  moderate x.
Proof.
  intros Fx Hhi Hlo. split; [exact Fx |].
  destruct (value_pow2 0x1p64%float (e := 12) ltac:(vm_compute; reflexivity)) as [V F].
  assert (Vn : value (-0x1p64)%float = (- bpow 64)%R).
  { rewrite (value_finite (-0x1p64)%float (s := true) (m := 4503599627370496) (e := 12))
      by (vm_compute; reflexivity).
    simpl cond_Zopp. change (-4503599627370496)%Z with (- 2 ^ 52)%Z.
    rewrite opp_IZR, <- (bpow_IZR 52) by lia.
    replace 64%Z with (52 + 12)%Z by ring. rewrite bpow_add. ring. }
  assert (Fn : finite (-0x1p64)%float = true) by reflexivity.
  apply (ltb_value x _ Fx F) in Hhi. apply (ltb_value _ x Fn Fx) in Hlo.
  simpl Z.add in V. rewrite V in Hhi. rewrite Vn in Hlo.
  apply Rabs_le_iff. lra.
Qed.

Lemma sizeable_by_ltb (x : float) :
  finite x = true -> PrimFloat.ltb 0x1p-64%float x = true -> sizeable x.
Proof.
  intros Fx H.
  destruct (value_pow2 0x1p-64%float (e := -116) ltac:(vm_compute; reflexivity)) as [V F].
  apply (ltb_value _ x F Fx) in H. simpl Z.add in V. rewrite V in H.
  unfold sizeable. pose proof (bpow_pos (-64)). rewrite Rabs_pos_eq; lra.
Qed.

(** A window of 800 by 600 pixels on the rectangle of the scenario's child. *)
Lemma getTransform_maps_corners_window :
  let win_rect := {| xp := 0%float; yp := 0%float; w := 800%float; h := 600%float |} in
  let data_rect := {| xp := 0.8%float; yp := 0.16%float; w := 1.2%float; h := 0.84%float |} in
  getTransform win_rect data_rect
  = {| m11 := (800 / 1.2)%float; m12 := 0%float; m13 := 0%float;
       m21 := 0%float; m22 := (600 / 0.84)%float; m23 := 0%float;
       m31 := (0 - 800 / 1.2 * 0.8)%float;
       m32 := (0 - 600 / 0.84 * 0.16)%float;
       m33 := 1%float |}
  /\ corner_close win_rect data_rect topLeft
  /\ corner_close win_rect data_rect topRight
  /\ corner_close win_rect data_rect bottomLeft
  /\ corner_close win_rect data_rect bottomRight.
Proof.
  apply (@getTransform_maps_corners
           {| xp := 0%float; yp := 0%float; w := 800%float; h := 600%float |}
           {| xp := 0.8%float; yp := 0.16%float; w := 1.2%float; h := 0.84%float |});
    try (apply moderate_by_ltb; reflexivity);
    apply sizeable_by_ltb; reflexivity.
Defined.

(** C8 as stated fails.  The data rectangle at [(0, 1)], 2 wide and
    [1e-15] high, has a width and a height that are not zero; its
    bottom-right corner is mapped to the ordinate 640, the bottom-right
    corner of the window of 800 by 600 pixels has the ordinate 600. *)
Lemma getTransform_corner_off :
  let win_rect := {| xp := 0%float; yp := 0%float; w := 800%float; h := 600%float |} in
  let data_rect := {| xp := 0%float; yp := 1%float; w := 2%float; h := 1e-15%float |} in
  PrimFloat.ltb 0 (w data_rect) = true
  /\ PrimFloat.ltb 0 (h data_rect) = true
  /\ map_point (getTransform win_rect data_rect) (bottomRight data_rect)
     = {| px := 800%float; py := 640%float |}
  /\ bottomRight win_rect = {| px := 800%float; py := 600%float |}.
Proof. repeat split; vm_compute; reflexivity. Qed.
